(** * skill-icons: build and release scripts

    A shallow embedding of [scripts/build.js] (the icon component emitter)
    and of the release script, together with the pieces of the JavaScript
    runtime and of the [camelcase] package that these scripts rely on.

    Text is modelled as a list of ASCII characters.  The regular
    expressions of the scripts are run by a small backtracking matcher
    that follows the ECMAScript semantics for the constructs they use
    (literals, classes, greedy and lazy class repetition, groups,
    alternation, backreferences and [$]). *)

From Stdlib Require Import Ascii String Bool Arith Lia List.
Import ListNotations.
Open Scope list_scope.
Open Scope bool_scope.

(** ** Text and character classes *)

Abbreviation text := (list ascii).

(** A string literal of the source, as text. *)
Definition T (s : string) : text := list_ascii_of_string s.

(** The double quote character. *)
Definition dq : ascii := "034"%char.

Definition code (c : ascii) : nat := nat_of_ascii c.

(** [\s], restricted to ASCII: tab, line feed, vertical tab, form feed,
    carriage return and space. *)
Definition is_ws (c : ascii) : bool :=
  ((9 <=? code c) && (code c <=? 13)) || (code c =? 32).

(** Line terminators ([$] under the [m] flag, [.]). *)
Definition is_line_term (c : ascii) : bool := (code c =? 10) || (code c =? 13).

Definition is_digit (c : ascii) : bool := (48 <=? code c) && (code c <=? 57).
Definition is_upper (c : ascii) : bool := (65 <=? code c) && (code c <=? 90).
Definition is_lower (c : ascii) : bool := (97 <=? code c) && (code c <=? 122).
Definition is_alpha (c : ascii) : bool := is_upper c || is_lower c.
Definition is_alnum (c : ascii) : bool := is_alpha c || is_digit c.

Definition ch_eq (a : ascii) : ascii -> bool := fun c => Ascii.eqb a c.
Definition ch_neq (a : ascii) : ascii -> bool := fun c => negb (Ascii.eqb a c).
Definition any_char : ascii -> bool := fun _ => true.

(** [String.prototype.toUpperCase] / [toLowerCase] on ASCII. *)
Definition up (c : ascii) : ascii :=
  if is_lower c then ascii_of_nat (code c - 32) else c.
Definition low (c : ascii) : ascii :=
  if is_upper c then ascii_of_nat (code c + 32) else c.
Definition to_upper (s : text) : text := map up s.
Definition to_lower (s : text) : text := map low s.

(** [String.prototype.trim] on ASCII text. *)
Fixpoint drop_ws (s : text) : text :=
  match s with
  | c :: s' => if is_ws c then drop_ws s' else s
  | [] => []
  end.
Definition trim (s : text) : text := rev (drop_ws (rev (drop_ws s))).

(** Split at every character satisfying [p], keeping empty pieces, as
    [s.split(sep)] does for a one-character separator. *)
Fixpoint split_by (p : ascii -> bool) (s : text) : list text :=
  match s with
  | [] => [[]]
  | c :: s' =>
      if p c then [] :: split_by p s'
      else match split_by p s' with
           | w :: ws => (c :: w) :: ws
           | [] => [[c]]
           end
  end.

(** [s.split(sep)]. *)
Definition split_on (sep : ascii) (s : text) : list text := split_by (ch_eq sep) s.

(** [xs.join(sep)]. *)
Fixpoint join (sep : text) (xs : list text) : text :=
  match xs with
  | [] => []
  | [x] => x
  | x :: xs' => x ++ sep ++ join sep xs'
  end.

Definition text_eqb (a b : text) : bool :=
  if list_eq_dec ascii_dec a b then true else false.

Fixpoint prefixb (w s : text) : bool :=
  match w, s with
  | [], _ => true
  | a :: w', b :: s' => Ascii.eqb a b && prefixb w' s'
  | _ :: _, [] => false
  end.

(** ** A backtracking regular-expression matcher *)

(** The constructs the scripts use.  Every repetition in them is over a
    single character class, so [RRep] repeats a class: [greedy] chooses
    between [*], [+], [?] and their lazy forms [*?], [+?]; [lo] and [hi]
    are the bounds. *)
Inductive re : Type :=
| RNil
| RChr (a : ascii)
| RCls (p : ascii -> bool)
| RRep (greedy : bool) (lo : nat) (hi : option nat) (p : ascii -> bool)
| RCat (r1 r2 : re)
| RAlt (r1 r2 : re)
| RGrp (n : nat) (r : re)
| RRef (n : nat)
| REnd
| REol.

Definition caps := list (nat * text).

(** A capture that did not participate reads as the empty text, both in a
    backreference and in a [$n] of a replacement. *)
Fixpoint get_cap (n : nat) (c : caps) : text :=
  match c with
  | [] => []
  | (m, t) :: c' => if Nat.eqb n m then t else get_cap n c'
  end.

Definition set_cap (n : nat) (t : text) (c : caps) : caps := (n, t) :: c.

Fixpoint run_len (p : ascii -> bool) (s : text) : nat :=
  match s with
  | c :: s' => if p c then S (run_len p s') else 0
  | [] => 0
  end.

(** The repetition counts tried, in the order backtracking tries them. *)
Definition rep_lens (greedy : bool) (lo : nat) (hi : option nat) (n : nat) : list nat :=
  let top := match hi with Some h => Nat.min h n | None => n end in
  let ls := seq lo (S top - lo) in
  if greedy then rev ls else ls.

Fixpoint first_some {A B : Type} (f : A -> option B) (l : list A) : option B :=
  match l with
  | [] => None
  | x :: l' => match f x with Some b => Some b | None => first_some f l' end
  end.

(** [mt r s c k] matches [r] at the start of [s] with captures [c] and
    passes each way of doing so, in priority order, to the continuation
    [k] until one succeeds. *)
Fixpoint mt {A : Type} (r : re) (s : text) (c : caps)
         (k : text -> caps -> option A) {struct r} : option A :=
  match r with
  | RNil => k s c
  | RChr a =>
      match s with
      | b :: s' => if Ascii.eqb a b then k s' c else None
      | [] => None
      end
  | RCls p =>
      match s with
      | b :: s' => if p b then k s' c else None
      | [] => None
      end
  | RRep g lo hi p =>
      first_some (fun l => k (skipn l s) c) (rep_lens g lo hi (run_len p s))
  | RCat r1 r2 => mt r1 s c (fun s' c' => mt r2 s' c' k)
  | RAlt r1 r2 =>
      match mt r1 s c k with
      | Some x => Some x
      | None => mt r2 s c k
      end
  | RGrp n r1 =>
      mt r1 s c (fun s' c' => k s' (set_cap n (firstn (length s - length s') s) c'))
  | RRef n =>
      let t := get_cap n c in
      if prefixb t s then k (skipn (length t) s) c else None
  | REnd => match s with [] => k s c | _ :: _ => None end
  | REol =>
      match s with
      | [] => k s c
      | b :: _ => if is_line_term b then k s c else None
      end
  end.

(** The match of [r] anchored at the start of [s]: the rest of the text
    and the captures. *)
Definition exec (r : re) (s : text) : option (text * caps) :=
  mt r s [] (fun s' c => Some (s', c)).

Definition lit (w : text) : re := fold_right (fun a r => RCat (RChr a) r) RNil w.

(** A replacement: from the matched text and the captures to the text put
    in its place ([$n] reads [get_cap n]). *)
Definition repl := text -> caps -> text.

(** [s.replace(r, f)] for a non-global [r]: the first match, searching
    from the left. *)
Fixpoint sub (r : re) (f : repl) (s : text) : text :=
  match exec r s with
  | Some (s', c) => f (firstn (length s - length s') s) c ++ s'
  | None =>
      match s with
      | [] => []
      | a :: t => a :: sub r f t
      end
  end.

(** [s.replace(r, f)] for a global [r]: every match, left to right; after
    an empty match the scan moves one character on. *)
Fixpoint gsub_go (fuel : nat) (r : re) (f : repl) (s : text) : text :=
  match fuel with
  | O => s
  | S fu =>
      match exec r s with
      | Some (s', c) =>
          let m := firstn (length s - length s') s in
          f m c ++
            match m with
            | [] => match s with [] => [] | a :: t => a :: gsub_go fu r f t end
            | _ :: _ => gsub_go fu r f s'
            end
      | None =>
          match s with
          | [] => []
          | a :: t => a :: gsub_go fu r f t
          end
      end
  end.

Definition gsub (r : re) (f : repl) (s : text) : text := gsub_go (S (length s)) r f s.

(** [s.replace(r, f)] for a global [r] whose callback also reads the
    input after the match (through its [offset] argument and the input
    string): [f m c rest]. *)
Fixpoint gsub_rest_go (fuel : nat) (r : re) (f : text -> caps -> text -> text) (s : text) : text :=
  match fuel with
  | O => s
  | S fu =>
      match exec r s with
      | Some (s', c) =>
          let m := firstn (length s - length s') s in
          f m c s' ++
            match m with
            | [] => match s with [] => [] | a :: t => a :: gsub_rest_go fu r f t end
            | _ :: _ => gsub_rest_go fu r f s'
            end
      | None =>
          match s with
          | [] => []
          | a :: t => a :: gsub_rest_go fu r f t
          end
      end
  end.

Definition gsub_rest (r : re) (f : text -> caps -> text -> text) (s : text) : text :=
  gsub_rest_go (S (length s)) r f s.

(** [re.exec(s)] / [s.match(re)] for a non-global search: the captures of
    the first match, or [None] for [null]. *)
Fixpoint search (r : re) (s : text) : option caps :=
  match exec r s with
  | Some (_, c) => Some c
  | None => match s with [] => None | _ :: t => search r t end
  end.

(** ** The [camelcase] package *)

(** [camelcase(input, { pascalCase: true })] as the package (version 8)
    computes it, on ASCII text.  With no [locale] option the package
    changes case with [toLocaleUpperCase()] and [toLocaleLowerCase()],
    which follow the locale of the host: the model takes the case mapping
    of ASCII letters that every locale but Turkish and Azeri has ([up] and
    [low]); under those two, [i] becomes the dotted capital [U+0130] and
    [I] the dotless small [U+0131], outside ASCII.  Its regular expressions are
    [SEPARATORS = /[_.\- ]+/], [IDENTIFIER = /([\p{Alpha}\p{N}_]|$)/u],
    [SEPARATORS_AND_IDENTIFIER = SEPARATORS IDENTIFIER] and
    [NUMBERS_AND_IDENTIFIER = /\d+/ IDENTIFIER], both global. *)
Module Camel.

Definition is_sep (c : ascii) : bool :=
  ch_eq "_"%char c || ch_eq "."%char c || ch_eq "-"%char c || ch_eq " "%char c.

Definition is_ident (c : ascii) : bool := is_alnum c || ch_eq "_"%char c.

Definition SEPARATORS : re := RRep true 1 None is_sep.
Definition IDENTIFIER : re := RGrp 1 (RAlt (RCls is_ident) REnd).
Definition SEPARATORS_AND_IDENTIFIER : re := RCat SEPARATORS IDENTIFIER.
Definition NUMBERS_AND_IDENTIFIER : re := RCat (RRep true 1 None is_digit) IDENTIFIER.

(** [input.replace(LEADING_SEPARATORS, '')] with
    [LEADING_SEPARATORS = /^[_.\- ]+/]: the anchor allows only a match at
    the start. *)
Definition strip_leading (s : text) : text :=
  match exec SEPARATORS s with
  | Some (s', _) => s'
  | None => s
  end.

(** The loop of [preserveCamelCase], which inserts a ['-'] at each
    lower-to-upper boundary and before the last capital of a run of
    capitals followed by a lower-case letter.  [i] is [index]; the three
    flags are [isLastCharLower], [isLastCharUpper] and
    [isLastLastCharUpper]; [isLastLastCharPreserved] is recomputed on each
    round.  Each round moves [i] on by at least one position past the
    original text, so [2 * length + 2] rounds suffice. *)
Fixpoint pcc_loop (fuel : nat) (s : text) (i : nat)
         (lastLower lastUpper lastLastUpper : bool) : text :=
  match fuel with
  | O => s
  | S fu =>
      if i <? length s then
        let ch := nth i s " "%char in
        let lastLastPreserved :=
          if 2 <? i then Ascii.eqb (nth (i - 3) s " "%char) "-"%char else true in
        if lastLower && is_upper ch then
          pcc_loop fu (firstn i s ++ "-"%char :: skipn i s) (i + 2)
                   false true lastUpper
        else if lastUpper && lastLastUpper && is_lower ch && negb lastLastPreserved then
          pcc_loop fu (firstn (i - 1) s ++ "-"%char :: skipn (i - 1) s) (i + 1)
                   true false lastUpper
        else
          pcc_loop fu s (i + 1) (is_lower ch) (is_upper ch) lastUpper
      else s
  end.

Definition preserve_camel_case (s : text) : text :=
  pcc_loop (2 * length s + 2) s 0 false false false.

(** The callback of the [NUMBERS_AND_IDENTIFIER] pass: a match followed
    by ['_'] or ['-'] in the input is kept, any other is upper-cased. *)
Definition num_repl (m : text) (_ : caps) (rest : text) : text :=
  match rest with
  | c :: _ => if ch_eq "_"%char c || ch_eq "-"%char c then m else to_upper m
  | [] => to_upper m
  end.

(** [postProcess]: the [NUMBERS_AND_IDENTIFIER] pass, then the
    [SEPARATORS_AND_IDENTIFIER] pass. *)
Definition post_process (s : text) : text :=
  gsub SEPARATORS_AND_IDENTIFIER (fun _ c => to_upper (get_cap 1 c))
       (gsub_rest NUMBERS_AND_IDENTIFIER num_repl s).

Definition camelcase_pascal (input0 : text) : text :=
  let input := trim input0 in
  match input with
  | [] => []
  | [c] => match search SEPARATORS [c] with Some _ => [] | None => to_upper [c] end
  | _ =>
      let hasUpperCase := negb (text_eqb input (to_lower input)) in
      let i1 := if hasUpperCase then preserve_camel_case input else input in
      let i2 := strip_leading i1 in
      let i3 := to_lower i2 in
      let i4 := match i3 with [] => [] | c :: r => up c :: r end in
      post_process i4
  end.

End Camel.

(** ** Icon loader ([getIcons]) *)

(** [/\.svg$/] *)
Definition svg_ext : re := RCat (lit (T ".svg")) REnd.

(** [camelcase(file.replace(/\.svg$/, ''), { pascalCase: true })] *)
Definition componentName (file : text) : text :=
  Camel.camelcase_pascal (sub svg_ext (fun _ _ => []) file).

(** The naming rule as the specification words it, to be compared with
    [componentName]: strip the file extension, split the rest into words
    at every non-alphanumeric character, capitalise the first letter of
    each word and drop the separators. *)
Fixpoint before_last_dot (s : text) : option text :=
  match s with
  | [] => None
  | c :: s' =>
      match before_last_dot s' with
      | Some p => Some (c :: p)
      | None => if Ascii.eqb c "."%char then Some [] else None
      end
  end.

Definition spec_strip_ext (s : text) : text :=
  match before_last_dot s with Some p => p | None => s end.

Definition capitalize (w : text) : text :=
  match w with [] => [] | c :: r => up c :: r end.

Definition spec_componentName (file : text) : text :=
  concat (map capitalize
    (filter (fun w => negb (text_eqb w [])) (split_by (fun c => negb (is_alnum c)) (spec_strip_ext file)))).

(** ** The component emitter ([scripts/build.js]) *)

Module Build.

Definition nl : ascii := "010"%char.
Definition sq : ascii := "039"%char.

Fixpoint cats (rs : list re) : re :=
  match rs with
  | [] => RNil
  | [r] => r
  | r :: rs' => RCat r (cats rs')
  end.

Definition ws_star : re := RRep true 0 None is_ws.
Definition ws_plus : re := RRep true 1 None is_ws.
Definition is_quote (c : ascii) : bool := Ascii.eqb c dq || Ascii.eqb c sq.

Inductive format := esm | cjs.

Definition format_text (f : format) : text :=
  match f with esm => T "esm" | cjs => T "cjs" end.

(** The external compilers as the build calls them; [None] is a thrown
    error.  [svgr] is [svgr.transform(svg, {icon, ref, titleProp, ...},
    {componentName})]; [swc] is [swc.transform] with [module.type] [es6]
    for [esm] and [commonjs] for [cjs]; [vue_compile] is
    [compiler.compile(markup, {mode: 'module'}).code]. *)
Record tools := {
  svgr : text -> text -> option text;
  swc : text -> format -> option text;
  vue_compile : text -> option text;
}.

(** *** [transforms.react] *)

(** [/Object\.defineProperty\(exports,\s*["']default["'],\s*\{[\s\S]*?\}\);?\s*/g] *)
Definition define_default_re : re :=
  cats [lit (T "Object.defineProperty(exports,"); ws_star; RCls is_quote;
        lit (T "default"); RCls is_quote; RChr ","%char; ws_star; RChr "{"%char;
        RRep false 0 None any_char; lit (T "})"); RRep true 0 (Some 1) (ch_eq ";"%char);
        ws_star].

(** [/const\s+_default\s*=\s*([^;]+);?\s*$/m] *)
Definition default_assign_re : re :=
  cats [lit (T "const"); ws_plus; lit (T "_default"); ws_star; RChr "="%char; ws_star;
        RGrp 1 (RRep true 1 None (ch_neq ";"%char)); RRep true 0 (Some 1) (ch_eq ";"%char);
        ws_star; REol].

(** The two rewrites of the [cjs] output:
    [.replace(define_default_re, '')] then
    [.replace(default_assign_re, 'module.exports = $1;')]. *)
Definition react_cjs_post (code : text) : text :=
  sub default_assign_re (fun _ c => T "module.exports = " ++ get_cap 1 c ++ T ";")
      (gsub define_default_re (fun _ _ => []) code).

Definition transform_react (tl : tools) (svg name : text) (fmt : format) : option text :=
  match svgr tl svg name with
  | None => None
  | Some component =>
      match swc tl component fmt with
      | None => None
      | Some code =>
          Some (match fmt with cjs => react_cjs_post code | esm => code end)
      end
  end.

(** *** [transforms.vue] *)

(** [/<svg(G)\s+ATTR=Q[^Q]*Q(G)>/g] for [ATTR] [width] or [height], where
    [G] stands for [[^>]*] and [Q] for the double quote. *)
Definition svg_attr_re (attr : text) : re :=
  cats [lit (T "<svg"); RGrp 1 (RRep true 0 None (ch_neq ">"%char)); ws_plus;
        lit (attr ++ T "=" ++ [dq]); RRep true 0 None (ch_neq dq); RChr dq;
        RGrp 2 (RRep true 0 None (ch_neq ">"%char)); RChr ">"%char].

(** The replacement ['<svg$1 ATTR=Q1emQ$2>']. *)
Definition svg_attr_repl (attr : text) : repl :=
  fun _ c => T "<svg" ++ get_cap 1 c ++ T " " ++ attr ++ T "=" ++ [dq] ++ T "1em" ++ [dq]
             ++ get_cap 2 c ++ T ">".

(** The markup handed to the template compiler. *)
Definition vue_pre (svg : text) : text :=
  gsub (svg_attr_re (T "height")) (svg_attr_repl (T "height"))
       (gsub (svg_attr_re (T "width")) (svg_attr_repl (T "width")) svg).

(** [/import\s+\{\s*([^}]+)\s*\}\s+from\s+(['Q])(.*?)\2/], where [Q] stands
    for the double quote. *)
Definition import_re : re :=
  cats [lit (T "import"); ws_plus; RChr "{"%char; ws_star;
        RGrp 1 (RRep true 1 None (ch_neq "}"%char)); ws_star; RChr "}"%char; ws_plus;
        lit (T "from"); ws_plus; RGrp 2 (RCls is_quote);
        RGrp 3 (RRep false 0 None (fun c => negb (is_line_term c))); RRef 2].

(** [/\s+as\s+/] *)
Definition as_re : re := cats [ws_plus; lit (T "as"); ws_plus].

(** The replacement function of the [cjs] import rewrite. *)
Definition import_repl : repl :=
  fun _ c =>
    let newImports :=
      join (T ", ") (map (fun i => sub as_re (fun _ _ => T ": ") (trim i))
                         (split_on ","%char (get_cap 1 c))) in
    T "const { " ++ newImports ++ T " } = require(" ++ [dq] ++ get_cap 3 c ++ [dq] ++ T ")".

(** [code.replace(import_re, ...).replace('export function render',
    'module.exports = function render')] *)
Definition vue_cjs_post (code : text) : text :=
  sub (lit (T "export function render")) (fun _ _ => T "module.exports = function render")
      (sub import_re import_repl code).

(** [code.replace('export function', 'export default function')] *)
Definition vue_esm_post (code : text) : text :=
  sub (lit (T "export function")) (fun _ _ => T "export default function") code.

Definition transform_vue (tl : tools) (svg : text) (fmt : format) : option text :=
  match vue_compile tl (vue_pre svg) with
  | None => None
  | Some code =>
      Some (match fmt with cjs => vue_cjs_post code | esm => vue_esm_post code end)
  end.

(** The errors of a build: [fs.readdir] or [fs.readFile] of an asset
    failing, a compiler throwing for an icon, the [TypeError] of calling
    [transforms[target]] when it is not a function, the [TypeError] an
    inherited method throws, and a write rejecting. *)
Inductive berr :=
| BReaddir
| BRead (file : text)
| BTool (name : text)
| BNoTransform
| BProtoCall (method : text)
| BWrite (path : text).

(** What a transform returns for an icon: the text of the module, or a
    value that is not a string. *)
Inductive content := CText (t : text) | CValue.

(** The methods every object inherits from [Object.prototype] ([__proto__],
    inherited too, is an object and not a function). *)
Definition proto_methods : list text :=
  [T "constructor"; T "__defineGetter__"; T "__defineSetter__"; T "hasOwnProperty";
   T "__lookupGetter__"; T "__lookupSetter__"; T "isPrototypeOf"; T "propertyIsEnumerable";
   T "toString"; T "valueOf"; T "toLocaleString"].

(** [transforms[target]({ svg, componentName, format })] when [target]
    names an inherited method, called with [this] the [transforms] object
    and the options object as argument: [toString] and [toLocaleString]
    return the string [[object Object]]; [valueOf] returns [transforms],
    [constructor] the options object, [hasOwnProperty], [isPrototypeOf]
    and [propertyIsEnumerable] [false], [__lookupGetter__] and
    [__lookupSetter__] [undefined]; [__defineGetter__] and
    [__defineSetter__] throw a [TypeError], their second argument not
    being a function. *)
Definition inherited_call (t : text) : option (berr + content) :=
  if existsb (text_eqb t) [T "toString"; T "toLocaleString"] then
    Some (inr (CText (T "[object Object]")))
  else if existsb (text_eqb t) [T "__defineGetter__"; T "__defineSetter__"] then
    Some (inl (BProtoCall t))
  else if existsb (text_eqb t) proto_methods then Some (inr CValue)
  else None.

(** [transforms[target]]: the [react] or [vue] transform, with a thrown
    error of the compilers as [BTool name]; an inherited method; or [None]
    when the property is missing or not a function (the call then throws
    a [TypeError]).  [target] is [None] when no argument is given:
    [transforms[undefined]] is missing. *)
Definition transform (tl : tools) (target : option text)
  : option (text -> text -> format -> berr + content) :=
  match target with
  | Some t =>
      if text_eqb t (T "react") then
        Some (fun svg name fmt =>
                match transform_react tl svg name fmt with
                | Some code => inr (CText code)
                | None => inl (BTool name)
                end)
      else if text_eqb t (T "vue") then
        Some (fun svg name fmt =>
                match transform_vue tl svg fmt with
                | Some code => inr (CText code)
                | None => inl (BTool name)
                end)
      else match inherited_call t with
           | Some r => Some (fun _ _ _ => r)
           | None => None
           end
  | None => None
  end.

(** [`${target}`] *)
Definition target_text (target : option text) : text :=
  match target with Some t => t | None => T "undefined" end.

(** *** Type declarations and the index *)

Definition types_text (target : option text) (name : text) : text :=
  let lines :=
    if text_eqb (target_text target) (T "react") then
      [T "import * as React from 'react';";
       T "declare const " ++ name ++ T ": React.ForwardRefExoticComponent<React.PropsWithoutRef<React.SVGProps<SVGSVGElement>> & { title?: string, titleId?: string } & React.RefAttributes<SVGSVGElement>>;";
       T "export default " ++ name ++ T ";"]
    else if text_eqb (target_text target) (T "vue") then
      [T "import type { FunctionalComponent, HTMLAttributes, VNodeProps } from 'vue';";
       T "declare const " ++ name ++ T ": FunctionalComponent<HTMLAttributes & VNodeProps>;";
       T "export default " ++ name ++ T ";"]
    else [] in
  join [nl] lines ++ [nl].

Definition export_line (fmt : format) (name : text) : text :=
  match fmt with
  | esm => T "export { default as " ++ name ++ T " } from './" ++ name ++ T "'"
  | cjs => T "module.exports." ++ name ++ T " = require('./" ++ name ++ T "')"
  end.

Definition exportAll (names : list text) (fmt : format) : text :=
  join [nl] (map (export_line fmt) names).

(** *** File system and the build *)

(** [fs.readdir('./assets')], [fs.readFile] of an asset, and whether
    [ensureWrite] of a path resolves; [None] is a rejection. *)
Record fsys := {
  assets : option (list text);
  read_asset : text -> option text;
  write_ok : text -> bool;
}.

Record icon := { svg : text; name : text }.

(** [Promise.all] over a list of outcomes rejects with the first
    rejection in time.  Which of several failing reads settles first
    depends on the file system; the model reports the first in list
    order, one of the possible outcomes, and no theorem below depends on
    which error is reported. *)
Fixpoint first_err {A : Type} (xs : list (berr + A)) : berr + list A :=
  match xs with
  | [] => inr []
  | inl e :: _ => inl e
  | inr a :: xs' => match first_err xs' with inl e => inl e | inr l => inr (a :: l) end
  end.

Definition getIcons (fs : fsys) : berr + list icon :=
  match assets fs with
  | None => inl BReaddir
  | Some files =>
      first_err (map (fun file =>
        match read_asset fs file with
        | None => inl (BRead file)
        | Some s => inr {| svg := s; name := componentName file |}
        end) files)
  end.

(** The outcome of one [build(target, format)]: the rejection its promise
    settles with, the files written, and the rejections of write promises
    nobody awaits. *)
Record brun := { awaited : option berr; writes : list (text * text); detached : list berr }.

(** [ensureWrite(path, content)]: [fs.writeFile] rejects content that is
    not a string (nor a buffer or an iterable) with [ERR_INVALID_ARG_TYPE]. *)
Definition ensure_write (fs : fsys) (path : text) (c : content) : list (text * text) * list berr :=
  match c with
  | CText t => if write_ok fs path then ([(path, t)], []) else ([], [BWrite path])
  | CValue => ([], [BWrite path])
  end.

(** The [async] callback of [icons.flatMap]: it awaits the transform and
    returns the two [ensureWrite] promises without awaiting them. *)
Definition icon_task (tl : tools) (fs : fsys) (target : option text) (fmt : format)
           (out : text) (ic : icon) : option berr * list (text * text) * list berr :=
  match transform tl target with
  | None => (Some BNoTransform, [], [])
  | Some tr =>
      match tr (svg ic) (name ic) fmt with
      | inl e => (Some e, [], [])
      | inr content =>
          let (w1, d1) := ensure_write fs (out ++ T "/" ++ name ic ++ T ".js") content in
          let (w2, d2) := ensure_write fs (out ++ T "/" ++ name ic ++ T ".d.ts")
                                       (CText (types_text target (name ic))) in
          (None, w1 ++ w2, d1 ++ d2)
      end
  end.

Fixpoint first_some_err (es : list (option berr)) : option berr :=
  match es with
  | [] => None
  | Some e :: _ => Some e
  | None :: es' => first_some_err es'
  end.

Definition out_dir (target : option text) (fmt : format) : text :=
  T "./packages/" ++ target_text target ++ T "/" ++ format_text fmt.

Definition build (tl : tools) (fs : fsys) (target : option text) (fmt : format) : brun :=
  let out := out_dir target fmt in
  match getIcons fs with
  | inl e => {| awaited := Some e; writes := []; detached := [] |}
  | inr icons =>
      let rs := map (icon_task tl fs target fmt out) icons in
      let ws := concat (map (fun r => snd (fst r)) rs) in
      let ds := concat (map snd rs) in
      match first_some_err (map (fun r => fst (fst r)) rs) with
      | Some e => {| awaited := Some e; writes := ws; detached := ds |}
      | None =>
          let names := map name icons in
          let idx_js := out ++ T "/index.js" in
          let idx_dts := out ++ T "/index.d.ts" in
          if write_ok fs idx_js then
            if write_ok fs idx_dts then
              {| awaited := None;
                 writes := ws ++ [(idx_js, exportAll names fmt); (idx_dts, exportAll names esm)];
                 detached := ds |}
            else {| awaited := Some (BWrite idx_dts);
                    writes := ws ++ [(idx_js, exportAll names fmt)]; detached := ds |}
          else {| awaited := Some (BWrite idx_js); writes := ws; detached := ds |}
      end
  end.

(** The process running [main()]: the errors the [catch] block logs to
    standard error, the files written, and the exit code.  An unhandled
    promise rejection ends a Node.js process (version 15 and later) with
    exit code 1; [written] lists every write the program issues and
    resolves, some of which may not have completed when such a rejection
    ends the process. *)
Record process := { logged : list berr; written : list (text * text); exit_code : nat }.

Definition main (tl : tools) (fs : fsys) (target : option text) : process :=
  let b1 := build tl fs target esm in
  let b2 := build tl fs target cjs in
  let caught := match awaited b1 with Some e => Some e | None => awaited b2 end in
  let unhandled := detached b1 ++ detached b2 in
  {| logged := match caught with Some e => [e] | None => [] end;
     written := writes b1 ++ writes b2;
     exit_code := match unhandled with [] => 0 | _ :: _ => 1 end |}.

End Build.

(** ** The release script *)

Module Release.

(** What the script reads from its surroundings.  [exec cwd cmd] is
    [execSync(cmd, {cwd})]: its output, or the message of the error it
    throws.  [valid] and [inc] are [semver.valid] and
    [semver.inc(currentVersion, _)] ([inc] yields the text of its result,
    [null] included).  A prompt answer of [None] is a rejected prompt.
    [workspace] lists the entries of [packages/]: [None] for an entry that
    is not a directory, [Some private] for a package.  [manifest_ok] tells
    whether a manifest reads and parses.  [changelog] is [CHANGELOG.md] as
    the changelog step leaves it.  [type_error site] is the message of
    the [TypeError] the JavaScript engine throws when destructuring [null]
    at [site]: its wording is the engine's, and varies with the engine
    and its version. *)
Record env := {
  dry : bool;
  positional : option text;
  current_version : text;
  workspace : list (text * option bool);
  manifest_ok : text -> bool;
  exec : option text -> text -> text + text;
  remote_sha : option text;
  valid : text -> bool;
  inc : text -> text;
  ans_remote : option bool;
  ans_select : option nat;
  ans_custom : option text;
  ans_confirm : option bool;
  ans_changelog : option bool;
  changelog : text;
  token : option text;
  release_ok : bool;
  type_error : text -> text;
}.

(** Effects the script has on the world, in order. *)
Inductive event :=
| Run (cwd : option text) (cmd : text)
| DryLog (cmd : text)
| Write (path : text) (version : text)
| ReleasePage (tag notes : text)
| ReleaseApi (tag notes : text)
| Exit (code : nat).

(** Errors thrown.  [ENotIterable site] is the [TypeError] of
    destructuring [null] at the named place of the code. *)
Inductive rerr :=
| ECommand (cmd msg : text)
| EInvalidVersion (v : text)
| ENotIterable (site : text)
| EManifest (path : text)
| EFetch
| EPrompt
| ERelease.

(** [e.message]. *)
Definition message (E : env) (e : rerr) : text :=
  match e with
  | ECommand cmd msg => msg
  | EInvalidVersion v => T "Invalid target version: " ++ v
  | ENotIterable site => type_error E site
  | EManifest p => T "cannot read " ++ p
  | EFetch => T "fetch failed"
  | EPrompt => []
  | ERelease => T "release request failed"
  end.

(** The module-level [versionUpdated] flag and the effects so far. *)
Record state := { updated : bool; trace : list event }.

Definition init : state := {| updated := false; trace := [] |}.

(** A state and exception monad. *)
Definition M (A : Type) := state -> (rerr + A) * state.

Definition ret {A : Type} (a : A) : M A := fun st => (inr a, st).
Definition throw {A : Type} (e : rerr) : M A := fun st => (inl e, st).
Definition bind {A B : Type} (m : M A) (f : A -> M B) : M B :=
  fun st => match m st with
            | (inr a, st') => f a st'
            | (inl e, st') => (inl e, st')
            end.
Definition try_catch {A : Type} (m : M A) (h : rerr -> M A) : M A :=
  fun st => match m st with
            | (inl e, st') => h e st'
            | r => r
            end.
Definition emit (ev : event) : M unit :=
  fun st => (inr tt, {| updated := updated st; trace := trace st ++ [ev] |}).
Definition set_updated : M unit :=
  fun st => (inr tt, {| updated := true; trace := trace st |}).

Notation "x <- m ;; k" := (bind m (fun x => k)) (at level 61, m at next level, right associativity).
Notation "m ;;; k" := (bind m (fun _ => k)) (at level 61, right associativity).

Fixpoint for_each {A : Type} (xs : list A) (f : A -> M unit) : M unit :=
  match xs with
  | [] => ret tt
  | x :: xs' => f x ;;; for_each xs' f
  end.

Section Script.

Variable E : env.

Definition sp : ascii := " "%char.

(** [packages]: the non-private packages of the workspace. *)
Definition packages : list text :=
  map fst (filter (fun pe => match snd pe with Some priv => negb priv | None => false end)
                  (workspace E)).

Definition root_manifest : text := T "package.json".
Definition pkg_dir (p : text) : text := T "packages/" ++ p.
Definition pkg_manifest (p : text) : text := pkg_dir p ++ T "/package.json".
Definition manifest_paths : list text := root_manifest :: map pkg_manifest packages.

Definition prompt {A : Type} (ans : option A) : M A :=
  match ans with Some a => ret a | None => throw EPrompt end.

(** [run(command, options)]: the command runs, then returns its output
    or throws. *)
Definition run_in (cwd : option text) (cmd : text) : M text :=
  emit (Run cwd cmd) ;;;
  match exec E cwd cmd with
  | inl out => ret out
  | inr msg => throw (ECommand cmd msg)
  end.

Definition run (cmd : text) : M text := run_in None cmd.

(** [runIfNotDry] *)
Definition runIfNotDry (cmd : text) : M unit :=
  if dry E then emit (DryLog cmd) else (run cmd ;;; ret tt).

Definition isMainBranch : M bool :=
  out <- run (T "git branch --show-current") ;; ret (text_eqb (trim out) (T "main")).

Definition getLatestCommitHash : M text :=
  out <- run (T "git rev-parse HEAD") ;; ret (trim out).

(** [/github\.com\/([^\/]+)\/([^\/]+?)(?:\.git)?$/] *)
Definition repo_re : re :=
  Build.cats [lit (T "github.com/"); RGrp 1 (RRep true 1 None (ch_neq "/"%char)); RChr "/"%char;
              RGrp 2 (RRep false 1 None (ch_neq "/"%char)); RAlt (lit (T ".git")) RNil; REnd].

Definition getRepoInfo : M (text * text) :=
  remote <- run (T "git remote get-url origin") ;;
  match search repo_re (trim remote) with
  | Some c => ret (get_cap 1 c, get_cap 2 c)
  | None => throw (ENotIterable (T "remote.match"))
  end.

Definition isWorkspaceClean : M bool :=
  out <- run (T "git diff") ;; ret (text_eqb (trim out) []).

Definition isInSyncWithRemote : M bool :=
  try_catch
    (getRepoInfo ;;;
     sha <- match remote_sha E with Some s => ret s | None => throw EFetch end ;;
     head <- getLatestCommitHash ;;
     if text_eqb sha head then ret true else prompt (ans_remote E))
    (fun _ => ret false).

Definition updatePackageVersion (path version : text) : M unit :=
  if manifest_ok E path then emit (Write path version) else throw (EManifest path).

Definition updatePackagesVersion (version : text) : M unit :=
  updatePackageVersion root_manifest version ;;;
  for_each packages (fun p => updatePackageVersion (pkg_manifest p) version).

Definition publish_cmd (flags : list text) : text :=
  T "pnpm publish --access publish " ++ join [sp] flags.

Definition publishPackage (pkgName version : text) (flags : list text) : M unit :=
  try_catch (run_in (Some (pkg_dir pkgName)) (publish_cmd flags) ;;; ret tt)
    (fun e =>
       match search (lit (T "previously published")) (message E e) with
       | Some _ => ret tt
       | None => throw e
       end).

Definition publish_flags : list text :=
  if dry E then [T "--dry-run"; T "--no-git-checks"] else [].

Definition publishPackages (version : text) : M unit :=
  for_each packages (fun p => publishPackage p version publish_flags).

(** The pattern source [# VERSION \((.* )\)\n\n([\s\S]*?)\n(?:(?:#\s)|(?:$))]
    (without the space after the first [*])
    built by [new RegExp], with the version text spliced in.  A valid
    version holds letters, digits and [.], [-], [+], [=], [v]: in the
    pattern [.] matches any character but a line terminator and [+]
    repeats the atom before it. *)
Fixpoint source_atoms (s : text) : list re :=
  match s with
  | [] => []
  | c :: s' =>
      let cls := if Ascii.eqb c "."%char then (fun x => negb (is_line_term x)) else ch_eq c in
      match s' with
      | "+"%char :: s'' => RRep true 1 None cls :: source_atoms s''
      | _ => RCls cls :: source_atoms s'
      end
  end.

Definition section_re (version : text) : re :=
  Build.cats (source_atoms (T "# " ++ version) ++
    [lit (T " ("); RGrp 1 (RRep true 0 None (fun x => negb (is_line_term x))); RChr ")"%char;
     RChr Build.nl; RChr Build.nl; RGrp 2 (RRep false 0 None any_char); RChr Build.nl;
     RAlt (RCat (RChr "#"%char) (RCls is_ws)) REnd]).

Definition publishGitHubRelease (version : text) : M unit :=
  info <- getRepoInfo ;;
  match search (section_re version) (changelog E) with
  | None => throw (ENotIterable (T "changelog section"))
  | Some c =>
      let notes := get_cap 2 c in
      if dry E then ret tt
      else match token E with
           | None => emit (ReleasePage (T "v" ++ version) notes)
           | Some _ =>
               if release_ok E then emit (ReleaseApi (T "v" ++ version) notes)
               else throw ERelease
           end
  end.

Definition releaseTypes : list text := [T "major"; T "minor"; T "patch"].

Definition choices : list text :=
  map (fun i => i ++ T " (" ++ inc E i ++ T ")") releaseTypes ++ [T "custom"].

(** [/\((.* )\)/], without the space. *)
Definition paren_re : re :=
  Build.cats [RChr "("%char; RGrp 1 (RRep true 0 None (fun x => negb (is_line_term x))); RChr ")"%char].

(** The target version: the argument, or the answer to the prompts. *)
Definition select_version : M text :=
  match positional E with
  | Some (_ :: _ as v) => ret v
  | _ =>
      n <- prompt (ans_select E) ;;
      let type := nth n choices [] in
      if text_eqb type (T "custom") then prompt (ans_custom E)
      else ret (match search paren_re type with Some c => get_cap 1 c | None => [] end)
  end.

Definition changelog_cmd : text := T "conventional-changelog -p angular -i CHANGELOG.md -s".
Definition install_cmd : text := T "pnpm install --prefer-offline".
Definition build_cmd : text := T "pnpm build".
Definition commit_cmd (v : text) : text :=
  T "git commit -m " ++ [dq] ++ T "chore(release): release v" ++ v ++ [dq].

(** [main] up to the version confirmation: [None] where it returns early,
    [Some targetVersion] where it goes on. *)
Definition main_prelude : M (option text) :=
  isMain <- isMainBranch ;;
  if negb isMain then ret None else
  inSync <- isInSyncWithRemote ;;
  if negb inSync then ret None else
  targetVersion <- select_version ;;
  if negb (valid E targetVersion) then throw (EInvalidVersion targetVersion) else
  confirm <- prompt (ans_confirm E) ;;
  if negb confirm then ret None else ret (Some targetVersion).

(** The rest of [main], from the changelog on. *)
Definition main_release (targetVersion : text) : M unit :=
  run changelog_cmd ;;;
  ok <- prompt (ans_changelog E) ;;
  if negb ok then ret tt else
  run install_cmd ;;;
  clean <- isWorkspaceClean ;;
  (if negb clean then
     runIfNotDry (T "git add -A") ;;; runIfNotDry (commit_cmd targetVersion)
   else ret tt) ;;;
  runIfNotDry (T "git tag v" ++ targetVersion) ;;;
  runIfNotDry (T "git push origin refs/tags/v" ++ targetVersion) ;;;
  runIfNotDry (T "git push") ;;;
  publishGitHubRelease targetVersion ;;;
  run build_cmd ;;;
  publishPackages targetVersion.

Definition main : M unit :=
  o <- main_prelude ;;
  match o with
  | None => ret tt
  | Some targetVersion =>
      updatePackagesVersion targetVersion ;;;
      set_updated ;;;
      main_release targetVersion
  end.

(** [main().catch(...)] and the end of the process: the events and the
    exit code.  When the rollback itself throws, the rejection of the
    [catch] promise is unhandled and the process exits with code 1. *)
Record outcome := { events : list event; exit : nat }.

Definition release : outcome :=
  let (r, st) := main init in
  match r with
  | inr _ => {| events := trace st ++ [Exit 0]; exit := 0 |}
  | inl _ =>
      if updated st then
        let (r2, st2) := updatePackagesVersion (current_version E) st in
        {| events := trace st2 ++ [Exit 1]; exit := 1 |}
      else {| events := trace st ++ [Exit 1]; exit := 1 |}
  end.

End Script.

(** The version a manifest holds after the events: the last one written. *)
Definition last_write (path : text) (evs : list event) : option text :=
  fold_left (fun acc ev => match ev with
                           | Write q v => if text_eqb q path then Some v else acc
                           | _ => acc
                           end) evs None.

End Release.

(** ** Sample runs of the release script *)

Module Scenarios.
Import Release.

Definition nl_str : string := String Build.nl EmptyString.

(** A repository on [main], in sync with its remote, with a dirty work
    tree after the changelog and lockfile steps, and every command
    succeeding. *)
Definition sample_exec (cwd : option text) (cmd : text) : text + text :=
  if text_eqb cmd (T "git branch --show-current") then inl (T ("main" ++ nl_str))
  else if text_eqb cmd (T "git remote get-url origin") then inl (T "https://github.com/985563349/skill-icons.git")
  else if text_eqb cmd (T "git rev-parse HEAD") then inl (T "abc")
  else if text_eqb cmd (T "git diff") then inl (T "diff")
  else inl [].

Definition sample_changelog : text :=
  T ("# 1.3.0 (2026-10-17)" ++ nl_str ++ nl_str ++ "* feat: icons" ++ nl_str)%string.

(** Version [1.2.3], packages [react] and [vue] (plus a file and a
    private package), the [minor] release type chosen. *)
Definition sample_env (dry_run : bool) (arg : option text) (answer_changelog : option bool)
    (log : text) : env := {|
  dry := dry_run; positional := arg; current_version := T "1.2.3";
  workspace := [(T "react", Some false); (T "vue", Some false); (T "README.md", None); (T "docs", Some true)];
  manifest_ok := fun _ => true; exec := sample_exec; remote_sha := Some (T "abc");
  valid := fun v => text_eqb v (T "1.3.0") || text_eqb v (T "2.0.0");
  inc := fun i => if text_eqb i (T "minor") then T "1.3.0" else T "2.0.0";
  ans_remote := Some true; ans_select := Some 1; ans_custom := None; ans_confirm := Some true;
  ans_changelog := answer_changelog; changelog := log;
  token := None; release_ok := true;
  type_error := fun site => site ++ T " is not iterable" |}.

(** The changelog has no section for the new version. *)
Definition env_no_section : env := sample_env false None (Some true) (T "nothing").
(** The version argument is not a semantic version. *)
Definition env_bad_version : env := sample_env false (Some (T "not-a-version")) (Some true) sample_changelog.
(** The generated changelog is rejected. *)
Definition env_changelog_rejected : env := sample_env false None (Some false) sample_changelog.
(** A dry run that goes through. *)
Definition env_dry : env := sample_env true None (Some true) sample_changelog.

End Scenarios.

(** ** Sample runs of the build script *)

Module BuildScenarios.
Import Build.

(** Compilers that always succeed. *)
Definition sample_tools : tools := {|
  svgr := fun svg name => Some (T "const Component = () => null;");
  swc := fun code fmt => Some code;
  vue_compile := fun svg => Some (T "export function render() {}");
|}.

(** One asset, [a.svg], and a file system that accepts every write. *)
Definition fs_ok : fsys := {|
  assets := Some [T "a.svg"];
  read_asset := fun _ => Some (T "<svg></svg>");
  write_ok := fun _ => true;
|}.

(** The same, except that writing the module of the component fails. *)
Definition fs_component_write_fails : fsys := {|
  assets := Some [T "a.svg"];
  read_asset := fun _ => Some (T "<svg></svg>");
  write_ok := fun path => negb (text_eqb path (T "./packages/react/esm/A.js"));
|}.

End BuildScenarios.

(** ** Properties of texts and of the build output *)

Module TextProps.

Definition all_ws (w : text) : bool := forallb is_ws w.

Definition starts_non_ws (s : text) : bool :=
  match s with [] => true | c :: _ => negb (is_ws c) end.

(** No match of [r] starts at any of the first [n] positions of [s]. *)
Definition no_match_upto (r : re) (n : nat) (s : text) : bool :=
  forallb (fun i => match exec r (skipn i s) with None => true | Some _ => false end) (seq 0 n).

(** [w] does not occur in [s], nor across the end of [s] into a
    following [w]. *)
Definition free_of (w s : text) : bool :=
  forallb (fun i => negb (prefixb w (skipn i (s ++ w)))) (seq 0 (length s)).

(** [w] occurs nowhere in [s]. *)
Definition absent (w s : text) : bool :=
  forallb (fun i => negb (prefixb w (skipn i s))) (seq 0 (length s)).

(** No white-space character of [s] is directly followed by [w]: in a
    tag, no later attribute is named [w]. *)
Definition no_ws_then (w s : text) : bool :=
  forallb (fun i => negb (is_ws (nth i s " "%char) && prefixb w (skipn (S i) s)))
          (seq 0 (length s)).

(** No proper suffix of [w] is a prefix of [w], so two occurrences of [w]
    never overlap. *)
Definition unbordered (w : text) : bool :=
  forallb (fun q => negb (prefixb (skipn q (tl w)) w)) (seq 0 (length (tl w))).

End TextProps.

(** ** File names made of lowercase words *)

Module NamingProps.

(** A word separator of [camelcase] other than the space. *)
Definition name_sep (c : ascii) : bool :=
  ch_eq "_"%char c || ch_eq "."%char c || ch_eq "-"%char c.
Definition lower_word (w : text) : bool := Nat.leb 1 (length w) && forallb is_lower w.
Definition sep_run (s : text) : bool := Nat.leb 1 (length s) && forallb name_sep s.
Definition join_words (w0 : text) (ps : list (text * text)) : text :=
  w0 ++ concat (map (fun p => fst p ++ snd p) ps).

Definition words_ok (ps : list (text * text)) : bool :=
  forallb (fun p => sep_run (fst p) && lower_word (snd p)) ps.

Definition name_char (c : ascii) : bool := is_lower c || name_sep c.

Definition non_alnum (c : ascii) : bool := negb (is_alnum c).

End NamingProps.


Module BuildProps.
Import Build.

(** [Object.defineProperty(exports, "default", {G});W] as swc emits it,
    cut where the pattern's pieces meet. *)
Definition define_default_stmt (G W : text) : text :=
  T "Object.defineProperty(exports," ++ T " " ++ [dq] ++ T "default" ++ [dq] ++ T "," ++
  T " " ++ T "{" ++ G ++ T "})" ++ T ";" ++ W.

(** [const _default = e;W], cut the same way. *)
Definition default_assign_stmt (e W : text) : text :=
  T "const" ++ T " " ++ T "_default" ++ T " " ++ T "=" ++ T " " ++ e ++ T ";" ++ W.

(** An [svg] start tag [<svg xsATTR=QvQy>], [s] a character and [Q] the
    double quote. *)
Definition svg_tag (x : text) (s : ascii) (attr v y : text) : text :=
  T "<svg" ++ x ++ [s] ++ attr ++ T "=" ++ [dq] ++ v ++ [dq] ++ y ++ T ">".

End BuildProps.

(** ** A [cjs] output of swc *)

Module BuildSamples.
Import Build BuildProps.

(** The shape swc gives a react component compiled to [commonjs]: the
    prologue, the default-export getter, the body and the final
    [const _default = ForwardRef;]. *)
Definition cjs_prologue : text :=
  [dq] ++ T "use strict" ++ [dq] ++ T ";" ++ [nl] ++
  T "Object.defineProperty(exports, " ++ [dq] ++ T "__esModule" ++ [dq] ++ T ", {" ++ [nl] ++
  T "    value: true" ++ [nl] ++ T "});" ++ [nl].
Definition cjs_getter : text :=
  [nl] ++ T "    enumerable: true," ++ [nl] ++ T "    get: function() {" ++ [nl] ++
  T "        return _default;" ++ [nl] ++ T "    }" ++ [nl].
Definition cjs_body : text :=
  T "const _react = require(" ++ [dq] ++ T "react" ++ [dq] ++ T ");" ++ [nl] ++
  T "const SvgA = (props, ref)=>null;" ++ [nl] ++
  T "const ForwardRef = (0, _react.forwardRef)(SvgA);" ++ [nl].
Definition cjs_export : text := T "ForwardRef".
Definition swc_cjs_output : text :=
  cjs_prologue ++ define_default_stmt cjs_getter [nl] ++ cjs_body ++ default_assign_stmt cjs_export [nl].
Definition cjs_tools : tools := {|
  svgr := fun svg name => Some (T "const ForwardRef = forwardRef(SvgA);");
  swc := fun code fmt => Some swc_cjs_output;
  vue_compile := fun svg => Some (T "export function render() {}");
|}.


(** A stroked icon whose root element has [width] and [height] 24, one
    attribute per line, and a [stroke-width]. *)
Definition stroked_svg : text :=
  T "<svg xmlns=" ++ [dq] ++ T "http://www.w3.org/2000/svg" ++ [dq] ++ [nl] ++
  T "width=" ++ [dq] ++ T "24" ++ [dq] ++ [nl] ++ T "height=" ++ [dq] ++ T "24" ++ [dq] ++ [nl] ++
  T "viewBox=" ++ [dq] ++ T "0 0 24 24" ++ [dq] ++ T " fill=" ++ [dq] ++ T "none" ++ [dq] ++
  T " stroke=" ++ [dq] ++ T "currentColor" ++ [dq] ++ T " stroke-width=" ++ [dq] ++ T "2" ++ [dq] ++
  T "><path d=" ++ [dq] ++ T "M5 12h14" ++ [dq] ++ T "/></svg>".

(** An icon with an [svg] element nested in the root one. *)
Definition nested_svg : text :=
  T "<svg width=" ++ [dq] ++ T "24" ++ [dq] ++ T " height=" ++ [dq] ++ T "24" ++ [dq] ++
  T "><svg width=" ++ [dq] ++ T "10" ++ [dq] ++ T "/></svg>".

End BuildSamples.

(** ** Properties of release runs *)

Module ReleaseProps.
Import Release.

(** A property of states kept by a computation, whatever it returns. *)
Definition preserves (P : state -> Prop) {A : Type} (m : M A) : Prop :=
  forall st, P st -> P (snd (m st)).

(** [st'] comes after [st]: its events continue those of [st]. *)
Definition extends (st st' : state) : Prop := exists l, trace st' = trace st ++ l.

(** One step of [last_write]. *)
Definition lw_step (path : text) (acc : option text) (ev : event) : option text :=
  match ev with
  | Write q v => if text_eqb q path then Some v else acc
  | _ => acc
  end.

Definition is_write (ev : event) : bool :=
  match ev with Write _ _ => true | _ => false end.

(** The git commands that change the repository or its remote. *)
Definition git_mutation (cmd : text) : bool :=
  prefixb (T "git add") cmd || prefixb (T "git commit") cmd ||
  prefixb (T "git tag") cmd || prefixb (T "git push") cmd.

(** Events allowed in a dry run: no repository-changing git command and
    no GitHub release. *)
Definition dry_ok (ev : event) : bool :=
  match ev with
  | Run _ cmd => negb (git_mutation cmd)
  | ReleasePage _ _ | ReleaseApi _ _ => false
  | _ => true
  end.

(** Which errors a computation may throw. *)
Definition raises (S : rerr -> bool) {A : Type} (m : M A) : Prop :=
  forall st e st', m st = (inl e, st') -> S e = true.

(** The errors [main] throws before the versions are written. *)
Definition prelude_err (E : env) (e : rerr) : bool :=
  match e with
  | ECommand _ _ | EPrompt => true
  | EInvalidVersion v => negb (valid E v)
  | _ => false
  end.

Definition is_manifest_err (e : rerr) : bool :=
  match e with EManifest _ => true | _ => false end.

(** The errors of [main] after the versions are written. *)
Definition release_err (e : rerr) : bool :=
  match e with
  | ECommand _ _ | EPrompt | ENotIterable _ | ERelease => true
  | _ => false
  end.

Definition section_site : text := T "changelog section".

Definition no_write (st : state) : Prop := forall ev, In ev (trace st) -> is_write ev = false.

Definition not_section (e : rerr) : bool :=
  match e with ENotIterable s => negb (text_eqb s section_site) | _ => true end.

Definition event_eq_dec (a b : event) : {a = b} + {a <> b}.
Proof.
  pose proof ascii_dec. pose proof (list_eq_dec ascii_dec).
  decide equality; decide equality.
Defined.

(** Membership of an event, by computation. *)
Definition occurs (ev : event) (evs : list event) : bool :=
  existsb (fun e => if event_eq_dec ev e then true else false) evs.

End ReleaseProps.

(** ** Shapes of build inputs and outputs *)

Module BuildExtraProps.
Import Build.


(** The callback [getIcons] maps over the asset names. *)
Definition read_icon (fs : fsys) (file : text) : berr + icon :=
  match read_asset fs file with
  | None => inl (BRead file)
  | Some s => inr {| svg := s; name := componentName file |}
  end.

(** An import specifier [n as a] of the Vue compiler's output, and its
    destructuring counterpart [n: a]: both names are non-empty and hold
    no blank, [','] or ['}']. *)
Definition item_char (c : ascii) : bool :=
  negb (is_ws c) && ch_neq ","%char c && ch_neq "}"%char c.
Definition item_ok (w : text) : bool := Nat.leb 1 (length w) && forallb item_char w.
Definition items_ok (items : list (text * text)) : bool :=
  forallb (fun p => item_ok (fst p) && item_ok (snd p)) items.
Definition as_item (p : text * text) : text := fst p ++ T " as " ++ snd p.
Definition colon_item (p : text * text) : text := fst p ++ T ": " ++ snd p.

(** [import { n1 as a1, n2 as a2 } from Qm Q] and
    [const { n1: a1, n2: a2 } = require(Qm Q)], with [Q] the double quote. *)
Definition import_stmt (items : list (text * text)) (m : text) : text :=
  T "import { " ++ join (T ", ") (map as_item items) ++ T " } from " ++ [dq] ++ m ++ [dq].
Definition require_stmt (items : list (text * text)) (m : text) : text :=
  T "const { " ++ join (T ", ") (map colon_item items) ++ T " } = require(" ++ [dq] ++ m ++ [dq] ++
  T ")".

(** A character of a module name: no double quote, no line terminator. *)
Definition module_char (c : ascii) : bool := ch_neq dq c && negb (is_line_term c).

(** An empty assets directory. *)
Definition fs_empty : fsys := {|
  assets := Some [];
  read_asset := fun _ => None;
  write_ok := fun _ => true;
|}.

End BuildExtraProps.

(** ** Commands and sample runs of the release script *)

Module ReleaseExtraProps.
Import Release Scenarios.

Definition branch_cmd : text := T "git branch --show-current".
Definition remote_cmd : text := T "git remote get-url origin".

(** The end of a remote URL after the repository name that
    [(?:\.git)?$] accepts with the lazy [([^\/]+?)] stopping right
    after the name: [.git], or nothing when the name itself does not end
    in [.git] after a first character. *)
Definition repo_suffix_ok (repo suf : text) : Prop :=
  suf = T ".git" \/ (suf = [] /\ forall x, x <> [] -> repo <> x ++ T ".git").

Definition with_exec (E : env) (ex : option text -> text -> text + text) : env := {|
  dry := dry E; positional := positional E; current_version := current_version E;
  workspace := workspace E; manifest_ok := manifest_ok E; exec := ex;
  remote_sha := remote_sha E; valid := valid E; inc := inc E; ans_remote := ans_remote E;
  ans_select := ans_select E; ans_custom := ans_custom E; ans_confirm := ans_confirm E;
  ans_changelog := ans_changelog E; changelog := changelog E; token := token E;
  release_ok := release_ok E; type_error := type_error E |}.

Definition with_manifests (E : env) (ok : text -> bool) : env := {|
  dry := dry E; positional := positional E; current_version := current_version E;
  workspace := workspace E; manifest_ok := ok; exec := exec E;
  remote_sha := remote_sha E; valid := valid E; inc := inc E; ans_remote := ans_remote E;
  ans_select := ans_select E; ans_custom := ans_custom E; ans_confirm := ans_confirm E;
  ans_changelog := ans_changelog E; changelog := changelog E; token := token E;
  release_ok := release_ok E; type_error := type_error E |}.

(** Run from a feature branch. *)
Definition env_feature_branch : env :=
  with_exec env_no_section (fun cwd cmd =>
    if text_eqb cmd branch_cmd then inl (T ("feature" ++ nl_str)) else sample_exec cwd cmd).

(** An [origin] given as an SSH URL. *)
Definition env_ssh_remote : env :=
  with_exec env_no_section (fun cwd cmd =>
    if text_eqb cmd remote_cmd then inl (T ("git@github.com:985563349/skill-icons.git" ++ nl_str))
    else sample_exec cwd cmd).

(** The registry already holds the version being published. *)
Definition env_publish_conflict : env :=
  with_exec env_no_section (fun cwd cmd =>
    if text_eqb cmd (publish_cmd [])
    then inr (T "npm ERR! You cannot publish over the previously published versions: 1.3.0.")
    else sample_exec cwd cmd).

(** The manifest of the [vue] package cannot be read. *)
Definition env_vue_manifest_broken : env :=
  with_manifests env_no_section (fun p => negb (text_eqb p (pkg_manifest (T "vue")))).

End ReleaseExtraProps.

(** * Proofs *)

(** ** The matcher *)

Module RegexFacts.
Import TextProps.

Lemma mt_cat {A : Type} r1 r2 s c (k : text -> caps -> option A) :
  mt (RCat r1 r2) s c k = mt r1 s c (fun s' c' => mt r2 s' c' k).
Proof. reflexivity. Qed.

Lemma mt_cat_some {A : Type} r1 r2 s c (k : text -> caps -> option A) v :
  mt r1 s c (fun s' c' => mt r2 s' c' k) = Some v -> mt (RCat r1 r2) s c k = Some v.
Proof. intro H. exact H. Qed.

Lemma mt_lit_some {A : Type} w s c (k : text -> caps -> option A) v :
  k s c = Some v -> mt (lit w) (w ++ s) c k = Some v.
Proof.
  revert k v. induction w as [|a w IH]; intros k v H; simpl; [exact H|].
  rewrite Ascii.eqb_refl. apply IH. exact H.
Qed.

Lemma mt_lit_none {A : Type} w s c (k : text -> caps -> option A) :
  prefixb w s = false -> mt (lit w) s c k = None.
Proof.
  revert s k. induction w as [|a w IH]; intros s k H; simpl in *; [discriminate H|].
  destruct s as [|b s]; [reflexivity|].
  destruct (Ascii.eqb a b); simpl in H; [apply IH; exact H | reflexivity].
Qed.

Lemma mt_chr_some {A : Type} a s c (k : text -> caps -> option A) v :
  k s c = Some v -> mt (RChr a) (a :: s) c k = Some v.
Proof. intro H. simpl. rewrite Ascii.eqb_refl. exact H. Qed.

Lemma mt_cls_some {A : Type} p a s c (k : text -> caps -> option A) v :
  p a = true -> k s c = Some v -> mt (RCls p) (a :: s) c k = Some v.
Proof. intros Hp H. simpl. rewrite Hp. exact H. Qed.

Lemma mt_grp_some {A : Type} n r s c (k : text -> caps -> option A) v :
  mt r s c (fun s' c' => k s' (set_cap n (firstn (length s - length s') s) c')) = Some v ->
  mt (RGrp n r) s c k = Some v.
Proof. intro H. exact H. Qed.

Lemma mt_eol_nil {A : Type} c (k : text -> caps -> option A) v :
  k [] c = Some v -> mt REol [] c k = Some v.
Proof. intro H. exact H. Qed.

Lemma run_len_app p w s : forallb p w = true -> run_len p (w ++ s) = length w + run_len p s.
Proof.
  induction w as [|a w IH]; intro H; simpl in *; [reflexivity|].
  apply andb_true_iff in H as [Ha Hw]. rewrite Ha, IH by exact Hw. reflexivity.
Qed.

Lemma run_len_le p s : run_len p s <= length s.
Proof. induction s as [|a s IH]; simpl; [lia|]. destruct (p a); simpl; lia. Qed.

Lemma rev_seq_last lo n :
  lo <= n -> rev (seq lo (S n - lo)) = n :: rev (seq lo (n - lo)).
Proof.
  intros H. replace (S n - lo) with (S (n - lo)) by lia.
  rewrite seq_S, rev_app_distr. simpl. f_equal. lia.
Qed.

(** A greedy repetition first tries the whole run of the class. *)
Lemma mt_greedy_some {A : Type} lo hi p w s c (k : text -> caps -> option A) v :
  forallb p w = true -> run_len p s = 0 -> Nat.leb lo (length w) = true ->
  match hi with Some h => Nat.leb (length w) h | None => true end = true ->
  k s c = Some v -> mt (RRep true lo hi p) (w ++ s) c k = Some v.
Proof.
  intros Hw Hs Hlo Hhi H. cbn [mt]. rewrite run_len_app, Hs, Nat.add_0_r by exact Hw.
  apply Nat.leb_le in Hlo. unfold rep_lens.
  replace (match hi with Some h => Nat.min h (length w) | None => length w end) with (length w).
  - rewrite rev_seq_last by exact Hlo. simpl. rewrite skipn_app, skipn_all, Nat.sub_diag. simpl.
    rewrite H. reflexivity.
  - destruct hi as [h|]; [|reflexivity]. apply Nat.leb_le in Hhi. lia.
Qed.

Lemma mt_greedy_end {A : Type} lo p w c (k : text -> caps -> option A) v :
  forallb p w = true -> Nat.leb lo (length w) = true ->
  k [] c = Some v -> mt (RRep true lo None p) w c k = Some v.
Proof.
  intros Hw Hlo H. rewrite <- (app_nil_r w). apply mt_greedy_some; auto.
Qed.

Lemma first_some_seq {A : Type} (f : nat -> option A) a m t v :
  a <= t < a + m -> (forall l, a <= l < t -> f l = None) -> f t = Some v ->
  first_some f (seq a m) = Some v.
Proof.
  revert a. induction m as [|m IH]; intros a Ht Hn Hv; [lia|]. simpl.
  destruct (Nat.eq_dec a t) as [->|Hne].
  - rewrite Hv. reflexivity.
  - rewrite Hn by lia. apply IH; [lia| |exact Hv]. intros l Hl. apply Hn. lia.
Qed.

(** A lazy repetition of any character stops at the first place where
    the rest matches. *)
Lemma mt_lazy_some {A : Type} G s c (k : text -> caps -> option A) v :
  (forall l, l < length G -> k (skipn l (G ++ s)) c = None) -> k s c = Some v ->
  mt (RRep false 0 None any_char) (G ++ s) c k = Some v.
Proof.
  intros Hn H. cbn [mt]. unfold rep_lens. rewrite Nat.sub_0_r.
  assert (Hall : forallb any_char (G ++ s) = true) by (apply forallb_forall; reflexivity).
  assert (Hr : run_len any_char (G ++ s) = length (G ++ s)).
  { pose proof (run_len_app any_char (G ++ s) [] Hall) as X. rewrite app_nil_r in X.
    simpl in X. lia. }
  rewrite Hr.
  apply (first_some_seq _ 0 _ (length G)).
  - rewrite length_app. lia.
  - intros l Hl. apply Hn. lia.
  - rewrite skipn_app, skipn_all, Nat.sub_diag. simpl. exact H.
Qed.

Lemma prefixb_app_long w x y : length w <= length x -> prefixb w (x ++ y) = prefixb w x.
Proof.
  revert x. induction w as [|a w IH]; intros x Hl; [reflexivity|].
  destruct x as [|b x]; simpl in *; [lia|]. rewrite IH by lia. reflexivity.
Qed.

Lemma free_of_spec w G s l :
  free_of w G = true -> l < length G -> prefixb w (skipn l (G ++ w ++ s)) = false.
Proof.
  intros Hf Hl. unfold free_of in Hf. rewrite forallb_forall in Hf.
  specialize (Hf l (proj2 (in_seq _ _ _) (conj (Nat.le_0_l l) Hl))).
  apply negb_true_iff in Hf.
  rewrite app_assoc, skipn_app.
  replace (l - length (G ++ w)) with 0 by (rewrite length_app; lia). simpl skipn at 2.
  rewrite prefixb_app_long; [exact Hf|]. rewrite length_skipn, length_app. lia.
Qed.

Lemma firstn_app_exact (x y : text) : firstn (length (x ++ y) - length y) (x ++ y) = x.
Proof.
  rewrite length_app, Nat.add_sub. rewrite firstn_app, firstn_all, Nat.sub_diag. simpl.
  apply app_nil_r.
Qed.

(** *** Scanning *)

Lemma no_match_upto_spec r n s :
  no_match_upto r n s = true -> forall i, i < n -> exec r (skipn i s) = None.
Proof.
  unfold no_match_upto. rewrite forallb_forall. intros H i Hi.
  specialize (H i (proj2 (in_seq _ _ _) (conj (Nat.le_0_l i) Hi))).
  destruct (exec r (skipn i s)); [discriminate H | reflexivity].
Qed.

Lemma sub_eq r f s :
  sub r f s =
  match exec r s with
  | Some (s', c) => f (firstn (length s - length s') s) c ++ s'
  | None => match s with [] => [] | a :: t => a :: sub r f t end
  end.
Proof. destruct s; reflexivity. Qed.

Lemma gsub_go_eq fu r f s :
  gsub_go (S fu) r f s =
  match exec r s with
  | Some (s', c) =>
      let m := firstn (length s - length s') s in
      f m c ++
        match m with
        | [] => match s with [] => [] | a :: t => a :: gsub_go fu r f t end
        | _ :: _ => gsub_go fu r f s'
        end
  | None => match s with [] => [] | a :: t => a :: gsub_go fu r f t end
  end.
Proof. reflexivity. Qed.

(** Where no match starts in [P], [sub] keeps [P]. *)
Lemma sub_skip r f P s :
  (forall i, i < length P -> exec r (skipn i (P ++ s)) = None) ->
  sub r f (P ++ s) = P ++ sub r f s.
Proof.
  induction P as [|a P IH]; intros H; [reflexivity|].
  pose proof (H 0 ltac:(simpl; lia)) as H0. cbn [skipn app] in H0.
  rewrite sub_eq. simpl app. rewrite H0. f_equal. apply IH.
  intros i Hi. apply (H (S i)). simpl. lia.
Qed.

Lemma gsub_go_skip fuel r f P s :
  length P < fuel ->
  (forall i, i < length P -> exec r (skipn i (P ++ s)) = None) ->
  gsub_go fuel r f (P ++ s) = P ++ gsub_go (fuel - length P) r f s.
Proof.
  revert fuel. induction P as [|a P IH]; intros fuel Hf H.
  - simpl. rewrite Nat.sub_0_r. reflexivity.
  - destruct fuel as [|fu]; [simpl in Hf; lia|].
    pose proof (H 0 ltac:(simpl; lia)) as H0. cbn [skipn app] in H0.
    rewrite gsub_go_eq. simpl app. rewrite H0. f_equal.
    apply IH; [simpl in Hf; lia|].
    intros i Hi. apply (H (S i)). simpl. lia.
Qed.

(** With no match anywhere, [gsub] is the identity. *)
Lemma gsub_go_none fuel r f s :
  length s < fuel ->
  (forall i, i < S (length s) -> exec r (skipn i s) = None) ->
  gsub_go fuel r f s = s.
Proof.
  revert fuel. induction s as [|a s IH]; intros fuel Hf H;
    (destruct fuel as [|fu]; [simpl in Hf; lia|]); rewrite gsub_go_eq;
    (pose proof (H 0 ltac:(lia)) as H0; cbn [skipn] in H0; rewrite H0).
  - reflexivity.
  - f_equal. apply IH; [simpl in Hf; lia|]. intros i Hi. apply (H (S i)). simpl. lia.
Qed.

Lemma gsub_rest_go_none fuel r f s :
  length s < fuel ->
  (forall i, i < S (length s) -> exec r (skipn i s) = None) ->
  gsub_rest_go fuel r f s = s.
Proof.
  revert fuel. induction s as [|a s IH]; intros fuel Hf H;
    (destruct fuel as [|fu]; [simpl in Hf; lia|]); cbn [gsub_rest_go];
    (pose proof (H 0 ltac:(lia)) as H0; cbn [skipn] in H0; rewrite H0).
  - reflexivity.
  - f_equal. apply IH; [simpl in Hf; lia|]. intros i Hi. apply (H (S i)). simpl. lia.
Qed.

(** An optional character, [c?], takes the character when it is there. *)
Lemma mt_opt_some {A : Type} p a s c (k : text -> caps -> option A) v :
  p a = true -> k s c = Some v -> mt (RRep true 0 (Some 1) p) (a :: s) c k = Some v.
Proof. intros Hp H. cbn [mt run_len]. rewrite Hp. reflexivity + (cbn; rewrite H; reflexivity). Qed.

Lemma starts_non_ws_run s : starts_non_ws s = true -> run_len is_ws s = 0.
Proof. destruct s as [|a s]; simpl; [reflexivity|]. destruct (is_ws a); [discriminate|reflexivity]. Qed.

Lemma starts_non_ws_app s t :
  Nat.leb 1 (length s) = true -> starts_non_ws s = true -> starts_non_ws (s ++ t) = true.
Proof. destruct s as [|a s]; [discriminate|]. intros _ H. exact H. Qed.

(** *** Backtracking and occurrences *)

Lemma prefixb_stop c w X Y :
  forallb (ch_neq c) w = true -> prefixb w (X ++ c :: Y) = prefixb w X.
Proof.
  revert w. induction X as [|b X IH]; intros w Hw; destruct w as [|d w]; try reflexivity.
  - simpl in *. apply andb_true_iff in Hw as [Hd _]. unfold ch_neq in Hd.
    destruct (Ascii.eqb_spec d c) as [->|]; [rewrite Ascii.eqb_refl in Hd; discriminate|reflexivity].
  - simpl in *. apply andb_true_iff in Hw as [_ Hw]. rewrite IH by exact Hw. reflexivity.
Qed.

Lemma skipn_add_app (X Y : text) q : skipn (length X + q) (X ++ Y) = skipn q Y.
Proof. induction X as [|a X IH]; [reflexivity|]. simpl. exact IH. Qed.

Lemma run_len_stop p c X Y : p c = false -> run_len p (X ++ c :: Y) <= length X.
Proof.
  intro Hc. induction X as [|a X IH]; simpl; [rewrite Hc; lia|]. destruct (p a); simpl; lia.
Qed.

Lemma first_some_none {A B : Type} (f : A -> option B) l :
  (forall x, In x l -> f x = None) -> first_some f l = None.
Proof.
  induction l as [|a l IH]; intro H; [reflexivity|]. simpl.
  rewrite H by (left; reflexivity). apply IH. intros x Hx. apply H. right; exact Hx.
Qed.

Lemma first_some_rev_seq {A : Type} (f : nat -> option A) t m v :
  t < m -> (forall l, t < l < m -> f l = None) -> f t = Some v ->
  first_some f (rev (seq 0 m)) = Some v.
Proof.
  induction m as [|m IH]; intros Ht Hn Hv; [lia|].
  rewrite seq_S, rev_app_distr. simpl.
  destruct (Nat.eq_dec t m) as [->|Hne].
  - rewrite Hv. reflexivity.
  - rewrite Hn by lia. apply IH; [lia | | exact Hv]. intros l Hl. apply Hn. lia.
Qed.

Lemma mt_greedy_back {A : Type} p x s c (k : text -> caps -> option A) v :
  forallb p x = true ->
  (forall l, length x < l <= length x + run_len p s -> k (skipn l (x ++ s)) c = None) ->
  k s c = Some v -> mt (RRep true 0 None p) (x ++ s) c k = Some v.
Proof.
  intros Hx Hn H. cbn [mt]. rewrite run_len_app by exact Hx. unfold rep_lens.
  rewrite Nat.sub_0_r. apply (first_some_rev_seq _ (length x)).
  - lia.
  - intros l Hl. apply Hn. lia.
  - rewrite skipn_app, skipn_all, Nat.sub_diag. exact H.
Qed.

Lemma mt_lit_app {A : Type} w1 w2 s c (k : text -> caps -> option A) :
  mt (lit (w1 ++ w2)) s c k = mt (lit w1) s c (fun s' c' => mt (lit w2) s' c' k).
Proof.
  revert s k. induction w1 as [|a w1 IH]; intros s k; [reflexivity|].
  simpl. destruct s as [|b s]; [reflexivity|].
  destruct (Ascii.eqb a b); [apply IH | reflexivity].
Qed.

Lemma absent_prefix w s i :
  absent w s = true -> w <> [] -> i <= length s -> prefixb w (skipn i s) = false.
Proof.
  intros Ha Hw Hi. destruct (Nat.eq_dec i (length s)) as [->|Hne].
  - rewrite skipn_all. destruct w; [congruence | reflexivity].
  - unfold absent in Ha. rewrite forallb_forall in Ha.
    apply negb_true_iff, Ha, in_seq. lia.
Qed.

Lemma absent_upto w s c Y i :
  absent w s = true -> forallb (ch_neq c) w = true -> w <> [] -> i <= length s ->
  prefixb w (skipn i (s ++ c :: Y)) = false.
Proof.
  intros Ha Hc Hw Hi. rewrite skipn_app. replace (i - length s) with 0 by lia.
  simpl skipn at 2. rewrite prefixb_stop by exact Hc. apply absent_prefix; assumption.
Qed.

Lemma prefixb_back w A B :
  length A <= length w -> prefixb w (A ++ B) = true -> prefixb A w = true.
Proof.
  revert w. induction A as [|a A IH]; intros w Hl H; [reflexivity|].
  destruct w as [|d w]; simpl in Hl; [lia|]. simpl in *.
  apply andb_true_iff in H as [Hd H]. rewrite Ascii.eqb_sym, Hd. apply IH; [lia | exact H].
Qed.

Lemma unbordered_spec w q Y :
  unbordered w = true -> q < length (tl w) -> prefixb w (skipn q (tl w ++ Y)) = false.
Proof.
  intros Hu Hq. unfold unbordered in Hu. rewrite forallb_forall in Hu.
  specialize (Hu q (proj2 (in_seq _ _ _) (conj (Nat.le_0_l q) Hq))).
  destruct (prefixb w (skipn q (tl w ++ Y))) eqn:E; [|reflexivity].
  rewrite skipn_app in E. replace (q - length (tl w)) with 0 in E by lia. simpl skipn at 2 in E.
  apply prefixb_back in E.
  - rewrite E in Hu. discriminate Hu.
  - rewrite length_skipn. destruct w; simpl; lia.
Qed.

End RegexFacts.

(** ** The two patterns of the [cjs] rewrite *)

Module BuildRegexFacts.
Import Build BuildProps TextProps RegexFacts.

(** [define_default_re] matches the whole statement, with the blanks after it. *)
Lemma exec_define_default G W rest :
  free_of (T "})") G = true -> all_ws W = true -> starts_non_ws rest = true ->
  exec define_default_re (define_default_stmt G W ++ rest) = Some (rest, []).
Proof.
  intros HG HW Hr. unfold exec, define_default_re, define_default_stmt. cbn [cats].
  repeat rewrite <- app_assoc.
  apply mt_cat_some, mt_lit_some.
  apply mt_cat_some, mt_greedy_some; [reflexivity..|].
  apply mt_cat_some. cbn [app]. apply mt_cls_some; [reflexivity|].
  apply mt_cat_some, mt_lit_some.
  apply mt_cat_some, mt_cls_some; [reflexivity|].
  apply mt_cat_some, mt_chr_some.
  apply mt_cat_some, (mt_greedy_some _ _ _ [" "%char]); [reflexivity..|].
  apply mt_cat_some, mt_chr_some.
  apply mt_cat_some, mt_lazy_some.
  - intros l Hl. cbv beta. rewrite mt_cat. apply mt_lit_none. apply free_of_spec; assumption.
  - cbv beta. apply mt_cat_some, mt_lit_some.
    apply mt_cat_some. change (T ";" ++ W ++ rest) with (";"%char :: W ++ rest).
    apply mt_opt_some; [reflexivity|].
    apply mt_greedy_some; [exact HW | apply starts_non_ws_run; exact Hr | reflexivity..].
Qed.

(** [default_assign_re] matches a final [const _default = e;] and captures [e]. *)
Lemma exec_default_assign e W :
  Nat.leb 1 (length e) = true -> forallb (ch_neq ";"%char) e = true ->
  starts_non_ws e = true -> all_ws W = true ->
  exec default_assign_re (default_assign_stmt e W) = Some ([], [(1, e)]).
Proof.
  intros He1 He2 He3 HW. unfold exec, default_assign_re, default_assign_stmt. cbn [cats].
  apply mt_cat_some, mt_lit_some.
  apply mt_cat_some, mt_greedy_some; [reflexivity..|].
  apply mt_cat_some, mt_lit_some.
  apply mt_cat_some, mt_greedy_some; [reflexivity..|].
  apply mt_cat_some. change (T "=" ++ ?x) with ("="%char :: x). apply mt_chr_some.
  apply mt_cat_some, mt_greedy_some; [reflexivity | apply starts_non_ws_run, starts_non_ws_app; assumption | reflexivity..|].
  apply mt_cat_some, mt_grp_some, mt_greedy_some; [exact He2 | reflexivity | exact He1 | reflexivity |].
  cbv beta. rewrite firstn_app_exact.
  apply mt_cat_some. change (T ";" ++ W) with (";"%char :: W).
  apply mt_opt_some; [reflexivity|].
  apply mt_cat_some, mt_greedy_end; [exact HW | reflexivity |].
  reflexivity.
Qed.

(** *** The [svg] attribute patterns *)

(** [\s+ATTR=Q...] fails where no [ATTR=Q] follows the blanks. *)
Lemma mt_ws_lit_none {A : Type} w r u c (k : text -> caps -> option A) :
  (forall j, 1 <= j <= run_len is_ws u -> prefixb w (skipn j u) = false) ->
  mt (RCat ws_plus (RCat (lit w) r)) u c k = None.
Proof.
  intro H. unfold ws_plus. rewrite mt_cat. cbn [mt]. apply first_some_none.
  intros j Hj. unfold rep_lens in Hj. apply in_rev, in_seq in Hj.
  cbv beta. try rewrite mt_cat. apply mt_lit_none, H. lia.
Qed.

(** Each character of the run that [run_len p] counts satisfies [p]. *)
Lemma run_len_nth p s i d : i < run_len p s -> p (nth i s d) = true.
Proof.
  revert i. induction s as [|a s IH]; intros i H; simpl in H; [lia|].
  destruct (p a) eqn:Ea; [|lia]. destruct i as [|i]; [exact Ea|]. apply IH. lia.
Qed.

(** Past a prefix [w] without white space, a run of blanks ends before
    [w] only where [no_ws_then] allows it. *)
Lemma ws_run_no_lit w V z d j :
  forallb (fun c => negb (is_ws c)) w = true ->
  forallb (ch_neq ">"%char) w = true ->
  no_ws_then w V = true ->
  1 <= j <= run_len is_ws (skipn d (w ++ V) ++ ">"%char :: z) ->
  prefixb w (skipn j (skipn d (w ++ V) ++ ">"%char :: z)) = false.
Proof.
  intros Hw Hg Hn Hj.
  set (A := skipn d (w ++ V)) in *.
  pose proof (run_len_stop is_ws ">"%char A z eq_refl) as B.
  assert (Hj1 : j - 1 < run_len is_ws (A ++ ">"%char :: z)) by lia.
  pose proof (run_len_nth is_ws (A ++ ">"%char :: z) (j - 1) " "%char Hj1) as Hc.
  rewrite app_nth1 in Hc by lia.
  rewrite skipn_app. replace (j - length A) with 0 by lia.
  assert (B' : j <= length A) by lia. unfold A in B'. rewrite length_skipn in B'.
  unfold A in Hc. rewrite nth_skipn in Hc. clear B Hj1.
  simpl skipn at 2. rewrite prefixb_stop by exact Hg. unfold A. rewrite skipn_skipn.
  destruct (Nat.lt_ge_cases (d + (j - 1)) (length w)) as [Hlt|Hge].
  - exfalso. rewrite app_nth1 in Hc by exact Hlt.
    rewrite forallb_forall in Hw. specialize (Hw _ (nth_In w " "%char Hlt)). rewrite Hc in Hw. discriminate Hw.
  - rewrite app_nth2 in Hc by exact Hge.
    rewrite length_app in B'.
    set (i := d + (j - 1) - length w) in *.
    replace (j + d) with (length w + S i) by (unfold i; lia).
    rewrite skipn_add_app.
    unfold no_ws_then in Hn. rewrite forallb_forall in Hn.
    assert (Hi : i < length V) by (unfold i; lia).
  specialize (Hn i (proj2 (in_seq _ _ _) (conj (Nat.le_0_l i) Hi))).
    rewrite Hc in Hn. exact (proj1 (negb_true_iff _) Hn).
Qed.

(** The greedy [[^>]*] group stops before the last [\s+ATTR=Q] of the tag. *)
Lemma exec_svg_attr x s attr v y z :
  Nat.leb 1 (length attr) = true ->
  forallb (fun c => negb (is_ws c)) (attr ++ T "=" ++ [dq]) = true ->
  forallb (ch_neq ">"%char) (attr ++ T "=" ++ [dq]) = true ->
  forallb (ch_neq ">"%char) (x ++ v ++ y) = true ->
  is_ws s = true -> forallb (ch_neq dq) v = true ->
  no_ws_then (attr ++ T "=" ++ [dq]) (v ++ [dq] ++ y) = true ->
  exec (svg_attr_re attr) (svg_tag x s attr v y ++ z) = Some (z, set_cap 2 y (set_cap 1 x [])).
Proof.
  intros Hl Hnw Hga Hg Hs Hq Hnt.
  rewrite !forallb_app in Hg. apply andb_prop in Hg as [Hx Hg]. apply andb_prop in Hg as [Hv Hy].
  assert (Hsg : ch_neq ">"%char s = true)
    by (destruct (ch_neq ">"%char s) eqn:E; [reflexivity|];
        unfold ch_neq in E; apply negb_false_iff, Ascii.eqb_eq in E; subst s; discriminate Hs).
  assert (E : svg_tag x s attr v y ++ z =
              T "<svg" ++ x ++ s :: ((attr ++ T "=" ++ [dq]) ++ (v ++ [dq] ++ y)) ++ ">"%char :: z)
    by (unfold svg_tag; rewrite <- !app_assoc; reflexivity).
  rewrite E. unfold exec, svg_attr_re. cbn [cats].
  apply mt_cat_some, mt_lit_some.
  apply mt_cat_some, mt_grp_some, mt_greedy_back; [exact Hx | |].
  - intros l Hl'. cbv beta. apply mt_ws_lit_none. intros j Hj.
    set (W := attr ++ T "=" ++ [dq]) in *. set (V := v ++ [dq] ++ y) in *.
    assert (Hle : l - length x - 1 <= length (W ++ V)).
    { pose proof (run_len_stop (ch_neq ">"%char) ">"%char (s :: W ++ V) z eq_refl) as B.
      cbn [length app] in B. lia. }
    replace (x ++ s :: (W ++ V) ++ ">"%char :: z) with ((x ++ [s]) ++ (W ++ V) ++ ">"%char :: z) in Hj |- *
      by (rewrite <- app_assoc; reflexivity).
    replace l with (length (x ++ [s]) + (l - length x - 1)) in Hj |- * by (rewrite length_app; simpl; lia).
    rewrite skipn_add_app in Hj |- *. rewrite skipn_app in Hj |- *.
    replace (l - length x - 1 - length (W ++ V)) with 0 in Hj |- * by lia. simpl skipn at 2 in Hj. simpl skipn at 2.
    apply ws_run_no_lit; [exact Hnw | exact Hga | exact Hnt | exact Hj].
  - cbv beta. rewrite firstn_app_exact.
    apply mt_cat_some. unfold ws_plus. change (s :: ?r) with ([s] ++ r).
    apply mt_greedy_some; [simpl; rewrite Hs; reflexivity | | reflexivity | reflexivity |].
    { destruct attr as [|a0 rt]; [discriminate Hl|]. cbn in Hnw |- *.
      destruct (is_ws a0); [discriminate Hnw|reflexivity]. }
    apply mt_cat_some. rewrite mt_lit_app. rewrite <- !app_assoc. apply mt_lit_some. cbv beta.
    rewrite mt_lit_app. apply mt_lit_some. cbv beta. apply mt_lit_some.
    apply mt_cat_some, mt_greedy_some; [exact Hq | reflexivity..|].
    apply mt_cat_some. change ([dq] ++ ?r) with (dq :: r). apply mt_chr_some.
    apply mt_cat_some, mt_grp_some, mt_greedy_some; [exact Hy | reflexivity..|].
    cbv beta. rewrite firstn_app_exact.
    change (T ">" ++ z) with (">"%char :: z). apply mt_chr_some. reflexivity.
Qed.

(** In markup with one [svg] tag, the pass on [ATTR] rewrites its value,
    and the white-space character before it becomes a space. *)
Lemma gsub_svg_attr pre x s attr v y body :
  Nat.leb 1 (length attr) = true ->
  forallb (fun c => negb (is_ws c)) (attr ++ T "=" ++ [dq]) = true ->
  forallb (ch_neq ">"%char) (attr ++ T "=" ++ [dq]) = true ->
  free_of (T "<svg") pre = true -> absent (T "<svg") body = true ->
  forallb (ch_neq ">"%char) (x ++ v ++ y) = true -> is_ws s = true ->
  forallb (ch_neq dq) v = true ->
  no_ws_then (attr ++ T "=" ++ [dq]) (v ++ [dq] ++ y) = true ->
  gsub (svg_attr_re attr) (svg_attr_repl attr) (pre ++ svg_tag x s attr v y ++ body) =
  pre ++ svg_tag x " "%char attr (T "1em") y ++ body.
Proof.
  intros Hl Hnw Hga Hpre Hbody Hg Hs Hq Hnt.
  assert (Hnb : forall i, i < S (length body) -> exec (svg_attr_re attr) (skipn i body) = None).
  { intros i Hi. unfold exec, svg_attr_re. cbn [cats]. rewrite mt_cat.
    apply mt_lit_none, absent_prefix; [exact Hbody | discriminate | lia]. }
  unfold gsub.
  rewrite (gsub_go_skip _ _ _ pre (svg_tag x s attr v y ++ body)).
  2:{ rewrite length_app. lia. }
  2:{ intros i Hi. unfold svg_tag. rewrite <- app_assoc. unfold exec, svg_attr_re. cbn [cats].
      rewrite mt_cat. apply mt_lit_none, free_of_spec; assumption. }
  replace (S (length (pre ++ svg_tag x s attr v y ++ body)) - length pre)
    with (S (length (svg_tag x s attr v y ++ body))) by (rewrite !length_app; lia).
  rewrite gsub_go_eq, exec_svg_attr by assumption.
  cbv zeta. rewrite firstn_app_exact.
  assert (Hc : exists a t, svg_tag x s attr v y = a :: t) by (eexists _, _; reflexivity).
  destruct Hc as (a & t & Hc). rewrite Hc. cbv beta iota.
  rewrite (gsub_go_none _ _ _ body); [| rewrite length_app; simpl; lia | exact Hnb].
  reflexivity.
Qed.

End BuildRegexFacts.

(** ** Component names *)

Module NamingFacts.
Import TextProps RegexFacts Camel NamingProps.

Ltac by_chars := intros [[] [] [] [] [] [] [] []]; vm_compute; intros; first [reflexivity | discriminate].

Lemma lower_not_sep c : is_lower c = true -> is_sep c = false. Proof. revert c. by_chars. Qed.
Lemma lower_not_ws c : is_lower c = true -> is_ws c = false. Proof. revert c. by_chars. Qed.
Lemma lower_not_upper c : is_lower c = true -> is_upper c = false. Proof. revert c. by_chars. Qed.
Lemma lower_not_digit c : is_lower c = true -> is_digit c = false. Proof. revert c. by_chars. Qed.
Lemma lower_ident c : is_lower c = true -> is_ident c = true. Proof. revert c. by_chars. Qed.
Lemma up_not_sep c : is_lower c = true -> is_sep (up c) = false. Proof. revert c. by_chars. Qed.
Lemma up_not_digit c : is_lower c = true -> is_digit (up c) = false. Proof. revert c. by_chars. Qed.
Lemma name_sep_sep c : name_sep c = true -> is_sep c = true. Proof. revert c. by_chars. Qed.
Lemma name_sep_not_ws c : name_sep c = true -> is_ws c = false. Proof. revert c. by_chars. Qed.
Lemma name_sep_not_upper c : name_sep c = true -> is_upper c = false. Proof. revert c. by_chars. Qed.
Lemma name_sep_not_digit c : name_sep c = true -> is_digit c = false. Proof. revert c. by_chars. Qed.

Lemma mt_lit_inv {A : Type} w s c (k : text -> caps -> option A) v :
  mt (lit w) s c k = Some v -> exists s', s = w ++ s' /\ k s' c = Some v.
Proof.
  revert s. induction w as [|a w IH]; intros s H; [exists s; split; [reflexivity | exact H]|].
  simpl in H. destruct s as [|b s]; [discriminate H|].
  destruct (Ascii.eqb_spec a b) as [<-|]; [|discriminate H].
  destruct (IH s H) as (s' & -> & Hk). exists s'. split; [reflexivity | exact Hk].
Qed.

Lemma exec_svg_ext_inv s r : exec svg_ext s = Some r -> s = T ".svg".
Proof.
  unfold exec, svg_ext. rewrite mt_cat. intro H. apply mt_lit_inv in H as (s' & -> & H).
  destruct s'; [apply app_nil_r | discriminate H].
Qed.

(** Only the final [.svg] is removed. *)
Lemma componentName_svg name : componentName (name ++ T ".svg") = camelcase_pascal name.
Proof.
  unfold componentName. rewrite sub_skip.
  - change (sub svg_ext (fun _ _ => []) (T ".svg")) with (@nil ascii). rewrite app_nil_r. reflexivity.
  - intros i Hi. destruct (exec svg_ext (skipn i (name ++ T ".svg"))) as [r|] eqn:E; [|reflexivity].
    apply exec_svg_ext_inv in E. apply (f_equal (@length ascii)) in E.
    rewrite length_skipn, length_app in E. simpl in E. lia.
Qed.

Lemma drop_ws_id s : forallb (fun c => negb (is_ws c)) s = true -> drop_ws s = s.
Proof.
  destruct s as [|c s]; intro H; [reflexivity|]. simpl in *.
  apply andb_prop in H as [Hc _]. apply negb_true_iff in Hc. rewrite Hc. reflexivity.
Qed.

Lemma trim_id s : forallb (fun c => negb (is_ws c)) s = true -> trim s = s.
Proof.
  intro H. unfold trim. rewrite (drop_ws_id s H), drop_ws_id, rev_involutive; [reflexivity|].
  rewrite forallb_forall in *. intros x Hx. apply H, in_rev. exact Hx.
Qed.

Lemma to_lower_id s : forallb (fun c => negb (is_upper c)) s = true -> to_lower s = s.
Proof.
  induction s as [|c s IH]; intro H; [reflexivity|]. simpl in *.
  apply andb_prop in H as [Hc H]. apply negb_true_iff in Hc.
  unfold low at 1. rewrite Hc. f_equal. apply IH, H.
Qed.

Lemma run_len_none_skipn p s i :
  forallb (fun c => negb (p c)) s = true -> run_len p (skipn i s) = 0.
Proof.
  revert i. induction s as [|c s IH]; intros i H; [destruct i; reflexivity|].
  simpl in H. apply andb_prop in H as [Hc H]. apply negb_true_iff in Hc.
  destruct i as [|i]; simpl; [rewrite Hc; reflexivity | apply IH, H].
Qed.

Lemma exec_rep1_none p r s : run_len p s = 0 -> exec (RCat (RRep true 1 None p) r) s = None.
Proof. intro H. unfold exec. cbn [mt]. rewrite H. reflexivity. Qed.

Lemma gsub_rep1_none fuel p r f s :
  forallb (fun c => negb (p c)) s = true -> length s < fuel ->
  gsub_go fuel (RCat (RRep true 1 None p) r) f s = s.
Proof.
  intros H Hf. apply gsub_go_none; [exact Hf|]. intros i _.
  apply exec_rep1_none, run_len_none_skipn, H.
Qed.

Lemma gsub_rest_rep1_none fuel p r f s :
  forallb (fun c => negb (p c)) s = true -> length s < fuel ->
  gsub_rest_go fuel (RCat (RRep true 1 None p) r) f s = s.
Proof.
  intros H Hf. apply gsub_rest_go_none; [exact Hf|]. intros i _.
  apply exec_rep1_none, run_len_none_skipn, H.
Qed.

Lemma gsub_go_step fu r f m s' c :
  exec r (m ++ s') = Some (s', c) -> m <> [] ->
  gsub_go (S fu) r f (m ++ s') = f m c ++ gsub_go fu r f s'.
Proof.
  intros H Hm. rewrite gsub_go_eq, H. cbv zeta. rewrite firstn_app_exact.
  destruct m; [congruence | reflexivity].
Qed.

Lemma mt_alt_left {A : Type} r1 r2 s c (k : text -> caps -> option A) v :
  mt r1 s c k = Some v -> mt (RAlt r1 r2) s c k = Some v.
Proof. intro H. simpl. rewrite H. reflexivity. Qed.

Lemma sep_run_sep s : sep_run s = true -> forallb is_sep s = true.
Proof.
  intro H. apply andb_prop in H as [_ H]. rewrite forallb_forall in *.
  intros x Hx. apply name_sep_sep, H, Hx.
Qed.

Lemma exec_sai sp c X :
  sep_run sp = true -> is_lower c = true ->
  exec SEPARATORS_AND_IDENTIFIER (sp ++ c :: X) = Some (X, set_cap 1 [c] []).
Proof.
  intros Hs Hc. unfold exec, SEPARATORS_AND_IDENTIFIER, SEPARATORS, IDENTIFIER.
  apply mt_cat_some, mt_greedy_some.
  - apply sep_run_sep, Hs.
  - simpl. rewrite lower_not_sep by exact Hc. reflexivity.
  - apply andb_prop in Hs as [Hs _]. exact Hs.
  - reflexivity.
  - apply mt_grp_some, mt_alt_left, mt_cls_some; [apply lower_ident, Hc|].
    change (c :: X) with ([c] ++ X). rewrite firstn_app_exact. reflexivity.
Qed.

Lemma run_len_prefix_zero p u R i :
  forallb (fun c => negb (p c)) u = true -> i < length u -> run_len p (skipn i (u ++ R)) = 0.
Proof.
  revert i. induction u as [|c u IH]; intros i H Hi; simpl in Hi; [lia|].
  simpl in H. apply andb_prop in H as [Hc H]. apply negb_true_iff in Hc.
  destruct i as [|i]; simpl; [rewrite Hc; reflexivity | apply IH; [exact H | lia]].
Qed.

Lemma lower_no_sep w : forallb is_lower w = true -> forallb (fun c => negb (is_sep c)) w = true.
Proof.
  rewrite !forallb_forall. intros H x Hx. rewrite lower_not_sep by (apply H, Hx). reflexivity.
Qed.

Lemma gsub_pairs ps fuel :
  words_ok ps = true ->
  length (concat (map (fun p => fst p ++ snd p) ps)) < fuel ->
  gsub_go fuel SEPARATORS_AND_IDENTIFIER (fun _ c => to_upper (get_cap 1 c))
    (concat (map (fun p => fst p ++ snd p) ps)) = concat (map (fun p => capitalize (snd p)) ps).
Proof.
  revert fuel. induction ps as [|[sp w] ps IH]; intros fuel H Hf.
  - destruct fuel; [simpl in Hf; lia | reflexivity].
  - simpl in H. apply andb_prop in H as [H Hps]. apply andb_prop in H as [Hsp Hw].
    apply andb_prop in Hw as [Hw1 Hw]. destruct w as [|c wr]; [discriminate Hw1|].
    simpl in Hw. apply andb_prop in Hw as [Hc Hwr].
    destruct fuel as [|fu]; [simpl in Hf; lia|].
    cbn [map concat fst snd] in Hf |- *.
    set (REST := concat (map (fun p => fst p ++ snd p) ps)) in *.
    replace ((sp ++ c :: wr) ++ REST) with ((sp ++ [c]) ++ (wr ++ REST))
      by (rewrite <- !app_assoc; reflexivity).
    rewrite (gsub_go_step _ _ _ _ _ (set_cap 1 [c] [])).
    + cbn [get_cap Nat.eqb set_cap to_upper map].
      rewrite gsub_go_skip.
      * cbn [capitalize]. rewrite (IH (fu - length wr)); [reflexivity | exact Hps |].
        rewrite !length_app in Hf. simpl in Hf. fold REST. lia.
      * rewrite !length_app in Hf. simpl in Hf. lia.
      * intros i Hi. apply exec_rep1_none, run_len_prefix_zero; [apply lower_no_sep, Hwr | exact Hi].
    + rewrite <- app_assoc. apply exec_sai; assumption.
    + destruct sp; simpl; congruence.
Qed.

Lemma forallb_impl (p q : ascii -> bool) s :
  (forall c, p c = true -> q c = true) -> forallb p s = true -> forallb q s = true.
Proof. rewrite !forallb_forall. intros H Hs x Hx. apply H, Hs, Hx. Qed.

Lemma camelcase_pascal_lower s :
  forallb name_char s = true -> is_lower (hd " "%char s) = true ->
  camelcase_pascal s = post_process (capitalize s).
Proof.
  intros Hs Hh.
  assert (Hws : forallb (fun c => negb (is_ws c)) s = true).
  { apply (forallb_impl name_char); [|exact Hs]. intros c Hc. unfold name_char in Hc.
    apply orb_prop in Hc as [Hc|Hc]; [rewrite lower_not_ws | rewrite name_sep_not_ws]; auto. }
  assert (Hup : forallb (fun c => negb (is_upper c)) s = true).
  { apply (forallb_impl name_char); [|exact Hs]. intros c Hc. unfold name_char in Hc.
    apply orb_prop in Hc as [Hc|Hc]; [rewrite lower_not_upper | rewrite name_sep_not_upper]; auto. }
  unfold camelcase_pascal. rewrite trim_id by exact Hws.
  destruct s as [|c1 [|c2 r]]; [discriminate Hh| |].
  - simpl in Hh.
    assert (Hsr : search SEPARATORS [c1] = None).
    { unfold search, exec, SEPARATORS. cbn [mt run_len]. rewrite lower_not_sep by exact Hh.
      reflexivity. }
    rewrite Hsr. change (to_upper [c1]) with [up c1]. change (capitalize [c1]) with [up c1].
    unfold post_process, gsub_rest, gsub, SEPARATORS_AND_IDENTIFIER, NUMBERS_AND_IDENTIFIER, SEPARATORS.
    rewrite (gsub_rest_rep1_none _ is_digit), (gsub_rep1_none _ is_sep); [reflexivity | ..];
      try (simpl; lia); simpl; rewrite ?up_not_digit, ?up_not_sep by exact Hh; reflexivity.
  - simpl in Hh. cbv zeta. rewrite (to_lower_id (c1 :: c2 :: r)) by exact Hup.
    unfold text_eqb. destruct (list_eq_dec ascii_dec _ _) as [_|n]; [|congruence]. cbn [negb].
    unfold strip_leading, exec, SEPARATORS. cbn [mt run_len]. rewrite lower_not_sep by exact Hh.
    cbn [rep_lens seq rev first_some Nat.sub app]. rewrite to_lower_id by exact Hup. reflexivity.
Qed.

Lemma lower_name_char w : forallb is_lower w = true -> forallb name_char w = true.
Proof. apply forallb_impl. intros c Hc. unfold name_char. rewrite Hc. reflexivity. Qed.

Lemma capitalize_no_digit w :
  forallb is_lower w = true -> forallb (fun c => negb (is_digit c)) (capitalize w) = true.
Proof.
  destruct w as [|c w]; intro H; [reflexivity|]. simpl in *. apply andb_prop in H as [Hc H].
  rewrite up_not_digit by exact Hc. simpl. apply (forallb_impl is_lower); [|exact H].
  intros x Hx. rewrite lower_not_digit by exact Hx. reflexivity.
Qed.

Lemma words_name_char ps :
  words_ok ps = true -> forallb name_char (concat (map (fun p => fst p ++ snd p) ps)) = true.
Proof.
  induction ps as [|[sp w] ps IH]; intro H; [reflexivity|].
  cbn [words_ok forallb fst snd] in H. cbn [map concat fst snd].
  apply andb_prop in H as [H Hps]. apply andb_prop in H as [Hsp Hw].
  apply andb_prop in Hsp as [_ Hsp]. apply andb_prop in Hw as [_ Hw].
  rewrite !forallb_app, (IH Hps), (lower_name_char w Hw).
  rewrite (forallb_impl name_sep name_char); [reflexivity | | exact Hsp].
  intros c Hc. unfold name_char. rewrite Hc. apply orb_true_r.
Qed.

Lemma words_no_digit ps :
  words_ok ps = true ->
  forallb (fun c => negb (is_digit c)) (concat (map (fun p => capitalize (snd p)) ps)) = true.
Proof.
  induction ps as [|[sp w] ps IH]; intro H; [reflexivity|].
  cbn [words_ok forallb fst snd] in H. cbn [map concat fst snd].
  apply andb_prop in H as [H Hps]. apply andb_prop in H as [_ Hw].
  apply andb_prop in Hw as [_ Hw].
  rewrite forallb_app, (IH Hps), (capitalize_no_digit w Hw). reflexivity.
Qed.

Lemma componentName_words w0 ps :
  lower_word w0 = true -> words_ok ps = true ->
  componentName (join_words w0 ps ++ T ".svg") =
  capitalize w0 ++ concat (map (fun p => capitalize (snd p)) ps).
Proof.
  intros Hw0 Hps. rewrite componentName_svg.
  destruct w0 as [|c0 w0r]; [discriminate Hw0|].
  apply andb_prop in Hw0 as [_ Hw0]. simpl in Hw0. apply andb_prop in Hw0 as [Hc0 Hw0r].
  unfold join_words. rewrite camelcase_pascal_lower.
  2:{ rewrite forallb_app, words_name_char by exact Hps.
      rewrite (lower_name_char (c0 :: w0r)); [reflexivity|]. simpl. rewrite Hc0. exact Hw0r. }
  2:{ exact Hc0. }
  set (REST := concat (map (fun p => fst p ++ snd p) ps)).
  change (capitalize ((c0 :: w0r) ++ REST)) with ((up c0 :: w0r) ++ REST).
  unfold post_process, gsub_rest, NUMBERS_AND_IDENTIFIER.
  rewrite gsub_rest_rep1_none; [| | lia].
  2:{ rewrite forallb_app. cbn [forallb]. rewrite up_not_digit by exact Hc0.
      rewrite (forallb_impl is_lower); [| intros x Hx; rewrite lower_not_digit by exact Hx; reflexivity
                                        | exact Hw0r].
      rewrite (forallb_impl name_char); [reflexivity| |apply words_name_char, Hps].
      intros x Hx. unfold name_char in Hx. apply orb_prop in Hx as [Hx|Hx];
        [rewrite lower_not_digit | rewrite name_sep_not_digit]; auto. }
  unfold gsub.
  rewrite (gsub_go_skip _ _ _ (up c0 :: w0r) REST).
  2:{ rewrite length_app. lia. }
  2:{ intros i Hi. apply exec_rep1_none, run_len_prefix_zero; [|exact Hi].
      simpl. rewrite up_not_sep by exact Hc0. apply lower_no_sep, Hw0r. }
  unfold REST. rewrite gsub_pairs; [reflexivity | exact Hps | simpl length; rewrite ?length_app; simpl length; lia].
Qed.

Lemma before_last_dot_app X Y :
  before_last_dot Y = None -> before_last_dot (X ++ "."%char :: Y) = Some X.
Proof.
  intro HY. induction X as [|c X IH]; simpl.
  - rewrite HY. reflexivity.
  - rewrite IH. reflexivity.
Qed.

Lemma split_by_nonnil p s : split_by p s <> [].
Proof.
  destruct s as [|c s]; simpl; [discriminate|].
  destruct (p c); [discriminate|]. destruct (split_by p s); discriminate.
Qed.

Lemma split_by_word p w R :
  forallb (fun c => negb (p c)) w = true ->
  split_by p (w ++ R) = (w ++ hd [] (split_by p R)) :: tl (split_by p R).
Proof.
  induction w as [|c w IH]; intro H.
  - simpl. destruct (split_by p R) eqn:E; [exfalso; exact (split_by_nonnil p R E) | reflexivity].
  - simpl in H. apply andb_prop in H as [Hc H]. apply negb_true_iff in Hc.
    simpl. rewrite Hc, IH by exact H. reflexivity.
Qed.

Lemma lower_alnum c : is_lower c = true -> is_alnum c = true. Proof. revert c. by_chars. Qed.
Lemma name_sep_not_alnum c : name_sep c = true -> is_alnum c = false. Proof. revert c. by_chars. Qed.

Lemma filter_seps sp R :
  forallb name_sep sp = true ->
  filter (fun w => negb (text_eqb w [])) (split_by non_alnum (sp ++ R)) =
  filter (fun w => negb (text_eqb w [])) (split_by non_alnum R).
Proof.
  induction sp as [|c sp IH]; intro H; [reflexivity|].
  simpl in H. apply andb_prop in H as [Hc H].
  cbn [app split_by]. assert (Hn : non_alnum c = true) by (unfold non_alnum; rewrite name_sep_not_alnum by exact Hc; reflexivity).
  rewrite Hn.
  cbn [negb filter]. rewrite IH by exact H. reflexivity.
Qed.

Lemma lower_no_non_alnum w : forallb is_lower w = true -> forallb (fun c => negb (non_alnum c)) w = true.
Proof.
  apply forallb_impl. intros c Hc. unfold non_alnum. rewrite lower_alnum by exact Hc. reflexivity.
Qed.

Lemma split_words ps :
  words_ok ps = true ->
  hd [] (split_by non_alnum (concat (map (fun p => fst p ++ snd p) ps))) = [] /\
  filter (fun w => negb (text_eqb w []))
    (tl (split_by non_alnum (concat (map (fun p => fst p ++ snd p) ps)))) = map snd ps.
Proof.
  induction ps as [|[sp w] ps IH]; intro H; [split; reflexivity|].
  cbn [words_ok forallb fst snd] in H. apply andb_prop in H as [H Hps].
  apply andb_prop in H as [Hsp Hw]. apply andb_prop in Hsp as [Hsp1 Hsp].
  apply andb_prop in Hw as [Hw1 Hw]. destruct (IH Hps) as [IH1 IH2].
  destruct sp as [|s1 sp]; [discriminate Hsp1|]. simpl in Hsp. apply andb_prop in Hsp as [Hs1 Hsp].
  cbn [map concat fst snd]. rewrite <- app_assoc. cbn [app split_by].
  assert (Hn : non_alnum s1 = true) by (unfold non_alnum; rewrite name_sep_not_alnum by exact Hs1; reflexivity).
  rewrite Hn. cbn [hd tl]. split; [reflexivity|].
  rewrite filter_seps by exact Hsp. rewrite split_by_word by (apply lower_no_non_alnum, Hw).
  rewrite IH1, app_nil_r. cbn [filter].
  destruct w as [|c w]; [discriminate Hw1|]. replace (text_eqb (c :: w) []) with false
    by (unfold text_eqb; destruct list_eq_dec; congruence). cbn [negb].
  rewrite IH2. reflexivity.
Qed.

Lemma spec_componentName_words w0 ps :
  lower_word w0 = true -> words_ok ps = true ->
  spec_componentName (join_words w0 ps ++ T ".svg") =
  capitalize w0 ++ concat (map (fun p => capitalize (snd p)) ps).
Proof.
  intros Hw0 Hps. unfold spec_componentName, spec_strip_ext.
  change (T ".svg") with ("."%char :: T "svg"). rewrite before_last_dot_app by reflexivity.
  change (fun c => negb (is_alnum c)) with non_alnum.
  apply andb_prop in Hw0 as [Hw1 Hw0]. unfold join_words.
  rewrite split_by_word by (apply lower_no_non_alnum, Hw0).
  destruct (split_words ps Hps) as [H1 H2]. rewrite H1, app_nil_r. cbn [filter].
  destruct w0 as [|c w0]; [discriminate Hw1|]. replace (text_eqb (c :: w0) []) with false
    by (unfold text_eqb; destruct list_eq_dec; congruence). cbn [negb].
  rewrite H2. cbn [map concat]. rewrite map_map. reflexivity.
Qed.

End NamingFacts.


(** ** The release monad *)

Module ReleaseFacts.
Import Release ReleaseProps.

Lemma bind_inr {A B : Type} (m : M A) (f : A -> M B) st b st' :
  bind m f st = (inr b, st') ->
  exists a st1, m st = (inr a, st1) /\ f a st1 = (inr b, st').
Proof.
  unfold bind. destruct (m st) as [[e|a] st1]; intro H.
  - discriminate H.
  - eauto.
Qed.

Lemma bind_inl {A B : Type} (m : M A) (f : A -> M B) st e st' :
  bind m f st = (inl e, st') ->
  m st = (inl e, st') \/ exists a st1, m st = (inr a, st1) /\ f a st1 = (inl e, st').
Proof.
  unfold bind. destruct (m st) as [[e'|a] st1]; intro H.
  - inversion H; subst. left; reflexivity.
  - right; eauto.
Qed.


Lemma pres_ret P {A : Type} (a : A) : preserves P (ret a).
Proof. intros st H; exact H. Qed.

Lemma pres_throw P {A : Type} (e : rerr) : preserves P (@throw A e).
Proof. intros st H; exact H. Qed.

Lemma pres_bind P {A B : Type} (m : M A) (f : A -> M B) :
  preserves P m -> (forall a, preserves P (f a)) -> preserves P (bind m f).
Proof.
  intros Hm Hf st H. unfold bind.
  specialize (Hm st H). destruct (m st) as [[e|a] st1]; simpl in *; auto.
  apply Hf; exact Hm.
Qed.

Lemma pres_try P {A : Type} (m : M A) (h : rerr -> M A) :
  preserves P m -> (forall e, preserves P (h e)) -> preserves P (try_catch m h).
Proof.
  intros Hm Hh st H. unfold try_catch.
  specialize (Hm st H). destruct (m st) as [[e|a] st1]; simpl in *; auto.
  apply Hh; exact Hm.
Qed.

Lemma pres_emit P (ev : event) :
  (forall st, P st -> P {| updated := updated st; trace := trace st ++ [ev] |}) ->
  preserves P (emit ev).
Proof. intros Hev st H. exact (Hev st H). Qed.

Lemma pres_for_each P {A : Type} (xs : list A) (f : A -> M unit) :
  (forall x, preserves P (f x)) -> preserves P (for_each xs f).
Proof.
  intros Hf. induction xs as [|x xs IH]; simpl.
  - apply pres_ret.
  - apply pres_bind; [apply Hf | intros; exact IH].
Qed.

Ltac pres_go solve_emit :=
  repeat lazymatch goal with
  | |- preserves _ (bind _ _) => apply pres_bind; [| intro]
  | |- preserves _ (try_catch _ _) => apply pres_try; [| intro]
  | |- preserves _ (ret _) => apply pres_ret
  | |- preserves _ (throw _) => apply pres_throw
  | |- preserves _ (for_each _ _) => apply pres_for_each; intro
  | |- preserves _ (emit _) => apply pres_emit; solve_emit
  | |- preserves ?P (match true with true => ?a | false => _ end) => change (preserves P a)
  | |- preserves ?P (match false with true => _ | false => ?b end) => change (preserves P b)
  | |- preserves _ (let _ := _ in _) => cbv zeta
  | |- preserves _ (match ?x with _ => _ end) => destruct x
  | |- preserves _ _ => solve [eauto with pres_db]
  end.

Create HintDb pres_db.

Ltac unfold_script :=
  unfold main, main_release, main_prelude, publishGitHubRelease,
    publishPackages, publishPackage, updatePackagesVersion, updatePackageVersion,
    isInSyncWithRemote, select_version, isMainBranch, getRepoInfo,
    getLatestCommitHash, isWorkspaceClean, runIfNotDry, run, run_in, prompt.

(** *** The trace only grows *)


Lemma extends_refl st : extends st st.
Proof. exists []. rewrite app_nil_r. reflexivity. Qed.

Lemma extends_in st st' ev : extends st st' -> In ev (trace st) -> In ev (trace st').
Proof. intros [l ->] H. apply in_or_app. left; exact H. Qed.

Ltac emit_extends :=
  idtac; let st := fresh "st" in let l := fresh "l" in let H := fresh "H" in
  intros st [l H]; eexists; simpl; rewrite H, <- app_assoc; reflexivity.

Lemma pres_set_updated_extends st0 : preserves (extends st0) set_updated.
Proof. intros st H. exact H. Qed.

Lemma main_prelude_grows E st0 : preserves (extends st0) (main_prelude E).
Proof. unfold_script. pres_go emit_extends. Qed.

Lemma updatePackagesVersion_grows E v st0 : preserves (extends st0) (updatePackagesVersion E v).
Proof. unfold_script. pres_go emit_extends. Qed.

Lemma publishPackages_grows E v st0 : preserves (extends st0) (publishPackages E v).
Proof. unfold_script. pres_go emit_extends. Qed.

Lemma main_release_grows E v st0 : preserves (extends st0) (main_release E v).
Proof. unfold_script. pres_go emit_extends. Qed.

Lemma main_grows E st0 : preserves (extends st0) (main E).
Proof.
  unfold main. apply pres_bind; [apply main_prelude_grows | intros [v|]].
  - apply pres_bind; [apply updatePackagesVersion_grows | intros _].
    apply pres_bind; [apply pres_set_updated_extends | intros _].
    apply main_release_grows.
  - apply pres_ret.
Qed.

Lemma grows_in {A : Type} (m : M A) st ev :
  (forall st0, preserves (extends st0) m) -> In ev (trace st) -> In ev (trace (snd (m st))).
Proof.
  intros Hm H. apply (extends_in st); [| exact H].
  apply (Hm st st). apply extends_refl.
Qed.

(** *** The rollback flag *)

Ltac emit_flag := intros ? H; exact H.

Lemma main_prelude_flag E b : preserves (fun st => updated st = b) (main_prelude E).
Proof. unfold_script. pres_go emit_flag. Qed.

Lemma updatePackagesVersion_flag E v b : preserves (fun st => updated st = b) (updatePackagesVersion E v).
Proof. unfold_script. pres_go emit_flag. Qed.

(** *** Decomposing runs *)

Lemma bind_cases {A B : Type} (m : M A) (f : A -> M B) st r st' :
  bind m f st = (r, st') ->
  (exists e, m st = (inl e, st') /\ r = inl e) \/
  exists a st1, m st = (inr a, st1) /\ f a st1 = (r, st').
Proof.
  unfold bind. destruct (m st) as [[e|a] st1]; intro H.
  - inversion H; subst. left; eauto.
  - right; eauto.
Qed.

Lemma snd_eq {A : Type} (m : M A) st r st' : m st = (r, st') -> snd (m st) = st'.
Proof. intros H; rewrite H; reflexivity. Qed.

Lemma text_eqb_refl (a : text) : text_eqb a a = true.
Proof. unfold text_eqb. destruct (list_eq_dec ascii_dec a a); congruence. Qed.

Lemma text_eqb_true (a b : text) : text_eqb a b = true -> a = b.
Proof. unfold text_eqb. destruct (list_eq_dec ascii_dec a b); congruence. Qed.

(** A run of [main] that has set the flag went through the prelude and
    the version update. *)
Lemma main_flag_set E r st :
  main E init = (r, st) -> updated st = true ->
  exists tv st1 st2,
    main_prelude E init = (inr (Some tv), st1) /\
    updatePackagesVersion E tv st1 = (inr tt, st2) /\
    main_release E tv {| updated := true; trace := trace st2 |} = (r, st).
Proof.
  intros H Hu. unfold main in H.
  pose proof (main_prelude_flag E false init eq_refl) as Hf0.
  apply bind_cases in H as [[e [Hp ->]]|[o [st1 [Hp H]]]].
  - rewrite (snd_eq _ _ _ _ Hp) in Hf0. congruence.
  - rewrite (snd_eq _ _ _ _ Hp) in Hf0. destruct o as [tv|].
    + apply bind_cases in H as [[e [Hv ->]]|[u [st2 [Hv H]]]].
      * pose proof (updatePackagesVersion_flag E tv false st1 Hf0) as Hf1.
        rewrite (snd_eq _ _ _ _ Hv) in Hf1. congruence.
      * destruct u. exists tv, st1, st2. split; [exact Hp|]. split; [exact Hv|].
        apply bind_cases in H as [[e [Hs _]]|[u [st3 [Hs H]]]].
        -- discriminate Hs.
        -- unfold set_updated in Hs. inversion Hs; subst. exact H.
    + inversion H; subst. congruence.
Qed.

(** *** Version updates *)

Lemma upd_each_inr E v qs st st' :
  for_each qs (fun p => updatePackageVersion E (pkg_manifest p) v) st = (inr tt, st') ->
  forall q, In q qs -> manifest_ok E (pkg_manifest q) = true.
Proof.
  revert st. induction qs as [|q qs IH]; intros st H q' Hin; [destruct Hin|].
  simpl in H. apply bind_cases in H as [[e [_ He]]|[u [st1 [H1 H]]]]; [discriminate He|].
  destruct Hin as [<-|Hin].
  - unfold updatePackageVersion in H1. destruct (manifest_ok E (pkg_manifest q)); [reflexivity|discriminate H1].
  - exact (IH st1 H q' Hin).
Qed.

Lemma updatePackagesVersion_inr E v st st' :
  updatePackagesVersion E v st = (inr tt, st') ->
  forall p, In p (manifest_paths E) -> manifest_ok E p = true.
Proof.
  intros H p Hp. unfold updatePackagesVersion in H.
  apply bind_cases in H as [[e [_ He]]|[u [st1 [H1 H]]]]; [discriminate He|].
  destruct Hp as [<-|Hp].
  - unfold updatePackageVersion in H1. destruct (manifest_ok E root_manifest); [reflexivity|discriminate H1].
  - apply in_map_iff in Hp as [q [<- Hq]]. exact (upd_each_inr E v _ _ _ H q Hq).
Qed.

Lemma upd_each_ok E v qs st :
  (forall q, In q qs -> manifest_ok E (pkg_manifest q) = true) ->
  for_each qs (fun p => updatePackageVersion E (pkg_manifest p) v) st =
  (inr tt, {| updated := updated st;
              trace := trace st ++ map (fun q => Write (pkg_manifest q) v) qs |}).
Proof.
  revert st. induction qs as [|q qs IH]; intros st Hok; simpl.
  - rewrite app_nil_r. destruct st; reflexivity.
  - unfold bind at 1, updatePackageVersion at 1.
    rewrite (Hok q (or_introl eq_refl)). unfold emit at 1.
    rewrite IH by (intros q' Hq'; apply Hok; right; exact Hq'). simpl.
    rewrite <- app_assoc. reflexivity.
Qed.

Lemma updatePackagesVersion_ok E v st :
  (forall p, In p (manifest_paths E) -> manifest_ok E p = true) ->
  updatePackagesVersion E v st =
  (inr tt, {| updated := updated st;
              trace := trace st ++ map (fun p => Write p v) (manifest_paths E) |}).
Proof.
  intros Hok. unfold updatePackagesVersion, bind at 1, updatePackageVersion at 1.
  rewrite (Hok root_manifest (or_introl eq_refl)). unfold emit at 1.
  rewrite upd_each_ok.
  - simpl. rewrite <- app_assoc, map_map. reflexivity.
  - intros q Hq. apply Hok. right. apply in_map. exact Hq.
Qed.

(** *** The last version written *)


Lemma last_write_fold path evs :
  last_write path evs = fold_left (lw_step path) evs None.
Proof. reflexivity. Qed.

Lemma lw_writes_same path v qs :
  fold_left (lw_step path) (map (fun q => Write q v) qs) (Some v) = Some v.
Proof.
  induction qs as [|q qs IH]; simpl; [reflexivity|].
  destruct (text_eqb q path); exact IH.
Qed.

Lemma lw_writes_in path v qs acc :
  In path qs -> fold_left (lw_step path) (map (fun q => Write q v) qs) acc = Some v.
Proof.
  revert acc. induction qs as [|q qs IH]; intros acc Hin; [destruct Hin|]. simpl.
  destruct Hin as [->|Hin].
  - rewrite text_eqb_refl. apply lw_writes_same.
  - apply IH. exact Hin.
Qed.

(** After the writes of [v] to every path of [qs] and events that are no
    writes, each path of [qs] holds [v]. *)
Lemma last_write_after_writes path pre v qs :
  In path qs ->
  last_write path (pre ++ map (fun q => Write q v) qs ++ [Exit 1]) = Some v.
Proof.
  intros Hin. rewrite last_write_fold, !fold_left_app. simpl.
  rewrite lw_writes_in by exact Hin. reflexivity.
Qed.


Lemma lw_no_writes path post acc :
  (forall ev, In ev post -> is_write ev = false) ->
  fold_left (lw_step path) post acc = acc.
Proof.
  revert acc. induction post as [|ev post IH]; intros acc Hp; simpl; [reflexivity|].
  rewrite IH by (intros ev' H; apply Hp; right; exact H).
  specialize (Hp ev (or_introl eq_refl)). destruct ev; try reflexivity. discriminate Hp.
Qed.

(** After the writes of [v] to every path of [qs], followed by events
    that write nothing, each path of [qs] holds [v]. *)
Lemma last_write_writes_then path pre v qs post :
  In path qs -> (forall ev, In ev post -> is_write ev = false) ->
  last_write path (pre ++ map (fun q => Write q v) qs ++ post) = Some v.
Proof.
  intros Hin Hpost. rewrite last_write_fold, !fold_left_app.
  rewrite lw_writes_in by exact Hin. apply lw_no_writes. exact Hpost.
Qed.

(** *** Steps of a completed run *)

Lemma extends_of {A : Type} (m : M A) s r s' :
  (forall st0, preserves (extends st0) m) -> m s = (r, s') -> extends s s'.
Proof.
  intros Hm H. rewrite <- (snd_eq _ _ _ _ H). apply Hm. apply extends_refl.
Qed.

Lemma run_in_grows E cwd cmd st0 : preserves (extends st0) (run_in E cwd cmd).
Proof. unfold_script. pres_go emit_extends. Qed.

Lemma run_grows E cmd st0 : preserves (extends st0) (run E cmd).
Proof. unfold_script. pres_go emit_extends. Qed.

Lemma runIfNotDry_grows E cmd st0 : preserves (extends st0) (runIfNotDry E cmd).
Proof. unfold_script. pres_go emit_extends. Qed.

Lemma prompt_grows {A : Type} (a : option A) st0 : preserves (extends st0) (prompt a).
Proof. unfold_script. pres_go emit_extends. Qed.

Lemma isWorkspaceClean_grows E st0 : preserves (extends st0) (isWorkspaceClean E).
Proof. unfold_script. pres_go emit_extends. Qed.

Lemma publishGitHubRelease_grows E v st0 : preserves (extends st0) (publishGitHubRelease E v).
Proof. unfold_script. pres_go emit_extends. Qed.

Lemma publishPackage_grows E p v fl st0 : preserves (extends st0) (publishPackage E p v fl).
Proof. unfold_script. pres_go emit_extends. Qed.

Lemma getRepoInfo_grows E st0 : preserves (extends st0) (getRepoInfo E).
Proof. unfold_script. pres_go emit_extends. Qed.

Hint Resolve getRepoInfo_grows run_in_grows run_grows runIfNotDry_grows prompt_grows isWorkspaceClean_grows
  publishGitHubRelease_grows publishPackage_grows publishPackages_grows : pres_db.

Lemma run_in_emits E cwd cmd s r s' :
  run_in E cwd cmd s = (r, s') -> In (Run cwd cmd) (trace s').
Proof.
  unfold run_in, bind, emit, ret, throw. destruct (exec E cwd cmd); intro H;
    inversion H; subst; simpl; apply in_or_app; right; left; reflexivity.
Qed.

Lemma runIfNotDry_dry E cmd s r s' :
  dry E = true -> runIfNotDry E cmd s = (r, s') -> In (DryLog cmd) (trace s').
Proof.
  intros Hd. unfold runIfNotDry, emit. rewrite Hd. intro H. inversion H; subst.
  simpl. apply in_or_app; right; left; reflexivity.
Qed.

Lemma publishPackage_emits E p v fl s r s' :
  publishPackage E p v fl s = (r, s') -> In (Run (Some (pkg_dir p)) (publish_cmd fl)) (trace s').
Proof.
  unfold publishPackage, run_in, try_catch, bind, emit, ret, throw. intro H.
  destruct (exec E (Some (pkg_dir p)) (publish_cmd fl)) as [o|msg]; cbv beta iota in H.
  - inversion H; subst; cbn [trace]; apply in_or_app; right; left; reflexivity.
  - destruct (search (lit (T "previously published")) (message E (ECommand (publish_cmd fl) msg)));
      inversion H; subst; cbn [trace]; apply in_or_app; right; left; reflexivity.
Qed.

Lemma publish_each E v fl qs s s' :
  for_each qs (fun p => publishPackage E p v fl) s = (inr tt, s') ->
  forall p, In p qs -> In (Run (Some (pkg_dir p)) (publish_cmd fl)) (trace s').
Proof.
  revert s. induction qs as [|q qs IH]; intros s H p Hp; [destruct Hp|].
  simpl in H. apply bind_inr in H as (u & s1 & H1 & H).
  destruct Hp as [<-|Hp].
  - apply (extends_in s1).
    + apply (extends_of _ _ _ _ (fun st0 => pres_for_each _ _ _ (fun x => publishPackage_grows E x v fl st0)) H).
    + exact (publishPackage_emits E q v fl s _ s1 H1).
  - exact (IH s1 H p Hp).
Qed.

(** *** Dry runs *)

Definition dry_inv (st : state) : Prop := forall ev, In ev (trace st) -> dry_ok ev = true.

Ltac emit_dry :=
  idtac; let st := fresh "st" in let H := fresh "H" in
  let ev := fresh "ev" in let Hin := fresh "Hin" in
  intros st H ev Hin; cbn [trace] in Hin; apply in_app_or in Hin;
  destruct Hin as [Hin|[<-|[]]]; [exact (H ev Hin) | reflexivity].

Lemma pres_set_updated_dry : preserves dry_inv set_updated.
Proof. intros st H. exact H. Qed.

Hint Resolve pres_set_updated_dry : pres_db.

Lemma main_dry E : dry E = true -> preserves dry_inv (main E).
Proof. intros Hd. unfold_script. rewrite Hd. pres_go emit_dry. Qed.

Lemma updatePackagesVersion_dry E v : preserves dry_inv (updatePackagesVersion E v).
Proof. unfold_script. pres_go emit_dry. Qed.

Lemma extends_trans a b c : extends a b -> extends b c -> extends a c.
Proof.
  intros [l1 H1] [l2 H2]. exists (l1 ++ l2). rewrite H2, H1, app_assoc. reflexivity.
Qed.

Lemma release_events_dry E : dry E = true -> forall ev, In ev (events (release E)) -> dry_ok ev = true.
Proof.
  intros Hd ev. unfold release.
  pose proof (main_dry E Hd init) as Hinv.
  destruct (main E init) as [r st] eqn:Hm. cbn [snd] in Hinv.
  assert (Hinit : dry_inv init) by (intros ev' []).
  specialize (Hinv Hinit).
  assert (Hexit : forall n, dry_ok (Exit n) = true) by reflexivity.
  destruct r as [e|u].
  - destruct (updated st).
    + pose proof (updatePackagesVersion_dry E (current_version E) st Hinv) as Hinv2.
      destruct (updatePackagesVersion E (current_version E) st) as [r2 st2].
      cbn [events snd] in *. intro Hin. apply in_app_or in Hin as [Hin|[<-|[]]]; auto.
    + cbn [events]. intro Hin. apply in_app_or in Hin as [Hin|[<-|[]]]; auto.
  - cbn [events]. intro Hin. apply in_app_or in Hin as [Hin|[<-|[]]]; auto.
Qed.

Ltac ext_of Hs G :=
  lazymatch type of Hs with
  | ?m ?s = (?r, ?s') =>
      assert (G : extends s s') by (refine (extends_of m s r s' _ Hs); intro; pres_go emit_extends)
  end.

Ltac step H := apply bind_inr in H; destruct H as (? & ? & ? & H).

Ltac carry :=
  repeat match goal with
  | Hin : In ?ev (trace ?a), G : extends ?a ?b |- _ => apply (extends_in _ _ _ G) in Hin
  end.

(** *** Errors *)

Lemma raises_ret S {A : Type} (a : A) : raises S (ret a).
Proof. intros st e st' H. discriminate H. Qed.

Lemma raises_throw S {A : Type} e : S e = true -> raises S (@throw A e).
Proof. intros He st e' st' H. inversion H; subst. exact He. Qed.

Lemma raises_emit S ev : raises S (emit ev).
Proof. intros st e st' H. discriminate H. Qed.

Lemma raises_set_updated S : raises S set_updated.
Proof. intros st e st' H. discriminate H. Qed.

Lemma raises_bind S {A B : Type} (m : M A) (f : A -> M B) :
  raises S m -> (forall a, raises S (f a)) -> raises S (bind m f).
Proof.
  intros Hm Hf st e st' H. apply bind_cases in H as [[e' [H Heq]]|[a [st1 [_ H]]]].
  - injection Heq as ->. exact (Hm _ _ _ H).
  - exact (Hf _ _ _ _ H).
Qed.

Lemma raises_try_total S {A : Type} (m : M A) (h : rerr -> M A) :
  (forall e, raises S (h e)) -> raises S (try_catch m h).
Proof.
  intros Hh st e st' H. unfold try_catch in H.
  destruct (m st) as [[e1|a] st1]; [exact (Hh _ _ _ _ H)|discriminate H].
Qed.

Lemma raises_try_same S {A : Type} (m : M A) (h : rerr -> M A) :
  raises S m -> (forall e, S e = true -> raises S (h e)) -> raises S (try_catch m h).
Proof.
  intros Hm Hh st e st' H. unfold try_catch in H.
  destruct (m st) as [[e1|a] st1] eqn:Hst; [|discriminate H].
  exact (Hh e1 (Hm _ _ _ Hst) _ _ _ H).
Qed.

Lemma raises_for_each S {A : Type} (xs : list A) (f : A -> M unit) :
  (forall x, raises S (f x)) -> raises S (for_each xs f).
Proof.
  intros Hf. induction xs as [|x xs IH]; simpl.
  - apply raises_ret.
  - apply raises_bind; [apply Hf | intros; exact IH].
Qed.

Create HintDb raises_db.

Ltac raise_go :=
  repeat lazymatch goal with
  | |- raises _ (bind _ _) => apply raises_bind; [| intro]
  | |- raises _ (try_catch _ (fun _ => ret _)) => apply raises_try_total; intro
  | |- raises _ (try_catch _ _) => apply raises_try_same; [| intros ? ?]
  | |- raises _ (ret _) => apply raises_ret
  | |- raises _ (throw _) => apply raises_throw; first [reflexivity | assumption]
  | |- raises _ (emit _) => apply raises_emit
  | |- raises _ set_updated => apply raises_set_updated
  | |- raises _ (for_each _ _) => apply raises_for_each; intro
  | |- raises ?S (match true with true => ?a | false => _ end) => change (raises S a)
  | |- raises ?S (match false with true => _ | false => ?b end) => change (raises S b)
  | |- raises _ (let _ := _ in _) => cbv zeta
  | |- raises _ (match ?x with _ => _ end) => destruct x eqn:?
  | |- raises _ _ => solve [eauto with raises_db]
  end.

Lemma isInSyncWithRemote_raises E S : raises S (isInSyncWithRemote E).
Proof. unfold isInSyncWithRemote. apply raises_try_total. intro. apply raises_ret. Qed.

Hint Resolve isInSyncWithRemote_raises : raises_db.

Lemma main_prelude_raises E : raises (prelude_err E) (main_prelude E).
Proof.
  unfold main_prelude, isMainBranch, select_version, run, run_in, prompt. raise_go.
Qed.

Lemma updatePackagesVersion_raises E v : raises is_manifest_err (updatePackagesVersion E v).
Proof. unfold_script. raise_go. Qed.

Lemma main_release_raises E v : raises release_err (main_release E v).
Proof. unfold_script. raise_go. Qed.

(** *** Where the validation errors come from *)

Ltac emit_nowrite :=
  idtac; let st := fresh "st" in let H := fresh "H" in
  let ev := fresh "ev" in let Hin := fresh "Hin" in
  intros st H ev Hin; cbn [trace] in Hin; apply in_app_or in Hin;
  destruct Hin as [Hin|[<-|[]]]; [exact (H ev Hin) | reflexivity].

Lemma main_prelude_no_write E : preserves no_write (main_prelude E).
Proof. unfold_script. pres_go emit_nowrite. Qed.

Lemma main_invalid_from_prelude E v st :
  main E init = (inl (EInvalidVersion v), st) ->
  main_prelude E init = (inl (EInvalidVersion v), st).
Proof.
  intros H. unfold main in H.
  apply bind_cases in H as [[e [Hp Heq]]|[o [st1 [Hp H]]]].
  - injection Heq as <-. exact Hp.
  - destruct o as [tv|]; [|discriminate H].
    apply bind_cases in H as [[e [Hv Heq]]|[u [st2 [_ H]]]].
    + injection Heq as <-. pose proof (updatePackagesVersion_raises E tv _ _ _ Hv) as Hr.
      discriminate Hr.
    + apply bind_cases in H as [[e [Hs _]]|[u' [st3 [_ H]]]]; [discriminate Hs|].
      pose proof (main_release_raises E tv _ _ _ H) as Hr. discriminate Hr.
Qed.

Lemma runIfNotDry_wet E cmd s r s' :
  dry E = false -> runIfNotDry E cmd s = (r, s') -> In (Run None cmd) (trace s').
Proof.
  intros Hd. unfold runIfNotDry. rewrite Hd. intro H.
  apply bind_cases in H as [[e [H _]]|[a [s1 [H H']]]].
  - exact (run_in_emits _ _ _ _ _ _ H).
  - unfold ret in H'. inversion H'; subst. exact (run_in_emits _ _ _ _ _ _ H).
Qed.

Lemma main_release_flag E v b : preserves (fun st => updated st = b) (main_release E v).
Proof. unfold_script. pres_go emit_flag. Qed.

(** [git diff] printing more than white space makes [isWorkspaceClean]
    answer [false]. *)
Lemma isWorkspaceClean_dirty E out s b s' :
  exec E None (T "git diff") = inl out -> trim out <> [] ->
  isWorkspaceClean E s = (inr b, s') -> b = false.
Proof.
  intros He Hn. unfold isWorkspaceClean, run, run_in, bind, emit, ret. rewrite He.
  intro H. inversion H; subst b. clear H.
  destruct (text_eqb (trim out) []) eqn:Eq; [|reflexivity].
  apply text_eqb_true in Eq. contradiction.
Qed.

(** The commit block of a dirty work tree, outside a dry run, runs
    [git add -A] and the release commit. *)
Lemma commit_block_wet E v s u s' :
  dry E = false ->
  (runIfNotDry E (T "git add -A") ;;; runIfNotDry E (commit_cmd v)) s = (inr u, s') ->
  In (Run None (T "git add -A")) (trace s') /\ In (Run None (commit_cmd v)) (trace s').
Proof.
  intros Hd H. apply bind_cases in H as [[e [_ He]]|[a [s1 [H1 H2]]]]; [discriminate He|].
  pose proof (runIfNotDry_wet E _ _ _ _ Hd H1) as I1.
  pose proof (runIfNotDry_wet E _ _ _ _ Hd H2) as I2.
  assert (G : extends s1 s') by (refine (extends_of _ s1 _ s' _ H2); intro; apply runIfNotDry_grows).
  split; [exact (extends_in _ _ _ G I1) | exact I2].
Qed.

Ltac no_section Hm :=
  lazymatch type of Hm with
  | ?m ?s = _ =>
      let Hr := fresh "Hr" in
      assert (Hr : raises not_section m) by (unfold_script; raise_go);
      specialize (Hr _ _ _ Hm); vm_compute in Hr; discriminate Hr
  end.

Ltac step_err H Hm :=
  let Heq := fresh "Heq" in
  apply bind_cases in H as [[? [Hm Heq]]|[? [? [Hm H]]]];
  [ injection Heq as <-; exfalso; no_section Hm | ].

End ReleaseFacts.

(** ** More on the matcher and on texts *)

Module ExtraFacts.
Import TextProps RegexFacts NamingFacts.

Lemma text_eqb_false (a b : text) : a <> b -> text_eqb a b = false.
Proof. unfold text_eqb. destruct (list_eq_dec ascii_dec a b); congruence. Qed.

Lemma mt_lit_eq {A : Type} w s c (k : text -> caps -> option A) :
  mt (lit w) (w ++ s) c k = k s c.
Proof.
  revert k. induction w as [|a w IH]; intros k; simpl; [reflexivity|].
  rewrite Ascii.eqb_refl. apply IH.
Qed.

Lemma exec_lit w s : exec (lit w) (w ++ s) = Some (s, []).
Proof. unfold exec. apply mt_lit_some. reflexivity. Qed.

Lemma prefixb_split w s : prefixb w s = true -> exists t, s = w ++ t.
Proof.
  revert s. induction w as [|a w IH]; intros s H; [exists s; reflexivity|].
  destruct s as [|b s]; [discriminate H|]. simpl in H. apply andb_prop in H as [Hab H].
  apply Ascii.eqb_eq in Hab. subst b. destruct (IH s H) as [t ->]. exists t. reflexivity.
Qed.

(** [String.prototype.replace] with a string pattern replaces its first
    occurrence. *)
Lemma sub_lit_first w f pre post :
  free_of w pre = true ->
  sub (lit w) f (pre ++ w ++ post) = pre ++ f w [] ++ post.
Proof.
  intro H. rewrite sub_skip.
  - f_equal. rewrite sub_eq, exec_lit, firstn_app_exact. reflexivity.
  - intros i Hi. unfold exec. apply mt_lit_none. apply free_of_spec; assumption.
Qed.

Lemma sub_none r f s :
  (forall i, i <= length s -> exec r (skipn i s) = None) -> sub r f s = s.
Proof.
  intro H. rewrite <- (app_nil_r s) at 1. rewrite sub_skip.
  - rewrite sub_eq. pose proof (H (length s) (le_n _)) as E. rewrite skipn_all in E.
    rewrite E. apply app_nil_r.
  - intros i Hi. rewrite app_nil_r. apply H. lia.
Qed.

Lemma mt_lazy_cls {A : Type} p G s c (k : text -> caps -> option A) v :
  forallb p G = true ->
  (forall l, l < length G -> k (skipn l (G ++ s)) c = None) -> k s c = Some v ->
  mt (RRep false 0 None p) (G ++ s) c k = Some v.
Proof.
  intros HG Hn H. cbn [mt]. unfold rep_lens. rewrite Nat.sub_0_r, run_len_app by exact HG.
  apply (first_some_seq _ 0 _ (length G)).
  - lia.
  - intros l Hl. apply Hn. lia.
  - rewrite skipn_app, skipn_all, Nat.sub_diag. exact H.
Qed.

Lemma mt_lazy1_cls {A : Type} p G s c (k : text -> caps -> option A) v :
  forallb p G = true -> G <> [] ->
  (forall l, 1 <= l < length G -> k (skipn l (G ++ s)) c = None) -> k s c = Some v ->
  mt (RRep false 1 None p) (G ++ s) c k = Some v.
Proof.
  intros HG Hne Hn H. cbn [mt]. unfold rep_lens. rewrite run_len_app by exact HG.
  destruct G as [|g G']; [congruence|].
  apply (first_some_seq _ 1 _ (length (g :: G'))).
  - simpl. lia.
  - exact Hn.
  - rewrite skipn_app, skipn_all, Nat.sub_diag. exact H.
Qed.

Lemma prefixb_one_skip a m Y l :
  forallb (ch_neq a) m = true -> l < length m -> prefixb [a] (skipn l (m ++ Y)) = false.
Proof.
  revert l. induction m as [|b m IH]; intros l H Hl; simpl in Hl; [lia|].
  simpl in H. apply andb_prop in H as [Hb H]. destruct l as [|l].
  - simpl. unfold ch_neq in Hb. apply negb_true_iff in Hb. rewrite Hb. reflexivity.
  - simpl. apply IH; [exact H | lia].
Qed.

Lemma exec_chr_none a r P s k :
  forallb (ch_neq a) P = true -> k < length P -> exec (RCat (RChr a) r) (skipn k (P ++ s)) = None.
Proof.
  revert k. induction P as [|c P IH]; intros k H Hk; simpl in Hk; [lia|].
  simpl in H. apply andb_prop in H as [Hc H]. destruct k as [|k].
  - unfold exec. cbn [skipn app mt]. unfold ch_neq in Hc. apply negb_true_iff in Hc. rewrite Hc.
    reflexivity.
  - cbn [skipn app]. apply IH; [exact H | lia].
Qed.

(** *** Searching *)

Lemma search_here r s s' c : exec r s = Some (s', c) -> search r s = Some c.
Proof. intro H. destruct s; cbn [search]; rewrite H; reflexivity. Qed.

Lemma search_at r P s s' c :
  (forall i, i < length P -> exec r (skipn i (P ++ s)) = None) -> exec r s = Some (s', c) ->
  search r (P ++ s) = Some c.
Proof.
  induction P as [|a P IH]; intros Hn Hs.
  - destruct s as [|b s]; simpl; rewrite Hs; reflexivity.
  - pose proof (Hn 0 ltac:(simpl; lia)) as H0. simpl in H0 |- *. rewrite H0.
    apply IH; [|exact Hs]. intros i Hi. apply (Hn (S i)). simpl. lia.
Qed.

Lemma search_none r s :
  (forall i, i <= length s -> exec r (skipn i s) = None) -> search r s = None.
Proof.
  induction s as [|a s IH]; intro H.
  - pose proof (H 0 (le_n 0)) as H0. simpl in H0 |- *. rewrite H0. reflexivity.
  - pose proof (H 0 ltac:(lia)) as H0. simpl in H0 |- *. rewrite H0. apply IH.
    intros i Hi. apply (H (S i)). simpl. lia.
Qed.

Lemma absent_spec w s i :
  absent w s = true -> w <> [] -> i <= length s -> prefixb w (skipn i s) = false.
Proof.
  intros H Hw Hi. destruct (Nat.eq_dec i (length s)) as [->|Hne].
  - rewrite skipn_all. destruct w; [congruence|reflexivity].
  - unfold absent in H. rewrite forallb_forall in H.
    assert (Hin : In i (seq 0 (length s))) by (apply in_seq; lia).
    specialize (H i Hin). apply negb_true_iff in H. exact H.
Qed.

Lemma search_lit_absent w s :
  w <> [] -> absent w s = true -> search (lit w) s = None.
Proof.
  intros Hw H. apply search_none. intros i Hi. unfold exec. apply mt_lit_none, absent_spec; assumption.
Qed.

Lemma search_lit_present w a b : search (lit w) (a ++ w ++ b) <> None.
Proof.
  induction a as [|x a IH].
  - cbn [app]. rewrite (search_here _ _ b []); [discriminate|]. unfold exec. rewrite mt_lit_eq.
    reflexivity.
  - cbn [app search]. destruct (exec (lit w) (x :: a ++ w ++ b)) as [[s1 c1]|];
      [discriminate|exact IH].
Qed.

End ExtraFacts.

(** ** Splitting, joining and trimming *)

Module TextExtraFacts.
Import TextProps.

Lemma split_by_nosep p s : forallb (fun a => negb (p a)) s = true -> split_by p s = [s].
Proof.
  induction s as [|a s IH]; intro H; [reflexivity|]. simpl in H.
  apply andb_prop in H as [Ha H]. apply negb_true_iff in Ha. simpl. rewrite Ha, IH by exact H.
  reflexivity.
Qed.

Lemma split_by_app_sep p w c R :
  forallb (fun a => negb (p a)) w = true -> p c = true ->
  split_by p (w ++ c :: R) = w :: split_by p R.
Proof.
  induction w as [|a w IH]; intros Hw Hc; simpl; [rewrite Hc; reflexivity|].
  simpl in Hw. apply andb_prop in Hw as [Ha Hw]. apply negb_true_iff in Ha.
  rewrite Ha, IH by assumption. reflexivity.
Qed.

(** Splitting at a one-character separator undoes joining with it. *)
Lemma split_join p c xs :
  p c = true -> xs <> [] -> Forall (fun x => forallb (fun a => negb (p a)) x = true) xs ->
  split_by p (join [c] xs) = xs.
Proof.
  intros Hc. induction xs as [|x xs IH]; intros Hne Hf; [congruence|].
  inversion Hf as [|? ? Hx Hxs]; subst.
  destruct xs as [|y ys].
  - apply split_by_nosep, Hx.
  - change (join [c] (x :: y :: ys)) with (x ++ [c] ++ join [c] (y :: ys)).
    simpl app at 2. rewrite split_by_app_sep by assumption. f_equal. apply IH; [discriminate|exact Hxs].
Qed.

Lemma forallb_join (p : ascii -> bool) sep xs :
  forallb p sep = true -> Forall (fun x => forallb p x = true) xs -> forallb p (join sep xs) = true.
Proof.
  intros Hs. induction xs as [|x xs IH]; intro H; [reflexivity|].
  inversion H as [|? ? Hx Hxs]; subst. destruct xs as [|y ys]; [exact Hx|].
  change (join sep (x :: y :: ys)) with (x ++ sep ++ join sep (y :: ys)).
  rewrite !forallb_app, Hx, Hs, IH by exact Hxs. reflexivity.
Qed.

Lemma drop_ws_app_ws w x : forallb is_ws w = true -> drop_ws (w ++ x) = drop_ws x.
Proof.
  induction w as [|a w IH]; intro H; [reflexivity|]. simpl in H.
  apply andb_prop in H as [Ha H]. cbn [app drop_ws]. rewrite Ha. exact (IH H).
Qed.

(** Trimming removes blanks around a text that starts and ends with a
    non-blank character. *)
Lemma trim_pad w1 x w2 c x' d x'' :
  forallb is_ws w1 = true -> forallb is_ws w2 = true ->
  x = c :: x' -> rev x = d :: x'' -> is_ws c = false -> is_ws d = false ->
  trim (w1 ++ x ++ w2) = x.
Proof.
  intros H1 H2 Ex Er Hc Hd. unfold trim.
  rewrite drop_ws_app_ws by exact H1.
  assert (E1 : drop_ws (x ++ w2) = x ++ w2) by (rewrite Ex; cbn [app drop_ws]; rewrite Hc; reflexivity).
  rewrite E1, rev_app_distr, drop_ws_app_ws.
  - rewrite Er. cbn [drop_ws]. rewrite Hd, <- Er, rev_involutive. reflexivity.
  - rewrite forallb_forall in *. intros y Hy. apply H2, in_rev. exact Hy.
Qed.

Lemma forallb_drop_ws p s : forallb p s = true -> forallb p (drop_ws s) = true.
Proof.
  induction s as [|c s IH]; intro H; [reflexivity|]. simpl in H |- *.
  apply andb_prop in H as [Hc H]. destruct (is_ws c); [apply IH, H|]. simpl. rewrite Hc. exact H.
Qed.

Lemma forallb_rev (p : ascii -> bool) s : forallb p (rev s) = forallb p s.
Proof.
  induction s as [|c s IH]; [reflexivity|]. simpl. rewrite forallb_app, IH. simpl.
  rewrite andb_true_r, andb_comm. reflexivity.
Qed.

Lemma forallb_trim p s : forallb p s = true -> forallb p (trim s) = true.
Proof.
  intro H. unfold trim. rewrite forallb_rev. apply forallb_drop_ws. rewrite forallb_rev.
  apply forallb_drop_ws, H.
Qed.

End TextExtraFacts.

(** ** The build script: more facts *)

Module BuildExtraFacts.
Import TextProps RegexFacts Build BuildExtraProps ExtraFacts.

Lemma first_err_map_inr {A : Type} (l : list A) : first_err (map inr l) = inr l.
Proof. induction l as [|a l IH]; simpl; [reflexivity|]. rewrite IH. reflexivity. Qed.

Lemma first_err_inr {A : Type} (xs : list (berr + A)) l :
  first_err xs = inr l <-> xs = map inr l.
Proof.
  split; [|intros ->; apply first_err_map_inr].
  revert l. induction xs as [|[e|a] xs IH]; intros l H; simpl in H.
  - inversion H; reflexivity.
  - discriminate H.
  - destruct (first_err xs) as [e|l'] eqn:E; [discriminate H|].
    inversion H; subst. simpl. f_equal. apply IH. reflexivity.
Qed.

Lemma map_read_icon fs files icons :
  map (read_icon fs) files = map inr icons <->
  Forall2 (fun f ic => read_asset fs f = Some (svg ic) /\ name ic = componentName f) files icons.
Proof.
  revert icons. induction files as [|f files IH]; intros [|ic icons]; simpl.
  - split; constructor.
  - split; intro H; [discriminate H | inversion H].
  - split; intro H; [discriminate H | inversion H].
  - unfold read_icon at 1. split.
    + intro H. destruct (read_asset fs f) as [s|] eqn:Hr; [|discriminate H].
      inversion H; subst. constructor; [split; [exact Hr | reflexivity]|]. apply IH. assumption.
    + intro H. inversion H as [|? ? ? ? [Hr Hn] Hf]; subst.
      rewrite Hr. destruct ic as [s n]. simpl in Hn. subst n. f_equal.
      apply IH. exact Hf.
Qed.

Lemma icon_task_writes tl fs target fmt out ic p c :
  In (p, c) (snd (fst (icon_task tl fs target fmt out ic))) -> exists r, p = out ++ T "/" ++ r.
Proof.
  unfold icon_task. destruct (transform tl target) as [tr|]; [|simpl; tauto].
  destruct (tr (svg ic) (name ic) fmt) as [e|content]; [simpl; tauto|].
  unfold ensure_write. destruct content as [t|];
  destruct (write_ok fs (out ++ T "/" ++ name ic ++ T ".js"));
  destruct (write_ok fs (out ++ T "/" ++ name ic ++ T ".d.ts")); simpl;
  intros H; repeat destruct H as [H|H]; try (inversion H; subst; eexists; reflexivity); tauto.
Qed.

Lemma existsb_text_eqb t l : existsb (text_eqb t) l = true <-> In t l.
Proof.
  rewrite existsb_exists. split.
  - intros (x & Hx & E). unfold text_eqb in E.
    destruct (list_eq_dec ascii_dec t x) as [->|]; [exact Hx | discriminate E].
  - intro H. exists t. split; [exact H|]. unfold text_eqb.
    destruct (list_eq_dec ascii_dec t t); congruence.
Qed.

Lemma inherited_call_none t : ~ In t proto_methods -> inherited_call t = None.
Proof.
  intro H. unfold inherited_call.
  destruct (existsb (text_eqb t) [T "toString"; T "toLocaleString"]) eqn:E1.
  { apply existsb_text_eqb in E1. exfalso. apply H.
    destruct E1 as [<-|[<-|[]]]; cbn; tauto. }
  destruct (existsb (text_eqb t) [T "__defineGetter__"; T "__defineSetter__"]) eqn:E2.
  { apply existsb_text_eqb in E2. exfalso. apply H.
    destruct E2 as [<-|[<-|[]]]; cbn; tauto. }
  destruct (existsb (text_eqb t) proto_methods) eqn:E3; [|reflexivity].
  apply existsb_text_eqb in E3. contradiction.
Qed.

Lemma transform_none tl target :
  (forall t, target = Some t -> t <> T "react" /\ t <> T "vue" /\ ~ In t proto_methods) ->
  transform tl target = None.
Proof.
  intro H. destruct target as [t|]; [|reflexivity]. destruct (H t eq_refl) as (Hr & Hv & Hp).
  unfold transform. rewrite (text_eqb_false _ _ Hr), (text_eqb_false _ _ Hv), inherited_call_none by exact Hp.
  reflexivity.
Qed.

Lemma build_no_transform tl fs target fmt ic ics :
  transform tl target = None -> getIcons fs = inr (ic :: ics) ->
  build tl fs target fmt = {| awaited := Some BNoTransform; writes := []; detached := [] |}.
Proof.
  intros Ht Hg. unfold build. rewrite Hg. unfold icon_task. rewrite Ht.
  cbn [map first_some_err fst snd concat app].
  rewrite !map_map. f_equal.
  all: clear; induction ics as [|x ics IH]; [reflexivity|exact IH].
Qed.



(** A build in which every icon task settles without error. *)
Lemma build_tasks_ok tl fs target fmt icons (f : icon -> list (text * text)) (g : icon -> list berr) :
  getIcons fs = inr icons ->
  (forall ic, icon_task tl fs target fmt (out_dir target fmt) ic = (None, f ic, g ic)) ->
  (forall p, write_ok fs p = true) ->
  build tl fs target fmt =
  {| awaited := None;
     writes := concat (map f icons) ++
               [(out_dir target fmt ++ T "/index.js", exportAll (map name icons) fmt);
                (out_dir target fmt ++ T "/index.d.ts", exportAll (map name icons) esm)];
     detached := concat (map g icons) |}.
Proof.
  intros Hg Ht Hw. unfold build. rewrite Hg. cbv zeta.
  rewrite (map_ext _ _ Ht).
  assert (E : first_some_err (map (fun r => fst (fst r)) (map (fun ic => (None, f ic, g ic)) icons)) = None)
    by (clear; induction icons as [|ic icons IH]; [reflexivity | exact IH]).
  rewrite E, !Hw, !map_map. reflexivity.
Qed.


Lemma export_line_no_nl fmt n :
  forallb (ch_neq nl) n = true -> forallb (ch_neq nl) (export_line fmt n) = true.
Proof.
  intro H. destruct fmt; unfold export_line; rewrite !forallb_app, H; reflexivity.
Qed.

End BuildExtraFacts.

(** ** The [cjs] rewrite of the Vue compiler's output *)

Module VueFacts.
Import TextProps RegexFacts Build NamingFacts BuildExtraProps ExtraFacts TextExtraFacts.

Lemma item_ok_split w : item_ok w = true ->
  Nat.leb 1 (length w) = true /\ forallb (fun c => negb (is_ws c)) w = true /\
  forallb (ch_neq ","%char) w = true /\ forallb (ch_neq "}"%char) w = true.
Proof.
  intro H. apply andb_prop in H as [H1 H]. split; [exact H1|].
  rewrite !forallb_forall in *. unfold item_char in H.
  split; [|split]; intros x Hx; specialize (H x Hx);
    apply andb_prop in H as [H H3]; apply andb_prop in H as [H2 H4]; assumption.
Qed.

Lemma items_no_brace items :
  items_ok items = true -> forallb (ch_neq "}"%char) (join (T ", ") (map as_item items)) = true.
Proof.
  intro H. apply forallb_join; [reflexivity|]. apply Forall_map, Forall_forall.
  intros p Hp. unfold items_ok in H. rewrite forallb_forall in H. specialize (H p Hp).
  apply andb_prop in H as [H1 H2]. apply item_ok_split in H1 as (_ & _ & _ & H1).
  apply item_ok_split in H2 as (_ & _ & _ & H2). unfold as_item.
  rewrite !forallb_app, H1, H2. reflexivity.
Qed.

Lemma items_start items :
  items <> [] -> items_ok items = true ->
  exists c t, join (T ", ") (map as_item items) = c :: t /\ is_ws c = false.
Proof.
  intros Hne H. destruct items as [|p ps]; [congruence|].
  simpl in H. apply andb_prop in H as [H _]. apply andb_prop in H as [H _].
  apply item_ok_split in H as (H1 & H2 & _).
  destruct (fst p) as [|c n] eqn:E; [discriminate H1|].
  simpl in H2. apply andb_prop in H2 as [Hc _]. apply negb_true_iff in Hc.
  destruct ps; simpl; unfold as_item; rewrite E; simpl; eexists _, _; split; [reflexivity| exact Hc|reflexivity|exact Hc].
Qed.

Lemma exec_import items m rest :
  items <> [] -> items_ok items = true -> forallb module_char m = true ->
  exec import_re (import_stmt items m ++ rest) =
  Some (rest, set_cap 3 m (set_cap 2 [dq] (set_cap 1 (join (T ", ") (map as_item items) ++ T " ") []))).
Proof.
  intros Hne Hok Hm.
  set (L := join (T ", ") (map as_item items)).
  assert (HL1 : forallb (ch_neq "}"%char) (L ++ T " ") = true)
    by (rewrite forallb_app; unfold L; rewrite items_no_brace by exact Hok; reflexivity).
  destruct (items_start items Hne Hok) as (c0 & t0 & HL2 & Hc0). fold L in HL2.
  assert (Hmq : forallb (ch_neq dq) m = true).
  { rewrite forallb_forall in *. intros x Hx. specialize (Hm x Hx). unfold module_char in Hm.
    apply andb_prop in Hm as [Hm _]. exact Hm. }
  assert (Hml : forallb (fun x => negb (is_line_term x)) m = true).
  { rewrite forallb_forall in *. intros x Hx. specialize (Hm x Hx). unfold module_char in Hm.
    apply andb_prop in Hm as [_ Hm]. exact Hm. }
  assert (E : import_stmt items m ++ rest =
              T "import" ++ [" "%char] ++ "{"%char :: [" "%char] ++
              ((L ++ T " ") ++ "}"%char :: [" "%char] ++ T "from" ++ [" "%char] ++
               dq :: m ++ dq :: rest)).
  { unfold import_stmt. fold L. rewrite <- !app_assoc. reflexivity. }
  rewrite E. unfold exec, import_re. cbn [cats].
  apply mt_cat_some, mt_lit_some.
  apply mt_cat_some, mt_greedy_some; [reflexivity..|].
  apply mt_cat_some, mt_chr_some.
  apply mt_cat_some, mt_greedy_some; [reflexivity | rewrite HL2; simpl; rewrite Hc0; reflexivity | reflexivity..|].
  apply mt_cat_some, mt_grp_some, mt_greedy_some;
    [exact HL1 | reflexivity | rewrite HL2; reflexivity | reflexivity |].
  cbv beta. rewrite firstn_app_exact.
  apply mt_cat_some, (mt_greedy_some _ _ _ []); [reflexivity..|].
  apply mt_cat_some, mt_chr_some.
  apply mt_cat_some, mt_greedy_some; [reflexivity..|].
  apply mt_cat_some, mt_lit_some.
  apply mt_cat_some, mt_greedy_some; [reflexivity..|].
  apply mt_cat_some, mt_grp_some, mt_cls_some; [reflexivity|].
  cbv beta. change (dq :: m ++ dq :: rest) with ([dq] ++ m ++ dq :: rest). rewrite firstn_app_exact.
  apply mt_cat_some, mt_grp_some, mt_lazy_cls; [exact Hml| |].
  - intros l Hl. cbv beta. cbn [mt get_cap set_cap Nat.eqb].
    rewrite prefixb_one_skip by assumption. reflexivity.
  - cbv beta. rewrite firstn_app_exact. cbn [mt get_cap set_cap Nat.eqb prefixb].
    rewrite Ascii.eqb_refl. reflexivity.
Qed.

End VueFacts.

Module VueRewriteFacts.
Import TextProps RegexFacts Build NamingFacts BuildExtraProps ExtraFacts TextExtraFacts VueFacts.

Lemma ws_not_comma w : forallb is_ws w = true -> forallb (fun a => negb (ch_eq ","%char a)) w = true.
Proof.
  rewrite !forallb_forall. intros H y Hy. specialize (H y Hy). unfold ch_eq.
  destruct (Ascii.eqb "," y) eqn:E; [|reflexivity]. apply Ascii.eqb_eq in E. subst. discriminate H.
Qed.

Lemma item_ok_ends w : item_ok w = true ->
  exists c w' d w'', w = c :: w' /\ rev w = d :: w'' /\ is_ws c = false /\ is_ws d = false.
Proof.
  intro H. apply item_ok_split in H as (H1 & H2 & _).
  destruct w as [|c w']; [discriminate H1|].
  destruct (rev (c :: w')) as [|d w''] eqn:Er.
  - apply (f_equal (@length ascii)) in Er. rewrite length_rev in Er. discriminate Er.
  - exists c, w', d, w''. split; [reflexivity|]. split; [reflexivity|].
    rewrite forallb_forall in H2. split.
    + apply negb_true_iff, H2. left. reflexivity.
    + apply negb_true_iff, H2. apply in_rev. rewrite Er. left. reflexivity.
Qed.

Lemma as_item_ends p : item_ok (fst p) = true -> item_ok (snd p) = true ->
  exists c w' d w'', as_item p = c :: w' /\ rev (as_item p) = d :: w'' /\ is_ws c = false /\ is_ws d = false.
Proof.
  intros Hn Ha.
  destruct (item_ok_ends _ Hn) as (c & n' & _ & _ & En & _ & Hc & _).
  destruct (item_ok_ends _ Ha) as (_ & _ & d & a'' & _ & Ea & _ & Hd).
  exists c, (n' ++ T " as " ++ snd p), d, (a'' ++ rev (fst p ++ T " as ")).
  unfold as_item. rewrite En. split; [reflexivity|]. split; [|split; assumption].
  rewrite app_assoc, rev_app_distr, Ea. rewrite <- En. reflexivity.
Qed.

Lemma as_item_no_comma p : item_ok (fst p) = true -> item_ok (snd p) = true ->
  forallb (fun a => negb (ch_eq ","%char a)) (as_item p) = true.
Proof.
  intros Hn Ha. apply item_ok_split in Hn as (_ & _ & Hn & _).
  apply item_ok_split in Ha as (_ & _ & Ha & _).
  change (forallb (fun a => negb (ch_eq ","%char a)) (fst p) = true) in Hn.
  change (forallb (fun a => negb (ch_eq ","%char a)) (snd p) = true) in Ha.
  unfold as_item. rewrite !forallb_app. rewrite Hn, Ha. reflexivity.
Qed.

Lemma split_items w items :
  items <> [] -> items_ok items = true -> forallb is_ws w = true ->
  map trim (split_on ","%char (w ++ join (T ", ") (map as_item items) ++ T " ")) = map as_item items.
Proof.
  unfold split_on. revert w. induction items as [|p ps IH]; intros w Hne Hok Hw; [congruence|].
  simpl in Hok. apply andb_prop in Hok as [Hp Hok]. apply andb_prop in Hp as [Hn Ha].
  destruct (as_item_ends p Hn Ha) as (c & x' & d & x'' & Ex & Er & Hc & Hd).
  destruct ps as [|q qs].
  - cbn [map join]. rewrite split_by_nosep.
    + cbn [map]. rewrite (trim_pad w (as_item p) (T " ") c x' d x''); auto.
    + rewrite !forallb_app, ws_not_comma, as_item_no_comma by assumption. reflexivity.
  - change (join (T ", ") (map as_item (p :: q :: qs)))
      with (as_item p ++ T ", " ++ join (T ", ") (map as_item (q :: qs))).
    rewrite <- !app_assoc. rewrite app_assoc.
    change (T ", " ++ ?J) with (","%char :: [" "%char] ++ J).
    rewrite split_by_app_sep.
    + cbn [map]. rewrite <- (app_nil_r (w ++ as_item p)), <- app_assoc.
      rewrite (trim_pad w (as_item p) [] c x' d x''); auto. f_equal.
      exact (IH [" "%char] ltac:(discriminate) Hok eq_refl).
    + rewrite forallb_app, ws_not_comma, as_item_no_comma by assumption. reflexivity.
    + reflexivity.
Qed.

Lemma sub_as p : item_ok (fst p) = true -> item_ok (snd p) = true ->
  sub as_re (fun _ _ => T ": ") (as_item p) = colon_item p.
Proof.
  intros Hn Ha. unfold as_item, colon_item.
  apply item_ok_split in Hn as (_ & Hn & _).
  destruct (item_ok_ends _ Ha) as (a0 & a' & _ & _ & Ea & _ & Ha0 & _).
  rewrite sub_skip.
  - f_equal. rewrite sub_eq.
    assert (Ex : exec as_re (T " as " ++ snd p) = Some (snd p, [])).
    { unfold exec, as_re, ws_plus. cbn [cats].
      change (T " as " ++ snd p) with ([" "%char] ++ T "as" ++ [" "%char] ++ snd p).
      apply mt_cat_some, mt_greedy_some; [reflexivity..|].
      apply mt_cat_some, mt_lit_some.
      apply mt_greedy_some; [reflexivity | rewrite Ea; simpl; rewrite Ha0; reflexivity | reflexivity..]. }
    rewrite Ex. reflexivity.
  - intros i Hi. unfold as_re, ws_plus. cbn [cats]. apply exec_rep1_none, run_len_prefix_zero; assumption.
Qed.

Lemma map_sub_as items : items_ok items = true ->
  map (fun i => sub as_re (fun _ _ => T ": ") i) (map as_item items) = map colon_item items.
Proof.
  induction items as [|p ps IH]; intro H; [reflexivity|].
  simpl in H. apply andb_prop in H as [Hp H]. apply andb_prop in Hp as [Hn Ha].
  cbn [map]. rewrite sub_as, IH by assumption. reflexivity.
Qed.

Lemma import_repl_caps t items m :
  items <> [] -> items_ok items = true ->
  import_repl t (set_cap 3 m (set_cap 2 [dq] (set_cap 1 (join (T ", ") (map as_item items) ++ T " ") [])))
  = require_stmt items m.
Proof.
  intros Hne Hok. unfold import_repl. cbn [get_cap set_cap Nat.eqb].
  pose proof (split_items [] items Hne Hok eq_refl) as Hs. rewrite app_nil_l in Hs.
  rewrite <- (map_map trim (fun i => sub as_re (fun _ _ => T ": ") i)), Hs, map_sub_as by exact Hok.
  unfold require_stmt. reflexivity.
Qed.

Lemma exec_import_none_at s :
  prefixb (T "import") s = false -> exec import_re s = None.
Proof. intro H. unfold exec, import_re. cbn [cats]. exact (mt_lit_none _ _ _ _ H). Qed.

Lemma sub_import pre items m rest :
  items <> [] -> items_ok items = true -> forallb module_char m = true ->
  free_of (T "import") pre = true ->
  sub import_re import_repl (pre ++ import_stmt items m ++ rest) = pre ++ require_stmt items m ++ rest.
Proof.
  intros Hne Hok Hm Hpre. rewrite sub_skip.
  - f_equal. rewrite sub_eq, exec_import by assumption. rewrite import_repl_caps by assumption.
    reflexivity.
  - intros i Hi. apply exec_import_none_at.
    assert (E : import_stmt items m ++ rest = T "import" ++ T " { " ++ join (T ", ") (map as_item items)
                  ++ T " } from " ++ [dq] ++ m ++ [dq] ++ rest)
      by (unfold import_stmt; rewrite <- !app_assoc; reflexivity).
    rewrite E. apply free_of_spec; assumption.
Qed.

End VueRewriteFacts.

(** ** File names made of separators *)

Module NamingExtraFacts.
Import TextProps RegexFacts Camel NamingProps NamingFacts TextExtraFacts.

Lemma sep_not_upper c : is_sep c = true -> is_upper c = false.
Proof. revert c. by_chars. Qed.

Lemma sep_single c :
  is_sep c = true ->
  match search SEPARATORS [c] with Some _ => [] | None => to_upper [c] end = [].
Proof. revert c. by_chars. Qed.

Lemma camelcase_pascal_seps s : forallb is_sep s = true -> camelcase_pascal s = [].
Proof.
  intro H. unfold camelcase_pascal. cbv zeta.
  pose proof (forallb_trim _ _ H) as Ht. remember (trim s) as t eqn:Et. clear Et H.
  destruct t as [|c1 [|c2 r]].
  - reflexivity.
  - apply sep_single. simpl in Ht. destruct (is_sep c1); [reflexivity|discriminate].
  - rewrite (to_lower_id (c1 :: c2 :: r)).
    2:{ eapply forallb_impl; [|exact Ht]. intros c Hc. rewrite sep_not_upper by exact Hc. reflexivity. }
    rewrite ReleaseFacts.text_eqb_refl. cbn [negb].
    unfold strip_leading, exec, SEPARATORS. rewrite (mt_greedy_end 1 is_sep (c1 :: c2 :: r) [] _ (([] : text), ([] : caps))).
    + reflexivity.
    + exact Ht.
    + reflexivity.
    + reflexivity.
Qed.

End NamingExtraFacts.

(** ** The remote URL and the release type choices *)

Module ReleaseRegexFacts.
Import TextProps RegexFacts ExtraFacts ReleaseExtraProps.

Lemma git_end_none {A : Type} t c (k : text -> caps -> option A) :
  t <> [] -> t <> T ".git" -> mt (RCat (RAlt (lit (T ".git")) RNil) REnd) t c k = None.
Proof.
  intros Hne Hg. cbn [mt].
  destruct (prefixb (T ".git") t) eqn:Hp.
  - destruct (prefixb_split _ _ Hp) as [t' ->]. rewrite mt_lit_eq.
    destruct t' as [|x t']; [rewrite app_nil_r in Hg; congruence|]. reflexivity.
  - rewrite mt_lit_none by exact Hp. destruct t; [congruence|reflexivity].
Qed.

Lemma exec_repo owner repo suf :
  forallb (ch_neq "/"%char) owner = true -> owner <> [] ->
  forallb (ch_neq "/"%char) repo = true -> repo <> [] ->
  repo_suffix_ok repo suf ->
  exec Release.repo_re (T "github.com/" ++ owner ++ "/"%char :: repo ++ suf) =
  Some ([], set_cap 2 repo (set_cap 1 owner [])).
Proof.
  intros Ho Hone Hr Hrne Hsuf. unfold exec, Release.repo_re. cbn [Build.cats].
  apply mt_cat_some, mt_lit_some.
  apply mt_cat_some, mt_grp_some, mt_greedy_some;
    [exact Ho | reflexivity | destruct owner; [congruence|reflexivity] | reflexivity |].
  cbv beta. rewrite firstn_app_exact.
  apply mt_cat_some, mt_chr_some.
  apply mt_cat_some, mt_grp_some, mt_lazy1_cls; [exact Hr | exact Hrne | |].
  - intros l Hl. cbv beta. rewrite skipn_app.
    replace (l - length repo) with 0 by lia. rewrite skipn_O.
    assert (Hsk : skipn l repo <> []).
    { intro E. apply (f_equal (@length ascii)) in E. rewrite length_skipn in E. simpl in E. lia. }
    apply git_end_none.
    + destruct (skipn l repo); [congruence|discriminate].
    + destruct Hsuf as [->|[-> Hno]].
      * intro E. apply (f_equal (@length ascii)) in E. rewrite length_app in E.
        destruct (skipn l repo); [congruence|simpl in E; lia].
      * rewrite app_nil_r. intro E. apply (Hno (firstn l repo)).
        -- intro F. apply (f_equal (@length ascii)) in F. rewrite length_firstn in F. simpl in F. lia.
        -- rewrite <- E. symmetry. apply firstn_skipn.
  - cbv beta. rewrite firstn_app_exact. cbn [mt].
    destruct Hsuf as [->|[-> _]].
    + rewrite <- (app_nil_r (T ".git")) at 2. rewrite mt_lit_eq. reflexivity.
    + rewrite mt_lit_none by reflexivity. reflexivity.
Qed.

Lemma exec_repo_none_at s : prefixb (T "github.com/") s = false -> exec Release.repo_re s = None.
Proof. intro H. unfold exec, Release.repo_re. cbn [Build.cats]. exact (mt_lit_none _ _ _ _ H). Qed.

Lemma search_repo_absent s : absent (T "github.com/") s = true -> search Release.repo_re s = None.
Proof.
  intro H. apply search_none. intros i Hi. apply exec_repo_none_at, absent_spec; [exact H|discriminate|exact Hi].
Qed.

Lemma search_repo pre owner repo suf :
  free_of (T "github.com/") pre = true ->
  forallb (ch_neq "/"%char) owner = true -> owner <> [] ->
  forallb (ch_neq "/"%char) repo = true -> repo <> [] ->
  repo_suffix_ok repo suf ->
  search Release.repo_re (pre ++ T "github.com/" ++ owner ++ "/"%char :: repo ++ suf) =
  Some (set_cap 2 repo (set_cap 1 owner [])).
Proof.
  intros Hpre Ho Hone Hr Hrne Hsuf. eapply search_at; [|apply exec_repo; assumption].
  intros i Hi. apply exec_repo_none_at, free_of_spec; assumption.
Qed.

Lemma exec_paren v :
  forallb (fun x => negb (is_line_term x)) v = true ->
  exec Release.paren_re ("("%char :: v ++ T ")") = Some ([], set_cap 1 v []).
Proof.
  intro Hv. unfold exec, Release.paren_re. cbn [Build.cats].
  apply mt_cat_some, mt_chr_some, mt_cat_some, mt_grp_some.
  cbn [mt]. unfold rep_lens. rewrite run_len_app by exact Hv.
  change (run_len (fun x => negb (is_line_term x)) (T ")")) with 1.
  rewrite Nat.sub_0_r. replace (S (length v + 1)) with (length v + 2) by lia.
  rewrite seq_app, rev_app_distr. cbn [seq rev app first_some].
  rewrite !Nat.add_0_l.
  replace (skipn (S (length v)) (v ++ T ")")) with (@nil ascii)
    by (rewrite skipn_all2; [reflexivity | rewrite length_app; simpl; lia]).
  replace (skipn (length v) (v ++ T ")")) with (T ")")
    by (rewrite skipn_app, skipn_all, Nat.sub_diag; reflexivity).
  cbn [skipn app mt]. rewrite firstn_app_exact. reflexivity.
Qed.

Lemma search_paren i v :
  forallb (ch_neq "("%char) i = true -> forallb (fun x => negb (is_line_term x)) v = true ->
  search Release.paren_re (i ++ T " (" ++ v ++ T ")") = Some (set_cap 1 v []).
Proof.
  intros Hi Hv.
  replace (i ++ T " (" ++ v ++ T ")") with ((i ++ [" "%char]) ++ "("%char :: v ++ T ")")
    by (rewrite <- app_assoc; reflexivity).
  eapply search_at; [|apply exec_paren, Hv].
  intros k Hk. unfold Release.paren_re. cbn [Build.cats]. apply exec_chr_none; [|exact Hk].
  rewrite forallb_app, Hi. reflexivity.
Qed.

End ReleaseRegexFacts.

(** ** Release runs: more facts *)

Module ReleaseExtraFacts.
Import Release ReleaseProps ReleaseFacts ExtraFacts.

Lemma nth_choices E n : n < 3 ->
  nth n (choices E) [] = nth n releaseTypes [] ++ T " (" ++ inc E (nth n releaseTypes []) ++ T ")".
Proof.
  intro Hn. unfold choices. rewrite app_nth1 by (rewrite length_map; simpl; lia).
  rewrite (nth_indep _ _ ((fun i => i ++ T " (" ++ inc E i ++ T ")") [])) by (rewrite length_map; simpl; lia).
  rewrite (map_nth (fun i => i ++ T " (" ++ inc E i ++ T ")") releaseTypes [] n). reflexivity.
Qed.

Lemma pkg_manifest_not_root q : text_eqb (pkg_manifest q) root_manifest = false.
Proof.
  apply text_eqb_false. unfold pkg_manifest, pkg_dir, root_manifest. intro H. cbn in H. discriminate H.
Qed.

Lemma upd_each_fail E v qs st q :
  In q qs -> manifest_ok E (pkg_manifest q) = false ->
  exists e ws, for_each qs (fun p => updatePackageVersion E (pkg_manifest p) v) st =
     (inl e, {| updated := updated st; trace := trace st ++ map (fun q => Write (pkg_manifest q) v) ws |}).
Proof.
  revert st. induction qs as [|q0 qs IH]; intros st Hin Hq; [destruct Hin|].
  cbn [for_each]. unfold bind at 1, updatePackageVersion at 1.
  destruct (manifest_ok E (pkg_manifest q0)) eqn:H0.
  - destruct Hin as [<-|Hin]; [congruence|]. unfold emit at 1.
    destruct (IH {| updated := updated st; trace := trace st ++ [Write (pkg_manifest q0) v] |} Hin Hq)
      as (e & ws & He).
    rewrite He. exists e, (q0 :: ws). cbn [updated trace map]. rewrite <- app_assoc. reflexivity.
  - exists (EManifest (pkg_manifest q0)), []. unfold throw. rewrite app_nil_r. destruct st; reflexivity.
Qed.

Lemma lw_pkg_writes v ws acc :
  fold_left (lw_step root_manifest) (map (fun q => Write (pkg_manifest q) v) ws) acc = acc.
Proof.
  revert acc. induction ws as [|w ws IH]; intro acc; [reflexivity|].
  cbn [map fold_left lw_step]. rewrite pkg_manifest_not_root. apply IH.
Qed.

End ReleaseExtraFacts.

(** ** Claims on the build script *)

Module BuildClaims.
Import Build BuildScenarios BuildProps TextProps RegexFacts BuildRegexFacts BuildSamples.

(** C9: whenever a build of either format settles without error, its
    last two writes are [index.js], with exports in the format built,
    and [index.d.ts], with exports in the module syntax
    ([export { default as N } from './N'] for every icon [N]) whatever
    the format. *)
Theorem index_dts_always_esm (tl : tools) (fs : fsys) (target : option text) (fmt : format) :
  awaited (build tl fs target fmt) = None ->
  exists icons ws,
    getIcons fs = inr icons /\
    writes (build tl fs target fmt) =
      ws ++ [(out_dir target fmt ++ T "/index.js", exportAll (map name icons) fmt);
             (out_dir target fmt ++ T "/index.d.ts", exportAll (map name icons) esm)] /\
    exportAll (map name icons) esm =
      join [nl] (map (fun n => T "export { default as " ++ n ++ T " } from './" ++ n ++ T "'")
                     (map name icons)).
Proof.
  unfold build. cbv zeta. destruct (getIcons fs) as [e|icons]; [discriminate|].
  destruct (first_some_err _); [discriminate|].
  destruct (write_ok fs _); [|discriminate]. destruct (write_ok fs _); [|discriminate].
  intros _. exists icons. eexists. split; [reflexivity|]. split; reflexivity.
Qed.

Lemma index_dts_always_esm_witness :
  exists icons ws,
    getIcons fs_ok = inr icons /\
    writes (build sample_tools fs_ok (Some (T "react")) cjs) =
      ws ++ [(out_dir (Some (T "react")) cjs ++ T "/index.js", exportAll (map name icons) cjs);
             (out_dir (Some (T "react")) cjs ++ T "/index.d.ts", exportAll (map name icons) esm)] /\
    exportAll (map name icons) esm =
      join [nl] (map (fun n => T "export { default as " ++ n ++ T " } from './" ++ n ++ T "'")
                     (map name icons)).
Proof. apply (index_dts_always_esm sample_tools fs_ok (Some (T "react")) cjs). vm_compute. reflexivity. Defined.

(** C6 (divergence): when writing a component module fails, the
    rejection of the unawaited write promise is not caught by [main]:
    nothing is logged by its [catch] block and the process exits with
    code 1. *)
Theorem component_write_failure_escapes :
  logged (main sample_tools fs_component_write_fails (Some (T "react"))) = [] /\
  detached (build sample_tools fs_component_write_fails (Some (T "react")) esm) =
    [BWrite (T "./packages/react/esm/A.js")] /\
  exit_code (main sample_tools fs_component_write_fails (Some (T "react"))) = 1.
Proof. vm_compute. repeat split. Qed.

(** C7: for a react icon in the [cjs] format, the swc output
    [P ++ Object.defineProperty(exports, "default", {G});W ++ B ++ const _default = e;W2]
    (the getter statement occurring once, the assignment closing the
    text) is post-processed by the two rewrites only: the getter statement
    is removed and the assignment becomes [module.exports = e;]. *)
Lemma react_cjs_rewrites tl svg name comp P G W B e W2 :
  svgr tl svg name = Some comp ->
  swc tl comp cjs = Some (P ++ define_default_stmt G W ++ B ++ default_assign_stmt e W2) ->
  no_match_upto define_default_re (length P)
    (P ++ define_default_stmt G W ++ B ++ default_assign_stmt e W2) = true ->
  free_of (T "})") G = true -> all_ws W = true ->
  starts_non_ws (B ++ default_assign_stmt e W2) = true ->
  no_match_upto define_default_re (S (length (B ++ default_assign_stmt e W2)))
    (B ++ default_assign_stmt e W2) = true ->
  no_match_upto default_assign_re (length (P ++ B)) (P ++ B ++ default_assign_stmt e W2) = true ->
  Nat.leb 1 (length e) = true -> forallb (ch_neq ";"%char) e = true ->
  starts_non_ws e = true -> all_ws W2 = true ->
  transform_react tl svg name cjs = Some (P ++ B ++ T "module.exports = " ++ e ++ T ";").
Proof.
  intros Hsvgr Hswc HP HG HW HBA HnBA HnPB He1 He2 He3 HW2.
  unfold transform_react. rewrite Hsvgr, Hswc. f_equal. unfold react_cjs_post, gsub.
  remember (B ++ default_assign_stmt e W2) as BA eqn:HBAe.
  remember (define_default_stmt G W) as D eqn:HD.
  rewrite (gsub_go_skip _ _ _ P (D ++ BA)); [| rewrite length_app; lia | apply no_match_upto_spec; exact HP].
  replace (S (length (P ++ D ++ BA)) - length P) with (S (length (D ++ BA)))
    by (rewrite !length_app; lia).
  rewrite gsub_go_eq. rewrite HD at 1. rewrite exec_define_default by assumption.
  cbv zeta. rewrite firstn_app_exact.
  assert (Hc : exists a t, D = a :: t) by (subst D; eexists _, _; reflexivity).
  destruct Hc as (a & t & Hc). rewrite Hc. cbv beta iota. rewrite app_nil_l.
  rewrite (gsub_go_none _ _ _ BA); [| rewrite length_app; simpl; lia | apply no_match_upto_spec; exact HnBA].
  subst BA. rewrite app_assoc, sub_skip; [| apply no_match_upto_spec; rewrite <- app_assoc; exact HnPB].
  rewrite sub_eq, exec_default_assign by assumption.
  rewrite app_nil_r.
  cbn [get_cap Nat.eqb]. rewrite <- !app_assoc. reflexivity.
Qed.

Lemma react_cjs_rewrites_witness :
  transform_react cjs_tools (T "<svg></svg>") (T "A") cjs =
  Some (cjs_prologue ++ cjs_body ++ T "module.exports = " ++ cjs_export ++ T ";").
Proof.
  apply (react_cjs_rewrites cjs_tools (T "<svg></svg>") (T "A") (T "const ForwardRef = forwardRef(SvgA);")
           cjs_prologue cjs_getter [nl] cjs_body cjs_export [nl]);
    vm_compute; reflexivity.
Defined.

Ltac split_bools :=
  repeat match goal with H : _ && _ = true |- _ => apply andb_prop in H as [? ?] end.

(** C3 (amended): in markup with a single [svg] tag whose attributes
    contain no [>], where [width="vw"] comes before [height="vh"], each
    preceded by a white-space character, the values contain no double
    quote, and no white space in the tag after either attribute is
    directly followed by the same attribute name (attributes such as
    [stroke-width] are allowed), the rewrite before the vue compiler sets
    both values to [1em], turns the white-space character before each of
    the two attributes into a space, and leaves every other character of
    the markup unchanged. *)
Lemma vue_pre_root_dims pre a s1 vw m s2 vh b body :
  free_of (T "<svg") pre = true -> absent (T "<svg") body = true ->
  forallb (ch_neq ">"%char) (a ++ vw ++ m ++ vh ++ b) = true ->
  forallb (ch_neq dq) (vw ++ vh) = true ->
  is_ws s1 = true -> is_ws s2 = true ->
  no_ws_then (T "width=" ++ [dq]) (vw ++ [dq] ++ m ++ [s2] ++ T "height=" ++ [dq] ++ vh ++ [dq] ++ b) = true ->
  no_ws_then (T "height=" ++ [dq]) (vh ++ [dq] ++ b) = true ->
  vue_pre (pre ++ T "<svg" ++ a ++ [s1] ++ T "width=" ++ [dq] ++ vw ++ [dq] ++ m ++
           [s2] ++ T "height=" ++ [dq] ++ vh ++ [dq] ++ b ++ T ">" ++ body) =
  pre ++ T "<svg" ++ a ++ T " width=" ++ [dq] ++ T "1em" ++ [dq] ++ m ++
  T " height=" ++ [dq] ++ T "1em" ++ [dq] ++ b ++ T ">" ++ body.
Proof.
  intros Hpre Hbody Hgt Hdq Hs1 Hs2 Hw Hh.
  rewrite !forallb_app in Hgt. rewrite !forallb_app in Hdq. split_bools.
  assert (Hs2g : ch_neq ">"%char s2 = true)
    by (destruct (ch_neq ">"%char s2) eqn:E; [reflexivity|];
        unfold ch_neq in E; apply negb_false_iff, Ascii.eqb_eq in E; subst s2; discriminate Hs2).
  unfold vue_pre.
  replace (pre ++ T "<svg" ++ a ++ [s1] ++ T "width=" ++ [dq] ++ vw ++ [dq] ++ m ++
           [s2] ++ T "height=" ++ [dq] ++ vh ++ [dq] ++ b ++ T ">" ++ body)
    with (pre ++ svg_tag a s1 (T "width") vw (m ++ [s2] ++ T "height=" ++ [dq] ++ vh ++ [dq] ++ b) ++ body)
    by (unfold svg_tag; rewrite <- !app_assoc; reflexivity).
  rewrite gsub_svg_attr;
    [| reflexivity | reflexivity | reflexivity | exact Hpre | exact Hbody
     | rewrite !forallb_app; cbn [forallb]; repeat match goal with H : forallb _ _ = true |- _ => rewrite H end;
       rewrite Hs2g; reflexivity
     | exact Hs1 | assumption | exact Hw].
  replace (pre ++ svg_tag a " "%char (T "width") (T "1em") (m ++ [s2] ++ T "height=" ++ [dq] ++ vh ++ [dq] ++ b) ++ body)
    with (pre ++ svg_tag (a ++ T " width=" ++ [dq] ++ T "1em" ++ [dq] ++ m) s2 (T "height") vh b ++ body)
    by (unfold svg_tag; rewrite <- !app_assoc; reflexivity).
  rewrite gsub_svg_attr;
    [| reflexivity | reflexivity | reflexivity | exact Hpre | exact Hbody
     | rewrite !forallb_app; repeat match goal with H : forallb _ _ = true |- _ => rewrite H end;
       reflexivity
     | exact Hs2 | assumption | exact Hh].
  unfold svg_tag. rewrite <- !app_assoc. reflexivity.
Qed.

(** The rewrite at [stroked_svg]: the line feed before each of the two
    attributes becomes a space; [stroke-width] is kept. *)
Lemma vue_pre_root_dims_witness :
  vue_pre stroked_svg =
  T "<svg xmlns=" ++ [dq] ++ T "http://www.w3.org/2000/svg" ++ [dq] ++
  T " width=" ++ [dq] ++ T "1em" ++ [dq] ++ T " height=" ++ [dq] ++ T "1em" ++ [dq] ++ [nl] ++
  T "viewBox=" ++ [dq] ++ T "0 0 24 24" ++ [dq] ++ T " fill=" ++ [dq] ++ T "none" ++ [dq] ++
  T " stroke=" ++ [dq] ++ T "currentColor" ++ [dq] ++ T " stroke-width=" ++ [dq] ++ T "2" ++ [dq] ++
  T "><path d=" ++ [dq] ++ T "M5 12h14" ++ [dq] ++ T "/></svg>".
Proof.
  exact (vue_pre_root_dims [] (T " xmlns=" ++ [dq] ++ T "http://www.w3.org/2000/svg" ++ [dq])
           nl (T "24") [] nl (T "24")
           ([nl] ++ T "viewBox=" ++ [dq] ++ T "0 0 24 24" ++ [dq] ++ T " fill=" ++ [dq] ++ T "none" ++ [dq] ++
            T " stroke=" ++ [dq] ++ T "currentColor" ++ [dq] ++ T " stroke-width=" ++ [dq] ++ T "2" ++ [dq])
           (T "<path d=" ++ [dq] ++ T "M5 12h14" ++ [dq] ++ T "/></svg>")
           eq_refl eq_refl eq_refl eq_refl eq_refl eq_refl eq_refl eq_refl).
Defined.

(** C3 counterexample: the [width] of an [svg] element nested in the root
    one is rewritten too. *)
Lemma vue_pre_rewrites_nested_svg :
  vue_pre nested_svg =
  T "<svg width=" ++ [dq] ++ T "1em" ++ [dq] ++ T " height=" ++ [dq] ++ T "1em" ++ [dq] ++
  T "><svg width=" ++ [dq] ++ T "1em" ++ [dq] ++ T "/></svg>".
Proof. vm_compute. reflexivity. Qed.

End BuildClaims.

(** ** Claims on component names *)

Module NamingClaims.
Import Camel NamingProps NamingFacts.

(** C2 (corrected). On a file name made of lowercase words joined by runs
    of ['_'], ['.'] and ['-'] and ending in [.svg], [componentName] (under
    a host locale with the usual case mapping of ASCII letters, as
    [Camel] models it) agrees with the rule of the spec (split on
    non-alphanumeric characters, capitalize each word, drop the
    separators): the name is the concatenation of the words with their
    first letters capitalized. *)
Lemma componentName_lower_words w0 ps
    (Hw0 : lower_word w0 = true) (Hps : words_ok ps = true) :
  componentName (join_words w0 ps ++ T ".svg") =
    spec_componentName (join_words w0 ps ++ T ".svg") /\
  componentName (join_words w0 ps ++ T ".svg") =
    capitalize w0 ++ concat (map (fun p => capitalize (snd p)) ps).
Proof.
  rewrite componentName_words, spec_componentName_words by assumption.
  split; reflexivity.
Qed.

Lemma componentName_lower_words_witness :
  lower_word (T "nextjs") = true /\ words_ok [(T "-", T "dark")] = true /\
  componentName (T "nextjs-dark.svg") = spec_componentName (T "nextjs-dark.svg") /\
  componentName (T "nextjs-dark.svg") = T "NextjsDark".
Proof.
  destruct (componentName_lower_words (T "nextjs") [(T "-", T "dark")]
              eq_refl eq_refl) as [H1 H2].
  split; [reflexivity|]. split; [reflexivity|]. split; [exact H1 | exact H2].
Defined.

(** Outside such names the code departs from the rule: the letters after the
    first of a word are lower-cased, characters that are not word separators
    of [camelcase] such as ['+'] are kept, a letter after a digit is
    capitalized, and only a final [.svg] is removed. *)
Lemma componentName_differs_from_rule :
  componentName (T "AWS-Dark.svg") = T "AwsDark" /\
  spec_componentName (T "AWS-Dark.svg") = T "AWSDark" /\
  componentName (T "c++.svg") = T "C++" /\
  spec_componentName (T "c++.svg") = T "C" /\
  componentName (T "a1b.svg") = T "A1B" /\
  spec_componentName (T "a1b.svg") = T "A1b" /\
  componentName (T "logo.png") = T "LogoPng" /\
  spec_componentName (T "logo.png") = T "Logo".
Proof. vm_compute. repeat split. Qed.

End NamingClaims.

(** ** Claims on the release script *)

Module ReleaseClaims.
Import Release ReleaseProps ReleaseFacts Scenarios.

(** C1: once [main] has rewritten the manifests (the [versionUpdated]
    flag is set), a rejection of [main] makes the handler write the
    pre-release version back to the root manifest and to the manifest of
    every non-private package, after everything [main] did and before
    the process exits with status 1; so each of these manifests ends up
    holding the current version. *)
Theorem rollback_restores_versions (E : env) (e : rerr) (st : state) :
  main E init = (inl e, st) -> updated st = true ->
  events (release E) =
    trace st ++ map (fun p => Write p (current_version E)) (manifest_paths E) ++ [Exit 1] /\
  exit (release E) = 1 /\
  (forall p, In p (manifest_paths E) ->
             last_write p (events (release E)) = Some (current_version E)).
Proof.
  intros H Hu.
  destruct (main_flag_set E _ _ H Hu) as (tv & st1 & st2 & _ & Hv & _).
  pose proof (updatePackagesVersion_inr E tv st1 st2 Hv) as Hok.
  assert (Hrel : release E =
    {| events := trace st ++ map (fun p => Write p (current_version E)) (manifest_paths E) ++ [Exit 1];
       exit := 1 |}).
  { unfold release. rewrite H. cbv iota beta. rewrite Hu.
    rewrite (updatePackagesVersion_ok E (current_version E) st Hok).
    simpl. rewrite <- app_assoc. reflexivity. }
  rewrite Hrel. split; [reflexivity|]. split; [reflexivity|].
  intros p Hp. cbn [events]. apply last_write_after_writes. exact Hp.
Qed.

Lemma rollback_restores_versions_witness :
  events (release env_no_section) =
    trace (snd (main env_no_section init)) ++
    map (fun p => Write p (current_version env_no_section)) (manifest_paths env_no_section) ++ [Exit 1] /\
  exit (release env_no_section) = 1 /\
  (forall p, In p (manifest_paths env_no_section) ->
             last_write p (events (release env_no_section)) = Some (current_version env_no_section)).
Proof.
  apply (rollback_restores_versions env_no_section (ENotIterable (T "changelog section"))
           (snd (main env_no_section init))); vm_compute; reflexivity.
Defined.

(** C8: a run that reaches the changelog prompt with the manifests
    rewritten to [tv] and whose answer is no stops right after the
    changelog command: nothing runs afterwards, no version is written
    back, the process exits with status 0, and every manifest keeps the
    new version [tv]. *)
Theorem changelog_rejected_keeps_bump (E : env) (tv out : text) (st1 st2 : state) :
  main_prelude E init = (inr (Some tv), st1) ->
  updatePackagesVersion E tv st1 = (inr tt, st2) ->
  exec E None changelog_cmd = inl out ->
  ans_changelog E = Some false ->
  events (release E) = trace st2 ++ [Run None changelog_cmd; Exit 0] /\
  exit (release E) = 0 /\
  (forall p, In p (manifest_paths E) -> last_write p (events (release E)) = Some tv).
Proof.
  intros H1 H2 H3 H4.
  assert (Hmain : main E init =
    (inr tt, {| updated := true; trace := trace st2 ++ [Run None changelog_cmd] |})).
  { unfold main, main_release, run, run_in, prompt, bind, emit, set_updated, ret.
    rewrite H1. cbv beta iota. rewrite H2. cbv beta iota. cbn [trace updated].
    rewrite H3. cbv beta iota. rewrite H4. reflexivity. }
  assert (Hrel : release E =
    {| events := trace st2 ++ [Run None changelog_cmd; Exit 0]; exit := 0 |}).
  { unfold release. rewrite Hmain. cbv beta iota. cbn [trace]. rewrite <- app_assoc. reflexivity. }
  rewrite Hrel. split; [reflexivity|]. split; [reflexivity|].
  intros p Hp. cbn [events].
  pose proof (updatePackagesVersion_ok E tv st1 (updatePackagesVersion_inr E tv st1 st2 H2)) as H5.
  rewrite H2 in H5. injection H5 as H5. rewrite H5. cbn [trace]. rewrite <- app_assoc.
  apply (last_write_writes_then p (trace st1) tv (manifest_paths E)); [exact Hp|].
  intros ev [<-|[<-|[]]]; reflexivity.
Qed.

Lemma changelog_rejected_keeps_bump_witness :
  let E := env_changelog_rejected in
  let st1 := snd (main_prelude E init) in
  let st2 := snd (updatePackagesVersion E (T "1.3.0") st1) in
  events (release E) = trace st2 ++ [Run None changelog_cmd; Exit 0] /\
  exit (release E) = 0 /\
  (forall p, In p (manifest_paths E) -> last_write p (events (release E)) = Some (T "1.3.0")).
Proof.
  intros E st1 st2.
  apply (changelog_rejected_keeps_bump E (T "1.3.0") [] st1 st2); vm_compute; reflexivity.
Defined.

(** C10: in a dry run no repository-changing git command (add, commit,
    tag, push) runs and no GitHub release is created; and when such a run
    completes with the changelog accepted, the changelog command, the
    lockfile install and the build did run, every non-private package was
    published with [--dry-run --no-git-checks], and the tag and push
    commands were logged instead of run. *)
Theorem dry_run_replaces_only_git_and_release (E : env) :
  dry E = true ->
  (forall ev, In ev (events (release E)) -> dry_ok ev = true) /\
  (ans_changelog E = Some true -> fst (main E init) = inr tt ->
   updated (snd (main E init)) = true ->
   In (Run None changelog_cmd) (events (release E)) /\
   In (Run None install_cmd) (events (release E)) /\
   In (Run None build_cmd) (events (release E)) /\
   (forall p, In p (packages E) ->
      In (Run (Some (pkg_dir p)) (publish_cmd [T "--dry-run"; T "--no-git-checks"]))
         (events (release E))) /\
   exists tv,
     In (DryLog (T "git tag v" ++ tv)) (events (release E)) /\
     In (DryLog (T "git push origin refs/tags/v" ++ tv)) (events (release E)) /\
     In (DryLog (T "git push")) (events (release E))).
Proof.
  intros Hd. split; [exact (release_events_dry E Hd)|].
  intros Hc Hr Hu.
  destruct (main E init) as [r st] eqn:Hm. cbn [fst snd] in Hr, Hu. subst r.
  assert (Hrel : events (release E) = trace st ++ [Exit 0])
    by (unfold release; rewrite Hm; reflexivity).
  rewrite Hrel.
  cut (In (Run None changelog_cmd) (trace st) /\ In (Run None install_cmd) (trace st) /\
       In (Run None build_cmd) (trace st) /\
       (forall p, In p (packages E) ->
          In (Run (Some (pkg_dir p)) (publish_cmd [T "--dry-run"; T "--no-git-checks"])) (trace st)) /\
       exists tv, In (DryLog (T "git tag v" ++ tv)) (trace st) /\
         In (DryLog (T "git push origin refs/tags/v" ++ tv)) (trace st) /\
         In (DryLog (T "git push")) (trace st)).
  { intros (H1 & H2 & H3 & H4 & tv & H5 & H6 & H7).
    split; [apply in_or_app; left; exact H1|]. split; [apply in_or_app; left; exact H2|].
    split; [apply in_or_app; left; exact H3|].
    split; [intros p Hp; apply in_or_app; left; exact (H4 p Hp)|].
    exists tv. split; [apply in_or_app; left; exact H5|].
    split; apply in_or_app; left; assumption. }
  destruct (main_flag_set E _ _ Hm Hu) as (tv & st1 & st2 & _ & _ & H).
  unfold main_release in H.
  step H. rename H0 into Hs1.
  pose proof (run_in_emits _ _ _ _ _ _ Hs1) as I1.
  ext_of Hs1 G1.
  step H. rename H0 into Hs2. unfold prompt in Hs2. rewrite Hc in Hs2.
  unfold ret in Hs2. inversion Hs2; subst. cbv beta iota delta [negb] in H.
  step H. rename H0 into Hs3.
  pose proof (run_in_emits _ _ _ _ _ _ Hs3) as I2.
  ext_of Hs3 G2.
  step H. rename H0 into Hs4.
  ext_of Hs4 G3.
  step H. rename H0 into Hs5.
  ext_of Hs5 G4.
  step H. rename H0 into Hs6.
  pose proof (runIfNotDry_dry _ _ _ _ _ Hd Hs6) as I3.
  ext_of Hs6 G5.
  step H. rename H0 into Hs7.
  pose proof (runIfNotDry_dry _ _ _ _ _ Hd Hs7) as I4.
  ext_of Hs7 G6.
  step H. rename H0 into Hs8.
  pose proof (runIfNotDry_dry _ _ _ _ _ Hd Hs8) as I5.
  ext_of Hs8 G7.
  step H. rename H0 into Hs9.
  ext_of Hs9 G8.
  step H. rename H0 into Hs10.
  pose proof (run_in_emits _ _ _ _ _ _ Hs10) as I6.
  ext_of Hs10 G9.
  ext_of H G10.
  unfold publishPackages, publish_flags in H. rewrite Hd in H.
  pose proof (publish_each _ _ _ _ _ _ H) as I7.
  carry.
  split; [exact I1|]. split; [exact I2|]. split; [exact I6|]. split; [exact I7|].
  exists tv. split; [exact I3|]. split; [exact I4|]. exact I5.
Qed.

Lemma dry_run_replaces_only_git_and_release_witness :
  (forall ev, In ev (events (release env_dry)) -> dry_ok ev = true) /\
  (ans_changelog env_dry = Some true -> fst (main env_dry init) = inr tt ->
   updated (snd (main env_dry init)) = true ->
   In (Run None changelog_cmd) (events (release env_dry)) /\
   In (Run None install_cmd) (events (release env_dry)) /\
   In (Run None build_cmd) (events (release env_dry)) /\
   (forall p, In p (packages env_dry) ->
      In (Run (Some (pkg_dir p)) (publish_cmd [T "--dry-run"; T "--no-git-checks"]))
         (events (release env_dry))) /\
   exists tv,
     In (DryLog (T "git tag v" ++ tv)) (events (release env_dry)) /\
     In (DryLog (T "git push origin refs/tags/v" ++ tv)) (events (release env_dry)) /\
     In (DryLog (T "git push")) (events (release env_dry))).
Proof. apply (dry_run_replaces_only_git_and_release env_dry). reflexivity. Defined.

(** C4: an invalid target version is rejected with the error
    [Invalid target version: v] before any manifest is written, and the
    process exits with status 1.  A changelog without a section for the
    target version [tv] is not checked: destructuring the failed match
    throws a generic [TypeError] (whose wording is the engine's), and only
    after the manifests were rewritten to [tv], the changelog and lockfile
    commands ran and, outside a dry run, the release commit (when
    [git diff] showed changes), the tag and the pushes were made; the
    handler then writes the current version back to every manifest and
    the process exits with status 1. *)
Theorem validation_errors (E : env) :
  (forall v, fst (main E init) = inl (EInvalidVersion v) ->
     valid E v = false /\
     message E (EInvalidVersion v) = T "Invalid target version: " ++ v /\
     (forall ev, In ev (events (release E)) -> is_write ev = false) /\
     exit (release E) = 1) /\
  (fst (main E init) = inl (ENotIterable section_site) ->
     exists tv,
       search (section_re tv) (changelog E) = None /\
       (forall p, In p (manifest_paths E) -> In (Write p tv) (trace (snd (main E init)))) /\
       In (Run None changelog_cmd) (trace (snd (main E init))) /\
       In (Run None install_cmd) (trace (snd (main E init))) /\
       (dry E = false ->
          (forall out, exec E None (T "git diff") = inl out -> trim out <> [] ->
             In (Run None (T "git add -A")) (trace (snd (main E init))) /\
             In (Run None (commit_cmd tv)) (trace (snd (main E init)))) /\
          In (Run None (T "git tag v" ++ tv)) (trace (snd (main E init))) /\
          In (Run None (T "git push origin refs/tags/v" ++ tv)) (trace (snd (main E init))) /\
          In (Run None (T "git push")) (trace (snd (main E init)))) /\
       events (release E) =
         trace (snd (main E init)) ++
         map (fun p => Write p (current_version E)) (manifest_paths E) ++ [Exit 1] /\
       exit (release E) = 1).
Proof.
  split.
  - intros v Hr. destruct (main E init) as [r st] eqn:Hm. cbn [fst snd] in Hr. subst r.
    pose proof (main_invalid_from_prelude E v st Hm) as Hp.
    pose proof (main_prelude_raises E _ _ _ Hp) as Hv. cbn [prelude_err] in Hv.
    assert (Hinit : no_write init) by (intros ev []).
    pose proof (main_prelude_no_write E init Hinit) as Hnw.
    rewrite (snd_eq _ _ _ _ Hp) in Hnw.
    pose proof (main_prelude_flag E false init eq_refl) as Hf. rewrite (snd_eq _ _ _ _ Hp) in Hf.
    assert (Hrel : release E = {| events := trace st ++ [Exit 1]; exit := 1 |}).
    { unfold release. rewrite Hm. cbv beta iota. rewrite Hf. reflexivity. }
    rewrite Hrel. split; [destruct (valid E v); [discriminate Hv | reflexivity]|].
    split; [reflexivity|]. split; [|reflexivity].
    intros ev Hin. cbn [events] in Hin.
    apply in_app_or in Hin as [Hin|[<-|[]]]; [exact (Hnw ev Hin)|reflexivity].
  - intros Hr.
    destruct (main E init) as [r st] eqn:Hm. cbn [fst snd] in Hr |- *. subst r.
    pose proof Hm as Hm0. unfold main in Hm.
    apply bind_cases in Hm as [[e [Hp Heq]]|[o [st1 [Hp H]]]].
    { injection Heq as <-. pose proof (main_prelude_raises E _ _ _ Hp) as Hx. discriminate Hx. }
    destruct o as [tv|]; [|discriminate H].
    apply bind_cases in H as [[e [Hv Heq]]|[u [st2 [Hv H]]]].
    { injection Heq as <-. pose proof (updatePackagesVersion_raises E tv _ _ _ Hv) as Hx.
      discriminate Hx. }
    destruct u.
    apply bind_cases in H as [[e [Hs _]]|[u' [st3 [Hs H]]]]; [discriminate Hs|].
    unfold set_updated in Hs. inversion Hs; subst st3 u'. clear Hs.
    pose proof (main_release_flag E tv true {| updated := true; trace := trace st2 |} eq_refl) as Hf.
    rewrite (snd_eq _ _ _ _ H) in Hf.
    pose proof (updatePackagesVersion_inr E tv st1 st2 Hv) as Hok.
    assert (Hrel : release E =
      {| events := trace st ++ map (fun p => Write p (current_version E)) (manifest_paths E) ++ [Exit 1];
         exit := 1 |}).
    { unfold release. rewrite Hm0. cbv beta iota. rewrite Hf.
      rewrite (updatePackagesVersion_ok E (current_version E) st Hok).
      simpl. rewrite <- app_assoc. reflexivity. }
    assert (Ht : trace st2 = trace st1 ++ map (fun p => Write p tv) (manifest_paths E)).
    { pose proof (updatePackagesVersion_ok E tv st1 Hok) as Hw.
      pose proof (f_equal (fun x => trace (snd x)) Hw) as X. rewrite Hv in X. exact X. }
    assert (I0 : forall p, In p (manifest_paths E) ->
                 In (Write p tv) (trace {| updated := true; trace := trace st2 |})).
    { intros p Hin. cbn [trace]. rewrite Ht. apply in_or_app. right.
      apply in_map_iff. exists p. split; [reflexivity | exact Hin]. }
    unfold main_release in H.
    step_err H Hs1. pose proof (run_in_emits _ _ _ _ _ _ Hs1) as I1. ext_of Hs1 G1.
    step_err H Hs2. ext_of Hs2 G2.
    lazymatch type of H with
    | (if ?b then _ else _) _ = _ => destruct b; [discriminate H|]
    end.
    step_err H Hs3. pose proof (run_in_emits _ _ _ _ _ _ Hs3) as I2. ext_of Hs3 G3.
    step_err H Hs4. ext_of Hs4 G4.
    step_err H Hs5. ext_of Hs5 G5.
    step_err H Hs6. ext_of Hs6 G6.
    step_err H Hs7. ext_of Hs7 G7.
    step_err H Hs8. ext_of Hs8 G8.
    apply bind_cases in H as [[e [Hs9 Heq]]|[u9 [s9 [Hs9 H]]]].
    2: { exfalso. step_err H Hs10. no_section H. }
    injection Heq as <-.
    unfold publishGitHubRelease in Hs9.
    apply bind_cases in Hs9 as [[e [Hg Heq]]|[info [s10 [Hg Hs9]]]].
    { injection Heq as <-. exfalso. no_section Hg. }
    ext_of Hg G9.
    destruct (search (section_re tv) (changelog E)) as [c|] eqn:Hsec.
    { exfalso. cbv zeta in Hs9. destruct (dry E); [discriminate Hs9|].
      destruct (token E); [destruct (release_ok E)|]; discriminate Hs9. }
    unfold throw in Hs9. inversion Hs9; subst st. clear Hs9.
    exists tv. split; [exact Hsec|].
    split; [intros p Hpm; specialize (I0 p Hpm); carry; exact I0|].
    split; [carry; exact I1|]. split; [carry; exact I2|].
    split; [|rewrite Hrel; split; reflexivity].
    intros Hd.
    pose proof (runIfNotDry_wet E _ _ _ _ Hd Hs6) as I3.
    pose proof (runIfNotDry_wet E _ _ _ _ Hd Hs7) as I4.
    pose proof (runIfNotDry_wet E _ _ _ _ Hd Hs8) as I5.
    carry. split; [|split; [exact I3|]; split; [exact I4|exact I5]].
    intros out He Hn.
    lazymatch type of Hs4 with
    | _ = (inr ?c, _) => pose proof (isWorkspaceClean_dirty E out _ c _ He Hn Hs4) as Hc; subst c
    end.
    cbn [negb] in Hs5. destruct (commit_block_wet E tv _ _ _ Hd Hs5) as [I6 I7].
    carry. split; [exact I6|exact I7].
Qed.

Lemma validation_errors_missing_section_after_push :
  fst (main env_no_section init) = inl (ENotIterable section_site) /\
  occurs (Write root_manifest (T "1.3.0")) (trace (snd (main env_no_section init))) = true /\
  occurs (Run None (T "git tag v1.3.0")) (trace (snd (main env_no_section init))) = true /\
  occurs (Run None (T "git push")) (trace (snd (main env_no_section init))) = true.
Proof. vm_compute. repeat split. Qed.

End ReleaseClaims.

(** ** Further properties of the build script *)

Module BuildExtras.
Import TextProps RegexFacts Build BuildScenarios BuildExtraProps ExtraFacts TextExtraFacts BuildExtraFacts.

(** [getIcons] succeeds exactly when the assets directory lists and
    every listed file reads; the icons then come in the order of the
    files, each with the file's content and the component name of the
    file name. *)
Theorem getIcons_ok fs icons :
  getIcons fs = inr icons <->
  exists files, assets fs = Some files /\
    Forall2 (fun f ic => read_asset fs f = Some (svg ic) /\ name ic = componentName f) files icons.
Proof.
  unfold getIcons. destruct (assets fs) as [files|].
  - change (first_err (map (fun file => _) files)) with (first_err (map (read_icon fs) files)). rewrite first_err_inr, map_read_icon. split.
    + intro H. exists files. split; [reflexivity|exact H].
    + intros [f [Hf H]]. inversion Hf; subst. exact H.
  - split; [discriminate|]. intros [f [Hf _]]. discriminate Hf.
Qed.

(** Every file a build writes lies in the output directory
    [./packages/<target>/<format>]. *)
Theorem build_writes_under_out_dir tl fs target fmt p c :
  In (p, c) (writes (build tl fs target fmt)) ->
  exists r, p = out_dir target fmt ++ T "/" ++ r.
Proof.
  unfold build. cbv zeta. destruct (getIcons fs) as [e|icons]; [simpl; tauto|].
  assert (Hws : In (p, c) (concat (map (fun r => snd (fst r))
                 (map (icon_task tl fs target fmt (out_dir target fmt)) icons))) ->
                exists r, p = out_dir target fmt ++ T "/" ++ r).
  { intro H. apply in_concat in H as [l [Hl Hin]]. rewrite map_map in Hl.
    apply in_map_iff in Hl as [ic [<- _]]. eapply icon_task_writes. exact Hin. }
  destruct (first_some_err _); [exact Hws|].
  destruct (write_ok fs _); [destruct (write_ok fs _)|]; simpl; intro H;
    repeat (apply in_app_or in H; destruct H as [H|H]); try (exact (Hws H));
    simpl in H; repeat destruct H as [H|H]; try (inversion H; subst; eexists; reflexivity); tauto.
Qed.

Lemma build_writes_under_out_dir_witness :
  exists r, T "./packages/react/esm/A.js" = out_dir (Some (T "react")) esm ++ T "/" ++ r.
Proof.
  apply (build_writes_under_out_dir sample_tools fs_ok (Some (T "react")) esm
           (T "./packages/react/esm/A.js") (T "const Component = () => null;")).
  vm_compute. left. reflexivity.
Defined.

(** With a target other than [react], [vue] and the names of the methods
    inherited from [Object.prototype], and at least one icon, the script
    logs the [TypeError] of the missing transform once, writes nothing and
    exits with status 0. *)
Theorem main_unknown_target tl fs target ic ics :
  (forall t, target = Some t -> t <> T "react" /\ t <> T "vue" /\ ~ In t proto_methods) ->
  getIcons fs = inr (ic :: ics) ->
  main tl fs target = {| logged := [BNoTransform]; written := []; exit_code := 0 |}.
Proof.
  intros Ht Hg. pose proof (transform_none tl target Ht) as Hn. unfold main.
  rewrite !(build_no_transform tl fs target _ ic ics Hn Hg). reflexivity.
Qed.

Lemma main_unknown_target_witness :
  main sample_tools fs_ok (Some (T "svelte")) = {| logged := [BNoTransform]; written := []; exit_code := 0 |}.
Proof.
  apply (main_unknown_target sample_tools fs_ok (Some (T "svelte"))
           {| svg := T "<svg></svg>"; name := T "A" |} []).
  - intros t Ht. injection Ht as <-. split; [|split].
    + vm_compute. discriminate.
    + vm_compute. discriminate.
    + intro Hin. apply existsb_text_eqb in Hin. vm_compute in Hin. discriminate Hin.
  - vm_compute. reflexivity.
Defined.

(** With an empty assets directory, each format gets an empty
    [index.js] and an empty [index.d.ts], and nothing else is written
    or logged. *)
Theorem main_no_assets tl fs target :
  assets fs = Some [] -> (forall p, write_ok fs p = true) ->
  main tl fs target =
  {| logged := [];
     written := [(out_dir target esm ++ T "/index.js", []); (out_dir target esm ++ T "/index.d.ts", []);
                 (out_dir target cjs ++ T "/index.js", []); (out_dir target cjs ++ T "/index.d.ts", [])];
     exit_code := 0 |}.
Proof.
  intros Ha Hw. unfold main, build, getIcons. rewrite Ha. cbn [map first_err first_some_err concat].
  rewrite !Hw. reflexivity.
Qed.

Lemma main_no_assets_witness :
  main sample_tools fs_empty (Some (T "react")) =
  {| logged := [];
     written := [(out_dir (Some (T "react")) esm ++ T "/index.js", []);
                 (out_dir (Some (T "react")) esm ++ T "/index.d.ts", []);
                 (out_dir (Some (T "react")) cjs ++ T "/index.js", []);
                 (out_dir (Some (T "react")) cjs ++ T "/index.d.ts", [])];
     exit_code := 0 |}.
Proof. apply main_no_assets; [reflexivity | intro p; reflexivity]. Defined.


(** With the target [toString] or [toLocaleString], [transforms[target]]
    finds the method inherited from [Object.prototype]: when every write
    succeeds, each icon's module file holds the text [[object Object]],
    nothing is logged and the process exits with status 0. *)
Theorem main_inherited_string_target tl fs t icons :
  In t [T "toString"; T "toLocaleString"] ->
  getIcons fs = inr icons -> (forall p, write_ok fs p = true) ->
  logged (main tl fs (Some t)) = [] /\ exit_code (main tl fs (Some t)) = 0 /\
  (forall fmt ic, In ic icons ->
     In (out_dir (Some t) fmt ++ T "/" ++ name ic ++ T ".js", T "[object Object]")
        (written (main tl fs (Some t)))).
Proof.
  intros Ht Hg Hw.
  assert (Htr : transform tl (Some t) = Some (fun _ _ _ => inr (CText (T "[object Object]"))))
    by (destruct Ht as [<-|[<-|[]]]; reflexivity).
  assert (Hb : forall fmt, build tl fs (Some t) fmt =
    {| awaited := None;
       writes := concat (map (fun ic =>
                   [(out_dir (Some t) fmt ++ T "/" ++ name ic ++ T ".js", T "[object Object]");
                    (out_dir (Some t) fmt ++ T "/" ++ name ic ++ T ".d.ts", types_text (Some t) (name ic))])
                   icons) ++
                 [(out_dir (Some t) fmt ++ T "/index.js", exportAll (map name icons) fmt);
                  (out_dir (Some t) fmt ++ T "/index.d.ts", exportAll (map name icons) esm)];
       detached := concat (map (fun _ => []) icons) |}).
  { intro fmt. apply build_tasks_ok; [exact Hg | | exact Hw].
    intro ic. unfold icon_task. rewrite Htr. cbv beta iota. unfold ensure_write. rewrite !Hw. reflexivity. }
  assert (Hnil : concat (map (fun _ : icon => @nil berr) icons) = [])
    by (clear; induction icons as [|ic icons IH]; [reflexivity | exact IH]).
  split; [|split].
  - unfold main. rewrite !Hb. reflexivity.
  - unfold main. rewrite !Hb. cbn [detached exit_code]. rewrite Hnil. reflexivity.
  - intros fmt ic Hic.
    assert (Hin : forall f, In (out_dir (Some t) f ++ T "/" ++ name ic ++ T ".js", T "[object Object]")
                    (writes (build tl fs (Some t) f))).
    { intro f. rewrite Hb. cbn [writes]. apply in_or_app. left. apply in_concat.
      eexists. split; [apply in_map_iff; exists ic; split; [reflexivity | exact Hic] | left; reflexivity]. }
    unfold main. cbn [written]. apply in_or_app. destruct fmt; [left | right]; apply Hin.
Qed.

Lemma main_inherited_string_target_witness :
  logged (main sample_tools fs_ok (Some (T "toString"))) = [] /\
  exit_code (main sample_tools fs_ok (Some (T "toString"))) = 0 /\
  (forall fmt ic, In ic [{| svg := T "<svg></svg>"; name := T "A" |}] ->
     In (out_dir (Some (T "toString")) fmt ++ T "/" ++ name ic ++ T ".js", T "[object Object]")
        (written (main sample_tools fs_ok (Some (T "toString"))))).
Proof.
  apply (main_inherited_string_target sample_tools fs_ok (T "toString")).
  - left. reflexivity.
  - vm_compute. reflexivity.
  - intro p. reflexivity.
Defined.

(** With the target [valueOf], [constructor], [hasOwnProperty],
    [isPrototypeOf], [propertyIsEnumerable], [__lookupGetter__] or
    [__lookupSetter__], the inherited method returns a value that is not
    a string: with at least one icon, writing its module file rejects,
    unawaited, so that even when the file system accepts every write
    nothing is logged and the process exits with status 1. *)
Theorem main_inherited_value_target tl fs t ic ics :
  In t [T "valueOf"; T "constructor"; T "hasOwnProperty"; T "isPrototypeOf";
        T "propertyIsEnumerable"; T "__lookupGetter__"; T "__lookupSetter__"] ->
  getIcons fs = inr (ic :: ics) -> (forall p, write_ok fs p = true) ->
  logged (main tl fs (Some t)) = [] /\ exit_code (main tl fs (Some t)) = 1.
Proof.
  intros Ht Hg Hw.
  assert (Htr : transform tl (Some t) = Some (fun _ _ _ => inr CValue))
    by (destruct Ht as [<-|[<-|[<-|[<-|[<-|[<-|[<-|[]]]]]]]]; reflexivity).
  assert (Hb : forall fmt, build tl fs (Some t) fmt =
    {| awaited := None;
       writes := concat (map (fun ic =>
                   [(out_dir (Some t) fmt ++ T "/" ++ name ic ++ T ".d.ts", types_text (Some t) (name ic))])
                   (ic :: ics)) ++
                 [(out_dir (Some t) fmt ++ T "/index.js", exportAll (map name (ic :: ics)) fmt);
                  (out_dir (Some t) fmt ++ T "/index.d.ts", exportAll (map name (ic :: ics)) esm)];
       detached := concat (map (fun ic => [BWrite (out_dir (Some t) fmt ++ T "/" ++ name ic ++ T ".js")])
                     (ic :: ics)) |}).
  { intro fmt. apply build_tasks_ok; [exact Hg | | exact Hw].
    intro ic'. unfold icon_task. rewrite Htr. cbv beta iota. unfold ensure_write. rewrite !Hw. reflexivity. }
  unfold main. rewrite !Hb. cbn [awaited detached writes logged exit_code written map concat app].
  split; reflexivity.
Qed.

Lemma main_inherited_value_target_witness :
  logged (main sample_tools fs_ok (Some (T "valueOf"))) = [] /\
  exit_code (main sample_tools fs_ok (Some (T "valueOf"))) = 1.
Proof.
  apply (main_inherited_value_target sample_tools fs_ok (T "valueOf") {| svg := T "<svg></svg>"; name := T "A" |} []).
  - left. reflexivity.
  - vm_compute. reflexivity.
  - intro p. reflexivity.
Defined.

(** The index file has one line per component name, in order, each the
    export line of its name, when no name holds a line feed. *)
Theorem exportAll_lines names fmt :
  names <> [] -> Forall (fun n => forallb (ch_neq nl) n = true) names ->
  split_on nl (exportAll names fmt) = map (export_line fmt) names.
Proof.
  intros Hne Hf. unfold split_on, exportAll. apply split_join.
  - apply Ascii.eqb_refl.
  - destruct names; [congruence|discriminate].
  - apply Forall_map. eapply Forall_impl; [|exact Hf]. intros n Hn. apply export_line_no_nl, Hn.
Qed.

Lemma exportAll_lines_witness :
  split_on nl (exportAll [T "A"; T "B"] esm) = map (export_line esm) [T "A"; T "B"].
Proof. apply exportAll_lines; [discriminate | repeat constructor]. Defined.

End BuildExtras.

(** ** Further properties of the Vue transform *)

Module VueExtras.
Import TextProps RegexFacts Build NamingFacts BuildExtraProps ExtraFacts TextExtraFacts
       VueFacts VueRewriteFacts.

(** The ESM post-processing of the Vue output turns the first
    [export function] into [export default function] and leaves the text
    before and after it as it is. *)
Theorem vue_esm_post_first pre post :
  free_of (T "export function") pre = true ->
  vue_esm_post (pre ++ T "export function" ++ post) = pre ++ T "export default function" ++ post.
Proof. intro H. unfold vue_esm_post. apply sub_lit_first, H. Qed.

Lemma vue_esm_post_first_witness :
  vue_esm_post (T "import { openBlock } from 'vue'" ++ T "export function" ++ T " render() {}") =
  T "import { openBlock } from 'vue'" ++ T "export default function" ++ T " render() {}".
Proof. apply vue_esm_post_first. vm_compute. reflexivity. Defined.

(** The CommonJS post-processing of the Vue output turns the first named
    import [import { a as b, ... } from "m"] into
    [const { a: b, ... } = require("m")] and then the first
    [export function render] into [module.exports = function render],
    keeping everything else. *)
Theorem vue_cjs_post_rewrites pre items m mid post :
  items <> [] -> items_ok items = true -> forallb module_char m = true ->
  free_of (T "import") pre = true ->
  free_of (T "export function render") (pre ++ require_stmt items m ++ mid) = true ->
  vue_cjs_post (pre ++ import_stmt items m ++ mid ++ T "export function render" ++ post) =
  pre ++ require_stmt items m ++ mid ++ T "module.exports = function render" ++ post.
Proof.
  intros Hne Hok Hm Hpre Hr. unfold vue_cjs_post. rewrite sub_import by assumption.
  rewrite !app_assoc. rewrite <- (app_assoc _ (T "export function render")).
  rewrite sub_lit_first by (rewrite <- app_assoc; exact Hr). rewrite <- !app_assoc. reflexivity.
Qed.

Lemma vue_cjs_post_rewrites_witness :
  vue_cjs_post ([] ++ import_stmt [(T "openBlock", T "_openBlock"); (T "createElementBlock", T "_createElementBlock")] (T "vue")
                ++ [nl; nl] ++ T "export function render" ++ T "(_ctx, _cache) {}") =
  [] ++ require_stmt [(T "openBlock", T "_openBlock"); (T "createElementBlock", T "_createElementBlock")] (T "vue")
     ++ [nl; nl] ++ T "module.exports = function render" ++ T "(_ctx, _cache) {}".
Proof. apply vue_cjs_post_rewrites; [discriminate | vm_compute; reflexivity ..]. Defined.

End VueExtras.

(** ** Further properties of the component names *)

Module NamingExtras.
Import TextProps RegexFacts Camel NamingProps NamingFacts ExtraFacts TextExtraFacts
       NamingExtraFacts.

(** A file name that does not end in [.svg] keeps its whole text,
    extension included, as the input of [camelcase]. *)
Theorem componentName_no_svg_ext file :
  (forall pre, file <> pre ++ T ".svg") -> componentName file = camelcase_pascal file.
Proof.
  intro H. unfold componentName. rewrite sub_none; [reflexivity|].
  intros i Hi. destruct (exec svg_ext (skipn i file)) as [r|] eqn:E; [|reflexivity].
  apply exec_svg_ext_inv in E. exfalso. apply (H (firstn i file)).
  rewrite <- E. symmetry. apply firstn_skipn.
Qed.

Lemma componentName_no_svg_ext_witness :
  componentName (T "logo.png") = camelcase_pascal (T "logo.png").
Proof.
  apply componentName_no_svg_ext. intros pre Hp.
  apply (f_equal (@rev ascii)) in Hp. rewrite rev_app_distr in Hp. discriminate Hp.
Defined.

(** A file name made only of separators ([-], [_], [.], spaces) before
    [.svg] gives the empty component name. *)
Theorem componentName_separators_only name :
  forallb is_sep name = true -> componentName (name ++ T ".svg") = [].
Proof. intro H. rewrite componentName_svg. apply camelcase_pascal_seps, H. Qed.

Lemma componentName_separators_only_witness : componentName (T "-_" ++ T ".svg") = [].
Proof. apply componentName_separators_only. reflexivity. Defined.

(** For lower-case words, which separator joins them in the file name
    does not change the component name. *)
Theorem componentName_separator_blind w0 ps ps' :
  lower_word w0 = true -> words_ok ps = true -> words_ok ps' = true -> map snd ps = map snd ps' ->
  componentName (join_words w0 ps ++ T ".svg") = componentName (join_words w0 ps' ++ T ".svg").
Proof.
  intros Hw Hp Hp' Hs. rewrite !componentName_words by assumption.
  rewrite <- (map_map snd capitalize ps), <- (map_map snd capitalize ps'), Hs. reflexivity.
Qed.

Lemma componentName_separator_blind_witness :
  componentName (join_words (T "nextjs") [(T "-", T "dark")] ++ T ".svg") =
  componentName (join_words (T "nextjs") [(T "__", T "dark")] ++ T ".svg").
Proof. apply componentName_separator_blind; reflexivity. Defined.

End NamingExtras.

(** ** Further properties of the release script *)

Module ReleaseExtras.
Import TextProps Release ReleaseProps ReleaseFacts Scenarios ReleaseExtraProps ReleaseRegexFacts
       ReleaseExtraFacts ExtraFacts.

(** Off the [main] branch the script asks nothing and changes nothing:
    it runs [git branch --show-current], then exits with status 0. *)
Theorem release_off_main E out :
  exec E None branch_cmd = inl out -> trim out <> T "main" ->
  release E = {| events := [Run None branch_cmd; Exit 0]; exit := 0 |}.
Proof.
  intros H1 H2.
  assert (Hm : main E init = (inr tt, {| updated := false; trace := [Run None branch_cmd] |})).
  { unfold main, main_prelude, isMainBranch, run, run_in, bind, emit, ret.
    fold branch_cmd. rewrite H1. cbv beta iota. rewrite (text_eqb_false _ _ H2). reflexivity. }
  unfold release. rewrite Hm. reflexivity.
Qed.

Lemma release_off_main_witness :
  release env_feature_branch = {| events := [Run None branch_cmd; Exit 0]; exit := 0 |}.
Proof. apply (release_off_main env_feature_branch (T ("feature" ++ nl_str))); vm_compute; [reflexivity | discriminate]. Defined.

(** On [main], when the [origin] URL holds no [github.com/], the sync
    check finds no repository and the script stops with status 0 after
    the two git queries, before any prompt or write. *)
Theorem release_remote_not_github E out remote :
  exec E None branch_cmd = inl out -> trim out = T "main" ->
  exec E None remote_cmd = inl remote -> absent (T "github.com/") (trim remote) = true ->
  release E = {| events := [Run None branch_cmd; Run None remote_cmd; Exit 0]; exit := 0 |}.
Proof.
  intros H1 H2 H3 H4.
  assert (Hm : main E init =
    (inr tt, {| updated := false; trace := [Run None branch_cmd; Run None remote_cmd] |})).
  { unfold main, main_prelude, isMainBranch, isInSyncWithRemote, getRepoInfo, run, run_in,
      try_catch, bind, emit, ret.
    fold branch_cmd remote_cmd. rewrite H1. cbv beta iota. rewrite H2, text_eqb_refl.
    cbn [negb trace updated init]. rewrite H3. cbv beta iota. rewrite (search_repo_absent _ H4).
    reflexivity. }
  unfold release. rewrite Hm. reflexivity.
Qed.

Lemma release_remote_not_github_witness :
  release env_ssh_remote =
  {| events := [Run None branch_cmd; Run None remote_cmd; Exit 0]; exit := 0 |}.
Proof.
  apply (release_remote_not_github env_ssh_remote (T ("main" ++ nl_str))
           (T ("git@github.com:985563349/skill-icons.git" ++ nl_str))); vm_compute; reflexivity.
Defined.

(** [getRepoInfo] reads the owner and the repository name out of the
    first [github.com/owner/repo] of the trimmed [origin] URL, a trailing
    [.git] removed, after running [git remote get-url origin]. *)
Theorem getRepoInfo_github E st remote pre owner repo suf :
  exec E None remote_cmd = inl remote ->
  trim remote = pre ++ T "github.com/" ++ owner ++ "/"%char :: repo ++ suf ->
  free_of (T "github.com/") pre = true ->
  forallb (ch_neq "/"%char) owner = true -> owner <> [] ->
  forallb (ch_neq "/"%char) repo = true -> repo <> [] ->
  repo_suffix_ok repo suf ->
  getRepoInfo E st =
    (inr (owner, repo), {| updated := updated st; trace := trace st ++ [Run None remote_cmd] |}).
Proof.
  intros H1 H2 Hpre Ho Hone Hr Hrne Hsuf.
  unfold getRepoInfo, run, run_in, bind, emit, ret. fold remote_cmd. rewrite H1. cbv beta iota.
  rewrite H2, search_repo by assumption. reflexivity.
Qed.

Lemma getRepoInfo_github_witness :
  getRepoInfo env_no_section init =
    (inr (T "985563349", T "skill-icons"),
     {| updated := updated init; trace := trace init ++ [Run None remote_cmd] |}).
Proof.
  apply (getRepoInfo_github env_no_section init (T "https://github.com/985563349/skill-icons.git")
           (T "https://") (T "985563349") (T "skill-icons") (T ".git"));
    [vm_compute; reflexivity .. | discriminate | vm_compute; reflexivity | discriminate | left; reflexivity].
Defined.

(** Without a version argument, picking one of the three release types
    in the prompt gives [semver.inc] of that type as the target version,
    read back from the parentheses of the choice; the state is left as
    it is. *)
Theorem select_version_release_type E n st :
  (positional E = None \/ positional E = Some []) ->
  ans_select E = Some n -> n < 3 ->
  forallb (fun x => negb (is_line_term x)) (inc E (nth n releaseTypes [])) = true ->
  select_version E st = (inr (inc E (nth n releaseTypes [])), st).
Proof.
  intros Hpos Hans Hn Hv.
  assert (Hc : text_eqb (nth n (choices E) []) (T "custom") = false).
  { rewrite nth_choices by exact Hn. apply text_eqb_false.
    destruct n as [|[|[|n]]]; [discriminate..|lia]. }
  assert (Hs : search paren_re (nth n (choices E) []) = Some (set_cap 1 (inc E (nth n releaseTypes [])) [])).
  { rewrite nth_choices by exact Hn. apply search_paren; [|exact Hv].
    destruct n as [|[|[|n]]]; [reflexivity..|lia]. }
  unfold select_version. destruct Hpos as [-> | ->];
    unfold bind, prompt, ret; rewrite Hans; cbv beta iota; rewrite Hc, Hs; reflexivity.
Qed.

Lemma select_version_release_type_witness :
  select_version env_no_section init = (inr (T "1.3.0"), init).
Proof.
  apply (select_version_release_type env_no_section 1 init); [left; reflexivity | reflexivity | lia | vm_compute; reflexivity].
Defined.

End ReleaseExtras.

Module ReleaseExtras2.
Import TextProps Release ReleaseProps ReleaseFacts Scenarios ReleaseExtraProps ReleaseRegexFacts
       ReleaseExtraFacts ExtraFacts.

(** When [npm publish] fails in a package directory, the failure is
    ignored if its message contains [previously published] and is
    rethrown as a command error otherwise; either way the only new event
    is the publish command. *)
Theorem publishPackage_failure E p v fl st msg :
  exec E (Some (pkg_dir p)) (publish_cmd fl) = inr msg ->
  let st1 := {| updated := updated st; trace := trace st ++ [Run (Some (pkg_dir p)) (publish_cmd fl)] |} in
  ((exists a b, msg = a ++ T "previously published" ++ b) -> publishPackage E p v fl st = (inr tt, st1)) /\
  (absent (T "previously published") msg = true ->
   publishPackage E p v fl st = (inl (ECommand (publish_cmd fl) msg), st1)).
Proof.
  intros H st1. unfold publishPackage, try_catch, run_in, bind, emit, ret, throw.
  rewrite H. cbv beta iota. cbn [message]. split.
  - intros (a & b & ->).
    destruct (search (lit (T "previously published")) (a ++ T "previously published" ++ b)) eqn:Es.
    + reflexivity.
    + exfalso. exact (search_lit_present _ a b Es).
  - intro Ha. rewrite search_lit_absent by (discriminate || exact Ha). reflexivity.
Qed.

Lemma publishPackage_failure_witness :
  publishPackage env_publish_conflict (T "react") (T "1.3.0") [] init =
    (inr tt, {| updated := updated init;
                trace := trace init ++ [Run (Some (pkg_dir (T "react"))) (publish_cmd [])] |}).
Proof.
  apply (proj1 (publishPackage_failure env_publish_conflict (T "react") (T "1.3.0") [] init
                  (T "npm ERR! You cannot publish over the previously published versions: 1.3.0.")
                  ltac:(vm_compute; reflexivity))).
  exists (T "npm ERR! You cannot publish over the "), (T " versions: 1.3.0.").
  vm_compute. reflexivity.
Defined.

(** When the root manifest is rewritten but the manifest of one of the
    packages cannot be read, the script fails with status 1 and the last
    version written to the root manifest is still the new one: the
    rollback only runs once the flag [updated] is set, after all the
    manifests are written. *)
Theorem manifest_failure_keeps_new_root E tv st1 q :
  main_prelude E init = (inr (Some tv), st1) ->
  manifest_ok E root_manifest = true ->
  In q (packages E) -> manifest_ok E (pkg_manifest q) = false ->
  exit (release E) = 1 /\ last_write root_manifest (events (release E)) = Some tv.
Proof.
  intros Hp Hr Hin Hq.
  pose proof (main_prelude_flag E false init eq_refl) as Hf. rewrite (snd_eq _ _ _ _ Hp) in Hf.
  destruct (upd_each_fail E tv (packages E)
              {| updated := updated st1; trace := trace st1 ++ [Write root_manifest tv] |} q Hin Hq)
    as (e & ws & He).
  assert (Hu : updatePackagesVersion E tv st1 =
    (inl e, {| updated := updated st1;
               trace := (trace st1 ++ [Write root_manifest tv]) ++ map (fun q => Write (pkg_manifest q) tv) ws |})).
  { unfold updatePackagesVersion, bind at 1, updatePackageVersion at 1. rewrite Hr. unfold emit at 1.
    rewrite He. reflexivity. }
  assert (Hm : main E init =
    (inl e, {| updated := false;
               trace := (trace st1 ++ [Write root_manifest tv]) ++ map (fun q => Write (pkg_manifest q) tv) ws |})).
  { unfold main, bind at 1. rewrite Hp. cbv beta iota. unfold bind at 1. rewrite Hu, Hf. reflexivity. }
  unfold release. rewrite Hm. cbv beta iota. cbn [updated events exit trace]. split; [reflexivity|].
  rewrite last_write_fold, !fold_left_app. cbn [fold_left lw_step]. rewrite text_eqb_refl.
  rewrite lw_pkg_writes. reflexivity.
Qed.

Lemma manifest_failure_keeps_new_root_witness :
  exit (release env_vue_manifest_broken) = 1 /\
  last_write root_manifest (events (release env_vue_manifest_broken)) = Some (T "1.3.0").
Proof.
  apply (manifest_failure_keeps_new_root env_vue_manifest_broken (T "1.3.0")
           (snd (main_prelude env_vue_manifest_broken init)) (T "vue")).
  - vm_compute. reflexivity.
  - vm_compute. reflexivity.
  - vm_compute. right. left. reflexivity.
  - vm_compute. reflexivity.
Defined.

End ReleaseExtras2.
